(** * Odemis acquisition core: camera acquisition loop, acquisition manager
      and Delphi calibration, embedded from the Python sources.

    - [PVCam]   : [PVCam._acquire_thread_run] of odemis/driver/pvcam.py
    - [AcqMng]  : [ProgressiveFuture], [AcquisitionTask] and [_executeTask]
                  of odemis/gui/acqmng.py
    - [Delphi]  : the canceller, the duration estimators and hole detection
                  of odemis/acq/align/delphi.py

    Python floats that only carry times and positions are embedded as
    rationals ([Q]); the estimated durations that the acquisition task
    adds up and counts down are embedded as binary64 numbers
    ([spec_float] at precision 53), with the rounding of every operation;
    the estimators, which take a logarithm, are embedded over the reals
    ([R]).  Threads are embedded by making every answer of the outside
    world (hardware status, stop flag, clock, other threads' calls) an
    explicit input of the embedded function. *)

From Stdlib Require Import QArith Qminmax Lqa Reals Lra SpecFloat.
From stdpp Require Import gmap strings list sorting pretty.

(* ===================================================================== *)
(** * The camera driver's acquisition thread (pvcam.py)                   *)
(* ===================================================================== *)

Module PVCam.

(** Exposure status codes of the vendor header (module [pv]); the loop
    tells apart the three in-progress codes and [READOUT_COMPLETE]. *)
Inductive status :=
| READOUT_NOT_ACTIVE
| EXPOSURE_IN_PROGRESS
| READOUT_IN_PROGRESS
| READOUT_COMPLETE
| READOUT_FAILED
| ACQUISITION_IN_PROGRESS.

#[global] Instance status_eq_dec : EqDecision status.
Proof. solve_decision. Defined.

Definition STATUS_IN_PROGRESS : list status :=
  [ACQUISITION_IN_PROGRESS; EXPOSURE_IN_PROGRESS; READOUT_IN_PROGRESS].

Definition in_progress (s : status) : bool :=
  bool_decide (s ∈ STATUS_IN_PROGRESS).

(** Result of a call into the SDK: a value, or [PVCamError] raised by the
    error-checking wrapper. *)
Inductive hw (A : Type) :=
| Ok (a : A)
| PVCamError.
Arguments Ok {A} a.
Arguments PVCamError {A}.

#[global] Instance hw_eq_dec {A} `{EqDecision A} : EqDecision (hw A).
Proof. solve_decision. Defined.

(** The SDK calls of the (re-)arming block, in the order of the code. *)
Inductive setup_call :=
| FinishSeq | UninitSeq | GetTemp | Reinitialize
| UpdateSettings | InitSeq | SetupSeq | GetReadout.

#[global] Instance setup_call_eq_dec : EqDecision setup_call.
Proof. solve_decision. Defined.

(** Everything observable the thread does. The two waits on
    [acquire_must_stop] carry what they returned. *)
Inductive event :=
| CheckStatus (r : hw status)
| Abort
| Sleep100ms
| Call (c : setup_call)
| AllocateBuffer (len : nat)
| StartSeq
| Wait80 (must_stop : bool)
| Wait10ms (must_stop : bool)
| Callback
| LogRetry
| LogTooMany
| LogUnexpected
| LogTeardown
| LockRelease
| StopClear.

#[global] Instance event_eq_dec : EqDecision event.
Proof. solve_decision. Defined.

(** What the outside world answers during one turn of the [while] loop. *)
Record iter_env := {
  stop_at_head  : bool;                 (* acquire_must_stop.is_set() *)
  need_update   : bool;                 (* self._need_update_settings() *)
  pre_status    : hw status;            (* exp_check_status() before re-arming *)
  pre_abort_ok  : bool;                 (* pl_exp_abort before re-arming *)
  cam_gone      : bool;                 (* PARAM_TEMP == TEMP_CAM_GONE *)
  setup_fault   : option setup_call;    (* the re-arming call that raises, if any *)
  blength       : nat;                  (* buffer size reported by pl_exp_setup_seq *)
  start_ok      : bool;                 (* pl_exp_start_seq *)
  stop_in_sleep : bool;                 (* acquire_must_stop.wait(duration * 0.8) *)
  first_status  : hw status;            (* exp_check_status() after the sleep *)
  ticks         : list (bool * hw status);
      (* each turn of the polling loop before the 1 s deadline:
         acquire_must_stop.wait(0.01), then exp_check_status();
         the deadline has passed when the list is used up *)
  callback_ok   : bool                  (* callback(array) returns normally *)
}.

(** What the hardware answers during the [finally] block. *)
Record teardown_env := {
  td_status    : hw status;
  td_abort_ok  : bool;
  td_finish_ok : bool;
  td_uninit_ok : bool
}.

(** Local variables of [_acquire_thread_run] that live across turns.
    [cbuffer] is [None] or a ctypes array of the given length. *)
Record loop_state := {
  need_reinit : bool;
  retries     : nat;
  cbuffer     : option nat
}.

Definition init_state : loop_state :=
  {| need_reinit := true; retries := 0; cbuffer := None |}.

(** Truth value of [cbuffer]: [None] and an empty array are false. *)
Definition truthy (cb : option nat) : bool :=
  match cb with
  | Some (S _) => true
  | _ => false
  end.

(** [_allocate_buffer]: [(c_uint16 * (length // 2))()]. *)
Definition _allocate_buffer (len : nat) : option nat := Some (len / 2).

(** Runs the planned SDK calls in order until the faulty one (included).
    Returns the calls made and whether one of them raised. *)
Fixpoint run_calls (plan : list setup_call) (fault : option setup_call)
  : list event * bool :=
  match plan with
  | [] => ([], false)
  | c :: rest =>
      if bool_decide (fault = Some c) then ([Call c], true)
      else let '(evs, raised) := run_calls rest fault in (Call c :: evs, raised)
  end.

(** The polling loop: [while status in STATUS_IN_PROGRESS]. *)
Inductive poll_result :=
| PollDone (s : status)      (* left the loop with a status not in progress *)
| PollStop                   (* must_stop observed *)
| PollIOError                (* IOError("Timeout") *)
| PollPVCamError.            (* exp_check_status raised *)

Fixpoint poll (s : status) (tk : list (bool * hw status))
  : list event * poll_result :=
  if in_progress s then
    match tk with
    | [] => ([], PollIOError)
    | (must_stop, r) :: rest =>
        if must_stop then ([Wait10ms true], PollStop)
        else match r with
             | PVCamError => ([Wait10ms false; CheckStatus r], PollPVCamError)
             | Ok s' =>
                 let '(evs, res) := poll s' rest in
                 (Wait10ms false :: CheckStatus r :: evs, res)
             end
    end
  else ([], PollDone s).

(** How one turn of the loop ends. *)
Inductive flow :=
| Continue       (* next turn *)
| Break          (* [break], or the loop condition is false *)
| Raise.         (* an exception reaches the outer [except:] *)

(** The block guarded by [need_reinit or self._need_update_settings()]. *)
Definition rearm (st : loop_state) (e : iter_env)
  : list event * loop_state * bool :=
  let pre :=
    match pre_status e with
    | PVCamError => [CheckStatus PVCamError]
    | Ok s =>
        if in_progress s then
          if pre_abort_ok e then [CheckStatus (Ok s); Abort; Sleep100ms]
          else [CheckStatus (Ok s); Abort]
        else [CheckStatus (Ok s)]
    end in
  let plan :=
    (if truthy (cbuffer st) then [FinishSeq; UninitSeq] else [])
    ++ [GetTemp] ++ (if cam_gone e then [Reinitialize] else [])
    ++ [UpdateSettings; InitSeq; SetupSeq] in
  let '(evs1, raised1) := run_calls plan (setup_fault e) in
  if raised1 then (pre ++ evs1, st, true)
  else
    let st1 := {| need_reinit := need_reinit st; retries := retries st;
                  cbuffer := _allocate_buffer (blength e) |} in
    let '(evs2, raised2) := run_calls [GetReadout] (setup_fault e) in
    if raised2
    then (pre ++ evs1 ++ [AllocateBuffer (blength e)] ++ evs2, st1, true)
    else (pre ++ evs1 ++ [AllocateBuffer (blength e)] ++ evs2,
          {| need_reinit := false; retries := retries st1;
             cbuffer := cbuffer st1 |}, false).

(** The handler [except (IOError, PVCamError)]. *)
Definition on_fault (st : loop_state) : list event * loop_state * flow :=
  if bool_decide (5 < retries st) then ([LogTooMany], st, Raise)
  else ([LogRetry; Abort; Sleep100ms],
        {| need_reinit := true; retries := S (retries st);
           cbuffer := cbuffer st |}, Continue).

(** From [pl_exp_start_seq] to the end of the turn. *)
Definition expose (st : loop_state) (e : iter_env)
  : list event * loop_state * flow :=
  if negb (start_ok e) then ([StartSeq], st, Raise)
  else if stop_in_sleep e then ([StartSeq; Wait80 true], st, Break)
  else
    match first_status e with
    | PVCamError =>
        let '(evs, st', fl) := on_fault st in
        ([StartSeq; Wait80 false; CheckStatus PVCamError] ++ evs, st', fl)
    | Ok s =>
        let '(pevs, res) := poll s (ticks e) in
        let head := [StartSeq; Wait80 false; CheckStatus (Ok s)] ++ pevs in
        match res with
        | PollStop => (head, st, Break)
        | PollIOError | PollPVCamError =>
            let '(evs, st', fl) := on_fault st in (head ++ evs, st', fl)
        | PollDone s' =>
            if bool_decide (s' = READOUT_COMPLETE) then
              let st' := {| need_reinit := need_reinit st; retries := 0;
                            cbuffer := cbuffer st |} in
              (head ++ [Callback], st',
               if callback_ok e then Continue else Raise)
            else
              let '(evs, st', fl) := on_fault st in (head ++ evs, st', fl)
        end
    end.

(** One turn of [while not self.acquire_must_stop.is_set()]. *)
Definition turn (st : loop_state) (e : iter_env)
  : list event * loop_state * flow :=
  if stop_at_head e then ([], st, Break)
  else if need_reinit st || need_update e then
    let '(evs, st1, raised) := rearm st e in
    if raised then (evs, st1, Raise)
    else let '(evs2, st2, fl) := expose st1 e in (evs ++ evs2, st2, fl)
  else expose st e.

(** How far the thread got on the given answers. *)
Inductive outcome :=
| Running      (* the answers are used up and the loop is still turning *)
| Stopped      (* left the loop on a stop request *)
| Fatal.       (* left the loop on an exception *)

Fixpoint loop (st : loop_state) (envs : list iter_env)
  : list event * loop_state * outcome :=
  match envs with
  | [] => ([], st, Running)
  | e :: rest =>
      let '(evs, st', fl) := turn st e in
      match fl with
      | Continue =>
          let '(evs', st'', out) := loop st' rest in (evs ++ evs', st'', out)
      | Break => (evs, st', Stopped)
      | Raise => (evs, st', Fatal)
      end
  end.

(** The [finally] block. *)
Definition teardown (cb : option nat) (t : teardown_env) : list event :=
  (match td_status t with
   | PVCamError => [CheckStatus PVCamError; LogTeardown]
   | Ok s =>
       if in_progress s then
         if td_abort_ok t then [CheckStatus (Ok s); Abort]
         else [CheckStatus (Ok s); Abort; LogTeardown]
       else [CheckStatus (Ok s)]
   end)
  ++ (if truthy cb then
        if td_finish_ok t then [Call FinishSeq] else [Call FinishSeq; LogTeardown]
      else [])
  ++ (if td_uninit_ok t then [Call UninitSeq] else [Call UninitSeq; LogTeardown])
  ++ [LockRelease; StopClear].

(** [_acquire_thread_run]: the loop from its initial locals, the outer
    [except:] and the [finally] block. *)
Definition _acquire_thread_run (envs : list iter_env) (t : teardown_env)
  : list event * loop_state * outcome :=
  let '(evs, st, out) := loop init_state envs in
  match out with
  | Running => (evs, st, Running)
  | Stopped => (evs ++ teardown (cbuffer st) t, st, Stopped)
  | Fatal => (evs ++ [LogUnexpected] ++ teardown (cbuffer st) t, st, Fatal)
  end.

(** Number of frames handed to the callback. *)
Definition deliveries (tr : list event) : nat :=
  length (filter (λ ev, ev = Callback) tr).

(** A wait on the stop flag that returned true. *)
Definition stop_observed (ev : event) : bool :=
  match ev with
  | Wait80 true | Wait10ms true => true
  | _ => false
  end.

(** ** Classes of turns *)

(** The turn reaches the polling phase: no stop request, the SDK calls
    before it succeed. *)
Definition reaches_poll (e : iter_env) : bool :=
  negb (stop_at_head e) && bool_decide (setup_fault e = None)
  && start_ok e && negb (stop_in_sleep e).

(** Result of the polling phase of a turn. *)
Definition poll_phase (e : iter_env) : poll_result :=
  match first_status e with
  | PVCamError => PollPVCamError
  | Ok s => snd (poll s (ticks e))
  end.

(** A transient fault: timeout, SDK error or unexpected final status. *)
Definition transient_fault (e : iter_env) : bool :=
  reaches_poll e &&
  match poll_phase e with
  | PollDone s => negb (bool_decide (s = READOUT_COMPLETE))
  | PollStop => false
  | PollIOError | PollPVCamError => true
  end.

(** A frame is acquired and the callback returns. *)
Definition success (e : iter_env) : bool :=
  reaches_poll e &&
  match poll_phase e with
  | PollDone s => bool_decide (s = READOUT_COMPLETE)
  | _ => false
  end && callback_ok e.

(** No wait in the list returned true. *)
Definition stop_free (tr : list event) : bool :=
  forallb (λ ev, negb (stop_observed ev)) tr.

(** The specification's reading of the retry bound: six transient faults
    in a row end the thread with a fatal error. *)
Definition six_faults_escalate : Prop :=
  ∀ (fs : list iter_env) (t : teardown_env),
    length fs = 6%nat → forallb transient_fault fs = true →
    (_acquire_thread_run fs t).2 = Fatal.

(** The specification's reading of a stop request seen during the sleep
    or the polling: what follows in the trace aborts the exposure,
    releases the sequence and delivers no frame. *)
Definition stop_aborts_and_releases (envs : list iter_env)
    (t : teardown_env) : Prop :=
  ∀ pre w post,
    (_acquire_thread_run envs t).1.1 = pre ++ w :: post →
    stop_observed w = true →
    Abort ∈ post ∧ Call UninitSeq ∈ post ∧ Callback ∉ post.

(** Concrete turns used in the examples. *)
Definition good_turn : iter_env :=
  {| stop_at_head := false; need_update := false;
     pre_status := Ok READOUT_NOT_ACTIVE; pre_abort_ok := true;
     cam_gone := false; setup_fault := None; blength := 2048;
     start_ok := true; stop_in_sleep := false;
     first_status := Ok READOUT_IN_PROGRESS;
     ticks := [(false, Ok READOUT_COMPLETE)]; callback_ok := true |}.

Definition timeout_turn : iter_env :=
  {| stop_at_head := false; need_update := false;
     pre_status := Ok READOUT_NOT_ACTIVE; pre_abort_ok := true;
     cam_gone := false; setup_fault := None; blength := 2048;
     start_ok := true; stop_in_sleep := false;
     first_status := Ok EXPOSURE_IN_PROGRESS;
     ticks := [(false, Ok EXPOSURE_IN_PROGRESS)]; callback_ok := true |}.

Definition stop_sleep_turn : iter_env :=
  {| stop_at_head := false; need_update := false;
     pre_status := Ok READOUT_NOT_ACTIVE; pre_abort_ok := true;
     cam_gone := false; setup_fault := None; blength := 2048;
     start_ok := true; stop_in_sleep := true;
     first_status := Ok READOUT_NOT_ACTIVE;
     ticks := []; callback_ok := true |}.

Definition stop_poll_turn : iter_env :=
  {| stop_at_head := false; need_update := false;
     pre_status := Ok READOUT_NOT_ACTIVE; pre_abort_ok := true;
     cam_gone := false; setup_fault := None; blength := 2048;
     start_ok := true; stop_in_sleep := false;
     first_status := Ok EXPOSURE_IN_PROGRESS;
     ticks := [(false, Ok READOUT_IN_PROGRESS); (true, Ok READOUT_COMPLETE)];
     callback_ok := true |}.

Definition quiet_teardown : teardown_env :=
  {| td_status := Ok READOUT_NOT_ACTIVE; td_abort_ok := true;
     td_finish_ok := true; td_uninit_ok := true |}.

Definition busy_teardown : teardown_env :=
  {| td_status := Ok EXPOSURE_IN_PROGRESS; td_abort_ok := true;
     td_finish_ok := true; td_uninit_ok := true |}.

(** The list ends with the one wait that returned true. *)
Definition ends_with_stop (evs : list event) : Prop :=
  ∃ pre w, evs = pre ++ [w] ∧ stop_free pre = true ∧ stop_observed w = true.

(** Splits boolean conjunctions in the hypotheses. *)
Ltac split_bools :=
  repeat match goal with
         | H : _ && _ = true |- _ => apply andb_true_iff in H; destruct H
         | H : negb _ = true |- _ => apply negb_true_iff in H
         | H : bool_decide _ = true |- _ => apply bool_decide_eq_true in H
         end.

End PVCam.

(* ===================================================================== *)
(** * The acquisition manager (gui/acqmng.py)                             *)
(* ===================================================================== *)

Module AcqMng.

Local Open Scope Q_scope.

(** States of [concurrent.futures.Future]. *)
Inductive fstate :=
| PENDING | RUNNING | CANCELLED | CANCELLED_AND_NOTIFIED | FINISHED.

#[global] Instance fstate_eq_dec : EqDecision fstate.
Proof. solve_decision. Defined.

(** One call [fn(self, past, left)] of a progress subscriber, with the
    state the future was in when the values were computed. *)
Record report := {
  rp_callback : nat;
  rp_state    : fstate;
  rp_past     : Q;
  rp_left     : Q
}.

(** What a Python callable handed in as canceller may return. *)
Inductive pyret :=
| RNone
| RBool (b : bool).

(** Exceptions that reach [_executeTask]. *)
Inductive exn :=
| CancelledError
| AssertionError
| KeyError.

#[global] Instance exn_eq_dec : EqDecision exn.
Proof. solve_decision. Defined.

Section Future.

(** [T]: the object the canceller works on; [V]: the type of results. *)
Context {T V : Type}.

Record ProgressiveFuture := {
  _state          : fstate;
  _result         : option V;
  _exception      : option exn;
  _done_callbacks : list nat;
  _upd_callbacks  : list nat;
  _start_time     : Q;
  _end_time       : Q;
  task_canceller  : option (T → T * pyret)
}.

(** The future, the task object, the wall clock ([time.time()] returns
    [clock tick] and moves [tick] on), and the calls made so far to
    progress subscribers and to done-callbacks, oldest first. *)
Record sys := {
  fut      : ProgressiveFuture;
  task     : T;
  clock    : nat → Q;
  tick     : nat;
  reports  : list report;
  done_log : list nat
}.

Definition M (A : Type) : Type := sys → A * sys.

Definition ret {A} (a : A) : M A := λ s, (a, s).
Definition bind {A B} (m : M A) (k : A → M B) : M B :=
  λ s, let '(a, s') := m s in k a s'.

Notation "'let*' x ':=' m 'in' k" := (bind m (λ x, k))
  (at level 10, x name, m at level 100, k at level 200).
Notation "m '>>' k" := (bind m (λ _, k))
  (at level 90, right associativity).

Definition get_fut : M ProgressiveFuture := λ s, (fut s, s).

Definition put_fut (f : ProgressiveFuture) : M unit := λ s,
  (tt, {| fut := f; task := task s; clock := clock s; tick := tick s;
          reports := reports s; done_log := done_log s |}).

Definition modify_task (g : T → T) : M unit := λ s,
  (tt, {| fut := fut s; task := g (task s); clock := clock s; tick := tick s;
          reports := reports s; done_log := done_log s |}).

Definition time_time : M Q := λ s,
  (clock s (tick s),
   {| fut := fut s; task := task s; clock := clock s; tick := S (tick s);
      reports := reports s; done_log := done_log s |}).

Definition emit (r : report) : M unit := λ s,
  (tt, {| fut := fut s; task := task s; clock := clock s; tick := tick s;
          reports := reports s ++ [r]; done_log := done_log s |}).

Definition emit_done (cb : nat) : M unit := λ s,
  (tt, {| fut := fut s; task := task s; clock := clock s; tick := tick s;
          reports := reports s; done_log := done_log s ++ [cb] |}).

Fixpoint for_each {A} (l : list A) (body : A → M unit) : M unit :=
  match l with
  | [] => ret tt
  | x :: rest => body x >> for_each rest body
  end.

Definition set_state (st : fstate) (f : ProgressiveFuture) :=
  {| _state := st; _result := _result f; _exception := _exception f;
     _done_callbacks := _done_callbacks f; _upd_callbacks := _upd_callbacks f;
     _start_time := _start_time f; _end_time := _end_time f;
     task_canceller := task_canceller f |}.

Definition with_start (v : Q) (f : ProgressiveFuture) :=
  {| _state := _state f; _result := _result f; _exception := _exception f;
     _done_callbacks := _done_callbacks f; _upd_callbacks := _upd_callbacks f;
     _start_time := v; _end_time := _end_time f;
     task_canceller := task_canceller f |}.

Definition with_end (v : Q) (f : ProgressiveFuture) :=
  {| _state := _state f; _result := _result f; _exception := _exception f;
     _done_callbacks := _done_callbacks f; _upd_callbacks := _upd_callbacks f;
     _start_time := _start_time f; _end_time := v;
     task_canceller := task_canceller f |}.

Definition with_upd (l : list nat) (f : ProgressiveFuture) :=
  {| _state := _state f; _result := _result f; _exception := _exception f;
     _done_callbacks := _done_callbacks f; _upd_callbacks := l;
     _start_time := _start_time f; _end_time := _end_time f;
     task_canceller := task_canceller f |}.

Definition finish (r : option V) (e : option exn) (f : ProgressiveFuture) :=
  {| _state := FINISHED; _result := r; _exception := e;
     _done_callbacks := _done_callbacks f; _upd_callbacks := _upd_callbacks f;
     _start_time := _start_time f; _end_time := _end_time f;
     task_canceller := task_canceller f |}.

(** [ProgressiveFuture.__init__], the times given. *)
Definition new_future (start end_ : Q) : ProgressiveFuture :=
  {| _state := PENDING; _result := None; _exception := None;
     _done_callbacks := []; _upd_callbacks := [];
     _start_time := start; _end_time := end_; task_canceller := None |}.

(** [left] set to 0 when negative. *)
Definition clamp_left (left_ : Q) : Q :=
  if Qle_bool 0 left_ then left_ else 0.

(** The two values [_report_update] hands to the subscriber. *)
Definition progress (f : ProgressiveFuture) (now : Q) : Q * Q :=
  match _state f with
  | CANCELLED | CANCELLED_AND_NOTIFIED | FINISHED =>
      (_end_time f - _start_time f, 0)
  | PENDING =>
      let past := now - _start_time f in
      let left_ := _end_time f - now in
      (if Qle_bool 0 past then - (1 # 1000000000) else past, clamp_left left_)
  | RUNNING =>
      (now - _start_time f, clamp_left (_end_time f - now))
  end.

Definition _report_update (fn : nat) : M unit :=
  let* now := time_time in
  let* f := get_fut in
  let '(past, left_) := progress f now in
  emit {| rp_callback := fn; rp_state := _state f;
          rp_past := past; rp_left := left_ |}.

Definition _invoke_upd_callbacks : M unit :=
  let* f := get_fut in
  for_each (_upd_callbacks f) _report_update.

(** [Future._invoke_callbacks] of the base class. *)
Definition _invoke_callbacks : M unit :=
  let* f := get_fut in
  for_each (_done_callbacks f) emit_done.

Definition set_start_time (val : Q) : M unit :=
  let* f := get_fut in
  put_fut (with_start val f) >> _invoke_upd_callbacks.

Definition set_end_time (val : Q) : M unit :=
  let* f := get_fut in
  put_fut (with_end val f) >> _invoke_upd_callbacks.

Definition add_update_callback (fn : nat) : M unit :=
  let* f := get_fut in
  match _state f with
  | CANCELLED | FINISHED => _report_update fn
  | _ => put_fut (with_upd (_upd_callbacks f ++ [fn]) f)
  end.

(** [ProgressiveFuture.cancel]. The value returned by the canceller is
    dropped. *)
Definition cancel : M bool :=
  let* f := get_fut in
  match _state f with
  | FINISHED => ret false
  | CANCELLED | CANCELLED_AND_NOTIFIED => ret true
  | RUNNING =>
      match task_canceller f with
      | Some c =>
          modify_task (λ t, fst (c t)) >>
          put_fut (set_state CANCELLED f) >>
          _invoke_callbacks >> _invoke_upd_callbacks >> ret true
      | None => ret false
      end
  | PENDING =>
      put_fut (set_state CANCELLED f) >>
      _invoke_callbacks >> _invoke_upd_callbacks >> ret true
  end.

(** [Future.set_running_or_notify_cancel] of the base class; [None] is
    its [RuntimeError] on a future that is neither pending nor cancelled. *)
Definition base_set_running_or_notify_cancel : M (option bool) :=
  let* f := get_fut in
  match _state f with
  | CANCELLED => put_fut (set_state CANCELLED_AND_NOTIFIED f) >> ret (Some false)
  | PENDING => put_fut (set_state RUNNING f) >> ret (Some true)
  | _ => ret None
  end.

(** The override: the local it calls [cancelled] holds the base class's
    answer, which is true when the future starts running. *)
Definition set_running_or_notify_cancel : M (option bool) :=
  let* r := base_set_running_or_notify_cancel in
  match r with
  | None => ret None
  | Some cancelled =>
      let* now := time_time in
      let* f := get_fut in
      put_fut (if cancelled then with_end now (with_start now f)
               else with_start now f) >>
      _invoke_upd_callbacks >> ret (Some cancelled)
  end.

(** The override of [set_result], on the base class's unconditional one. *)
Definition set_result (v : V) : M unit :=
  let* f := get_fut in
  put_fut (finish (Some v) (_exception f) f) >> _invoke_callbacks >>
  let* now := time_time in
  let* f' := get_fut in
  put_fut (with_end now f') >> _invoke_upd_callbacks.

Definition set_exception (e : exn) : M unit :=
  let* f := get_fut in
  put_fut (finish (_result f) (Some e) f) >> _invoke_callbacks >>
  let* now := time_time in
  let* f' := get_fut in
  put_fut (with_end now f') >> _invoke_upd_callbacks.

(** [Future.done]. *)
Definition done (f : ProgressiveFuture) : bool :=
  match _state f with
  | CANCELLED | CANCELLED_AND_NOTIFIED | FINISHED => true
  | _ => false
  end.

(** The call [fn(self, past, left)] made when the clock reads [now]. *)
Definition report_of (f : ProgressiveFuture) (now : Q) (fn : nat) : report :=
  {| rp_callback := fn; rp_state := _state f;
     rp_past := (progress f now).1; rp_left := (progress f now).2 |}.

(** The calls made by one round of [_invoke_upd_callbacks] that starts
    at reading [t0] of the clock. *)
Fixpoint reports_for (f : ProgressiveFuture) (clk : nat → Q) (t0 : nat)
    (fns : list nat) : list report :=
  match fns with
  | [] => []
  | fn :: rest => report_of f (clk t0) fn :: reports_for f clk (Datatypes.S t0) rest
  end.

(** The state after one round of [_invoke_upd_callbacks]. *)
Definition after_upd (s : sys) : sys :=
  {| fut := fut s; task := task s; clock := clock s;
     tick := tick s + length (_upd_callbacks (fut s));
     reports := reports s ++ reports_for (fut s) (clock s) (tick s)
                                         (_upd_callbacks (fut s));
     done_log := done_log s |}.

(** What the executing side does to the times of its future. *)
Inductive action :=
| SetEndTime (val : Q)
| SetRunning.

Definition act (a : action) : M unit :=
  match a with
  | SetEndTime val => set_end_time val
  | SetRunning => set_running_or_notify_cancel >> ret tt
  end.

Definition perform (l : list action) (s : sys) : sys :=
  foldl (λ s a, (act a s).2) s l.

(** The reports made since [s0]. *)
Definition since (s0 s : sys) : list report :=
  drop (length (reports s0)) (reports s).

(** The specification's reading of [cancel()] on a running future with a
    canceller: the answer is the canceller's, and the future becomes
    cancelled only when the canceller reports success. *)
Definition cancel_follows_canceller (s : sys) : Prop :=
  ∀ c, _state (fut s) = RUNNING → task_canceller (fut s) = Some c →
       RBool (cancel s).1 = (c (task s)).2
       ∧ (_state (fut (cancel s).2) = CANCELLED → (c (task s)).2 = RBool true).

(** The specification's reading of the elapsed value of a pending future:
    never negative. *)
Definition pending_elapsed_clamped (s : sys) : Prop :=
  _state (fut s) = PENDING →
  ∀ val, Forall (λ r, 0 <= rp_past r) (since s (set_end_time val s).2).

End Future.

Arguments ProgressiveFuture : clear implicits.
Arguments sys : clear implicits.
Arguments M : clear implicits.

Notation "'let*' x ':=' m 'in' k" := (bind m (λ x, k))
  (at level 10, x name, m at level 100, k at level 200).
Notation "m '>>' k" := (bind m (λ _, k))
  (at level 90, right associativity).

(** Elapsed values of the reports made while running, oldest first. *)
Definition running_pasts (rs : list report) : list Q :=
  omap (λ r, if bool_decide (rp_state r = RUNNING)
             then Some (rp_past r) else None) rs.

(** A clock that never goes back. *)
Definition monotone (clk : nat → Q) : Prop :=
  ∀ i j, (i ≤ j)%nat → clk i <= clk j.

(** A running future with one subscriber whose canceller reports that it
    could not cancel. *)
Definition refusing_sys : sys unit nat :=
  {| fut := {| _state := RUNNING; _result := None; _exception := None;
               _done_callbacks := []; _upd_callbacks := [7%nat];
               _start_time := 0; _end_time := 10;
               task_canceller := Some (λ t, (t, RBool false)) |};
     task := tt; clock := λ _, 5; tick := 0; reports := []; done_log := [] |}.

(** A pending future with one subscriber, due to start at 10 s, when the
    clock reads 5 s. *)
Definition pending_sys : sys unit nat :=
  {| fut := {| _state := PENDING; _result := None; _exception := None;
               _done_callbacks := []; _upd_callbacks := [7%nat];
               _start_time := 10; _end_time := 20;
               task_canceller := None |};
     task := tt; clock := λ _, 5; tick := 0; reports := []; done_log := [] |}.

(** ** Python floats

    An estimated duration is a Python float, a binary64 number, and [run]
    adds and subtracts such numbers with the rounding of the machine:
    to nearest, ties to even.  They are embedded with the Standard
    Library's specification of IEEE 754 arithmetic, at precision 53 and
    exponents below 1024. *)
Definition float : Type := spec_float.

Definition f64_add : float → float → float := SFadd 53 1024.
Definition f64_sub : float → float → float := SFsub 53 1024.
Definition f64_div : float → float → float := SFdiv 53 1024.

(** [x == y] and [x < y] on floats. *)
Definition f64_eqb : float → float → bool := SFeqb.
Definition f64_ltb : float → float → bool := SFltb.

(** The float of an integer literal. *)
Definition f64_of_Z (z : Z) : float := binary_normalize 53 1024 z 0 false.

(** The literals [0.1], [0.2]: the floats nearest to the decimal. *)
Definition f64_tenth : float := f64_div (f64_of_Z 1) (f64_of_Z 10).
Definition f64_fifth : float := f64_div (f64_of_Z 2) (f64_of_Z 10).

(** The rational a finite float stands for; the clock of the model is
    rational, and an estimate is added to it as that number. Infinities
    and [nan], which no duration is, are read as 0. *)
Definition Q_of_f64 (x : float) : Q :=
  match x with
  | S754_finite s m e =>
      let v := inject_Z (Z.pos m) * Qpower 2 e in
      if s then - v else v
  | _ => 0
  end.

(** ** Streams and the acquisition task *)

(** The stream classes and the tuples [OPTICAL_STREAMS] and [EM_STREAMS]
    are declared in odemis.gui.model, outside these sources; a stream's
    class is given by the branch of [secom_weight_stream] it takes. *)
Inductive stream_class :=
| FluoStream           (* isinstance(stream, FluoStream) *)
| OpticalStream        (* another member of OPTICAL_STREAMS *)
| EMStream             (* a member of EM_STREAMS *)
| SEMSpectrumMDStream
| ARStream
| SpectrumStream
| UnknownStream.

Record DataArray := {
  payload        : nat;
  md_description : option string
}.

Record Stream := {
  sid      : nat;              (* identity of the object *)
  name     : string;           (* name.value *)
  cls      : stream_class;
  acq_time : float;            (* estimateAcquisitionTime() *)
  raw      : list DataArray    (* .raw once the image has arrived *)
}.

Definition secom_weight_stream (stream : Stream) : nat :=
  match cls stream with
  | FluoStream => 100
  | OpticalStream => 90
  | EMStream => if String.eqb (name stream) "SEM CL" then 40 else 50
  | SEMSpectrumMDStream => 40
  | ARStream => 40
  | SpectrumStream => 40
  | UnknownStream => 0
  end%nat.

(** [sorted(l, key=key, reverse=True)]: descending and stable. *)
Fixpoint insert_desc {A} (key : A → nat) (x : A) (l : list A) : list A :=
  match l with
  | [] => [x]
  | y :: rest =>
      if (key x <? key y)%nat then y :: insert_desc key x rest
      else x :: y :: rest
  end.

Definition sorted_desc {A} (key : A → nat) (l : list A) : list A :=
  foldr (insert_desc key) [] l.

Inductive stream_event :=
| Subscribe (s : nat)
| Unsubscribe (s : nat)
| SetActive (s : nat) (v : bool).

(** Where the thread running [_executeTask(future, task.run)] stands. *)
Inductive pc :=
| NotStarted
| NotRun                 (* set_running_or_notify_cancel did not say True *)
| Waiting                (* in [self._condition.wait()] *)
| Returned
| Raised (e : exn).

#[global] Instance pc_eq_dec : EqDecision pc.
Proof. solve_decision. Defined.

(** The task object, followed by the locals of [run] and the calls made
    on the streams. The dictionary [_streamTimes] is keyed by object
    identity and keeps the key object next to the value. *)
Record AcquisitionTask := {
  _streams        : list Stream;
  _streamTimes    : gmap nat (Stream * float);
  _current_stream : option Stream;
  _cancelled      : bool;
  thread_pc       : pc;
  todo            : list Stream;      (* rest of [for s in self._streams] *)
  raw_images      : list DataArray;
  expected_time   : float;
  stream_log      : list stream_event
}.

Definition dict_keys (d : gmap nat (Stream * float)) : list Stream :=
  (map_to_list d).*2.*1.

Definition dict_values (d : gmap nat (Stream * float)) : list float :=
  (map_to_list d).*2.*2.

(** [numpy.sum] of a list of floats: a binary64 accumulator that starts
    at [0.] and takes the elements one after the other, in the order of
    the list. numpy adds so up to 7 elements, and groups the additions
    of longer lists differently from its version 1.9 on. *)
Definition numpy_sum (l : list float) : float :=
  foldl f64_add (f64_of_Z 0) l.

(** [AcquisitionTask.__init__]. *)
Definition new_task (streams : list Stream) : AcquisitionTask :=
  let times := foldl (λ d s, <[sid s := (s, acq_time s)]> d) ∅ streams in
  {| _streams := sorted_desc secom_weight_stream (dict_keys times);
     _streamTimes := times;
     _current_stream := None; _cancelled := false;
     thread_pc := NotStarted; todo := []; raw_images := [];
     expected_time := f64_of_Z 0; stream_log := [] |}.

Definition upd_task (cur : option Stream) (cancelled : bool) (p : pc)
    (td : list Stream) (imgs : list DataArray) (et : float)
    (evs : list stream_event) (t : AcquisitionTask) : AcquisitionTask :=
  {| _streams := _streams t; _streamTimes := _streamTimes t;
     _current_stream := cur; _cancelled := cancelled; thread_pc := p;
     todo := td; raw_images := imgs; expected_time := et;
     stream_log := stream_log t ++ evs |}.

Definition set_pc (p : pc) (t : AcquisitionTask) : AcquisitionTask :=
  upd_task (_current_stream t) (_cancelled t) p (todo t) (raw_images t)
           (expected_time t) [] t.

(** [AcquisitionTask.cancel], the canceller of the future. *)
Definition task_cancel (t : AcquisitionTask) : AcquisitionTask * pyret :=
  (upd_task (_current_stream t) true (thread_pc t) (todo t) (raw_images t)
            (expected_time t)
            (match _current_stream t with
             | Some s => [Unsubscribe (sid s); SetActive (sid s) false]
             | None => []
             end) t,
   RNone).

(** [AcquisitionTask._image_listener]. *)
Definition _image_listener (t : AcquisitionTask) : AcquisitionTask :=
  upd_task (_current_stream t) (_cancelled t) (thread_pc t) (todo t)
           (raw_images t) (expected_time t)
           (match _current_stream t with
            | Some s => [Unsubscribe (sid s); SetActive (sid s) false]
            | None => []
            end) t.

Abbreviation TM := (M AcquisitionTask (list DataArray)).

Definition get_task : TM AcquisitionTask := λ s, (task s, s).

(** Head of [for s in self._streams]: up to the wait on the next stream,
    or the [return] when no stream is left. *)
Definition next_stream : TM unit :=
  let* t := get_task in
  match todo t with
  | [] => modify_task (set_pc Returned)
  | s :: rest =>
      modify_task (upd_task (Some s) (_cancelled t) Waiting rest
                            (raw_images t) (expected_time t)
                            [Subscribe (sid s); SetActive (sid s) true])
  end.

(** [run] from its first line to its first wait. *)
Definition run_start : TM unit :=
  let* t := get_task in
  match _current_stream t with
  | Some _ => modify_task (set_pc (Raised AssertionError))
  | None =>
      let expected := numpy_sum (dict_values (_streamTimes t)) in
      modify_task (upd_task None (_cancelled t) (thread_pc t) (_streams t)
                            [] expected []) >>
      let* now := time_time in
      set_end_time (now + Q_of_f64 expected) >>
      next_stream
  end.

(** [run] from the return of [self._condition.wait()] to the next wait. *)
Definition run_resume : TM unit :=
  let* t := get_task in
  if _cancelled t then modify_task (set_pc (Raised CancelledError))
  else
    match _current_stream t with
    | None => ret tt
    | Some s =>
        let data :=
          (λ d, {| payload := payload d; md_description := Some (name s) |})
            <$> raw s in
        match _streamTimes t !! sid s with
        | None => modify_task (set_pc (Raised KeyError))
        | Some (_, est) =>
            let expected := f64_sub (expected_time t) est in
            modify_task (upd_task (Some s) (_cancelled t) (thread_pc t)
                                  (todo t) (raw_images t ++ data) expected
                                  []) >>
            let* now := time_time in
            set_end_time (now + Q_of_f64 expected) >>
            next_stream
        end
    end.

(** The two halves of [run_resume]: from the return of
    [self._condition.wait()] to the end of the [with] block, which tells
    whether the thread goes on; and from there to the next wait. The task's
    lock is held in the first half only, and [set_end_time] in the second
    half takes the future's lock. *)
Definition run_wake : TM bool :=
  let* t := get_task in
  if _cancelled t
  then modify_task (set_pc (Raised CancelledError)) >> ret false
  else ret true.

Definition run_collect : TM unit :=
  let* t := get_task in
  match _current_stream t with
  | None => ret tt
  | Some s =>
      let data :=
        (λ d, {| payload := payload d; md_description := Some (name s) |})
          <$> raw s in
      match _streamTimes t !! sid s with
      | None => modify_task (set_pc (Raised KeyError))
      | Some (_, est) =>
          let expected := f64_sub (expected_time t) est in
          modify_task (upd_task (Some s) (_cancelled t) (thread_pc t)
                                (todo t) (raw_images t ++ data) expected
                                []) >>
          let* now := time_time in
          set_end_time (now + Q_of_f64 expected) >>
          next_stream
      end
  end.

(** The [try] of [_executeTask] once [fn] has returned or raised. *)
Definition settle : TM unit :=
  let* t := get_task in
  match thread_pc t with
  | Returned => set_result (raw_images t)
  | Raised CancelledError => ret tt
  | Raised e => set_exception e
  | _ => ret tt
  end.

(** [_executeTask(future, task.run)] up to the first wait. *)
Definition _executeTask : TM unit :=
  let* r := set_running_or_notify_cancel in
  match r with
  | Some true => run_start >> settle
  | _ => modify_task (set_pc NotRun)
  end.

(** Period of the timer thread started by [run]:
    [min(10, max(0.1, expected_time/100))]. *)
Definition upd_period (expected : float) : float :=
  let hundredth := f64_div expected (f64_of_Z 100) in
  let m := if f64_ltb f64_tenth hundredth then hundredth else f64_tenth in
  if f64_ltb m (f64_of_Z 10) then m else f64_of_Z 10.

(** What the other threads do to the task. *)
Inductive ext :=
| ExtThreadStart            (* the thread of [startAcquisition] gets to run *)
| ExtImage                  (* the current stream publishes an image *)
| ExtCancel                 (* somebody calls [future.cancel()] *)
| ExtTimer                  (* the timer thread wakes up *)
| ExtAddCallback (fn : nat) (* somebody calls [future.add_update_callback] *).

Definition started (p : pc) : bool :=
  match p with
  | NotStarted | NotRun => false
  | _ => true
  end.

(** One event, run in one piece: the listener's call and the thread's way
    from [wait()] to its next wait for [ExtImage], the whole of
    [future.cancel()] and the thread's way out of [wait()] for
    [ExtCancel]. The schedules in which these calls overlap are those of
    [run_section] below. *)
Definition step (e : ext) : TM unit :=
  let* t := get_task in
  match e with
  | ExtThreadStart =>
      match thread_pc t with
      | NotStarted => _executeTask
      | _ => ret tt
      end
  | ExtImage =>
      match thread_pc t with
      | Waiting => modify_task _image_listener >> run_resume >> settle
      | _ => ret tt
      end
  | ExtCancel =>
      cancel >>
      let* t' := get_task in
      match thread_pc t' with
      | Waiting => if _cancelled t' then run_resume >> settle else ret tt
      | _ => ret tt
      end
  | ExtTimer =>
      let* f := get_fut in
      if started (thread_pc t) && negb (done f)
      then _invoke_upd_callbacks else ret tt
  | ExtAddCallback fn => add_update_callback fn
  end.

Definition exec (evs : list ext) (s : sys AcquisitionTask (list DataArray))
  : sys AcquisitionTask (list DataArray) :=
  foldl (λ s e, snd (step e s)) s evs.

(** [startAcquisition] on the list [_mergeStreams] hands to the task, up
    to the start of the thread. *)
Definition startAcquisition (streams : list Stream) (clk : nat → Q)
  : sys AcquisitionTask (list DataArray) :=
  let start := clk 0%nat + (1 # 10) in
  {| fut := {| _state := PENDING; _result := None; _exception := None;
               _done_callbacks := []; _upd_callbacks := [];
               _start_time := start; _end_time := start + (1 # 10);
               task_canceller := Some task_cancel |};
     task := new_task streams;
     clock := clk; tick := 1; reports := []; done_log := [] |}.

(** The state once the thread has started and [k] images have arrived. *)
Definition acquired (streams : list Stream) (clk : nat → Q) (k : nat)
  : sys AcquisitionTask (list DataArray) :=
  exec (ExtThreadStart :: replicate k ExtImage) (startAcquisition streams clk).

(** ** The same threads, one critical section at a time

    [future.cancel()] holds the lock of the future from its test of the
    state to [self._state = CANCELLED], the call of the canceller
    included; [set_end_time] takes that lock too. [_image_listener],
    [AcquisitionTask.cancel] and the [with] block of [run] hold the lock
    of the task, which [wait()] gives up and takes back. Between two of
    these critical sections another thread can run. The sections below
    are those around one wait of the thread; what the thread does between
    two waits is kept in one piece, [Collect], which can start only when
    the lock of the future is free: every schedule of sections is one the
    code can follow, and some that it can follow are left out. *)

(** Where a caller of [future.cancel()] stands. *)
Inductive cancel_pc :=
| NotCalled
| BeforeCanceller      (* lock of the future held, state read as RUNNING,
                          [self.task_canceller()] not yet called *)
| AfterCanceller       (* lock still held, [_state] not yet assigned *)
| Answered (b : bool). (* [cancel()] has returned [b] *)

#[global] Instance cancel_pc_eq_dec : EqDecision cancel_pc.
Proof. solve_decision. Defined.

Record threads := {
  shared    : sys AcquisitionTask (list DataArray);
  canceller : cancel_pc;
  listening : bool;  (* [_image_listener] is subscribed to the current stream *)
  notified  : bool;  (* [notify_all()] was called since the thread began to wait *)
  resumed   : bool   (* the thread has left the [with] block after a wait and
                        has not yet called [set_end_time] *)
}.

Inductive section :=
| Image          (* the current stream calls [_image_listener] *)
| Wake           (* the thread takes the task's lock back and goes from the
                    return of [wait()] to the end of the [with] block *)
| Collect        (* the thread goes from there to its next wait, or to the
                    end of [_executeTask] *)
| CancelCall     (* [future.cancel()] up to the call of the canceller *)
| CancelTask     (* the canceller, [AcquisitionTask.cancel] *)
| CancelReturn.  (* [future.cancel()] from the canceller's return on *)

Definition future_locked (c : threads) : bool :=
  match canceller c with
  | BeforeCanceller | AfterCanceller => true
  | _ => false
  end.

Definition in_wait (c : threads) : bool :=
  bool_decide (thread_pc (task (shared c)) = Waiting) && negb (resumed c).

(** One critical section; [None] when the thread it belongs to cannot
    run it in this state. *)
Definition run_section (e : section) (c : threads) : option threads :=
  let s := shared c in
  match e with
  | Image =>
      if in_wait c && listening c
      then Some {| shared := (modify_task _image_listener s).2;
                   canceller := canceller c; listening := false;
                   notified := true; resumed := false |}
      else None
  | Wake =>
      if in_wait c && notified c
      then let '(go, s') := run_wake s in
           Some {| shared := if go then s' else (settle s').2;
                   canceller := canceller c; listening := listening c;
                   notified := false; resumed := go |}
      else None
  | Collect =>
      if resumed c && negb (future_locked c)
      then let s' := ((run_collect >> settle) s).2 in
           Some {| shared := s'; canceller := canceller c;
                   listening := bool_decide (thread_pc (task s') = Waiting);
                   notified := false; resumed := false |}
      else None
  | CancelCall =>
      match canceller c with
      | NotCalled =>
          let next :=
            match _state (fut s) with
            | FINISHED => Answered false
            | CANCELLED | CANCELLED_AND_NOTIFIED => Answered true
            | RUNNING =>
                match task_canceller (fut s) with
                | Some _ => BeforeCanceller
                | None => Answered false
                end
            | PENDING => AfterCanceller
            end in
          Some {| shared := s; canceller := next; listening := listening c;
                  notified := notified c; resumed := resumed c |}
      | _ => None
      end
  | CancelTask =>
      match canceller c, task_canceller (fut s) with
      | BeforeCanceller, Some f =>
          Some {| shared := (modify_task (λ t, fst (f t)) s).2;
                  canceller := AfterCanceller; listening := false;
                  notified := true; resumed := resumed c |}
      | _, _ => None
      end
  | CancelReturn =>
      match canceller c with
      | AfterCanceller =>
          Some {| shared := ((put_fut (set_state CANCELLED (fut s)) >>
                              _invoke_callbacks >> _invoke_upd_callbacks) s).2;
                  canceller := Answered true; listening := listening c;
                  notified := notified c; resumed := resumed c |}
      | _ => None
      end
  end.

Fixpoint run_sections (es : list section) (c : threads) : option threads :=
  match es with
  | [] => Some c
  | e :: rest =>
      match run_section e c with
      | Some c' => run_sections rest c'
      | None => None
      end
  end.

(** The thread is in [wait()] on its current stream and nobody has
    called [cancel()]. *)
Definition waiting (s : sys AcquisitionTask (list DataArray)) : threads :=
  {| shared := s; canceller := NotCalled; listening := true;
     notified := false; resumed := false |}.

(** The image of the stream waited for arrives while [future.cancel()]
    is about to call the canceller, and the thread gets the lock of the
    task before the canceller does. *)
Definition late_cancel : list section :=
  [CancelCall; Image; Wake; CancelTask; CancelReturn; Collect].

(** The canceller gets the lock of the task first. *)
Definition timely_cancel : list section :=
  [CancelCall; CancelTask; CancelReturn; Wake].

(** [self._streamTimes[s]], 0 standing for a missing key. *)
Definition stream_time (t : AcquisitionTask) (s : Stream) : float :=
  match _streamTimes t !! sid s with
  | Some (_, q) => q
  | None => f64_of_Z 0
  end.

(** The streams of the spec's example: estimates 5, 3 and 2. *)
Definition stream_A : Stream :=
  {| sid := 1; name := "A"; cls := FluoStream; acq_time := f64_of_Z 5;
     raw := [{| payload := 11; md_description := None |}] |}.
Definition stream_B : Stream :=
  {| sid := 2; name := "B"; cls := OpticalStream; acq_time := f64_of_Z 3;
     raw := [{| payload := 22; md_description := None |}] |}.
Definition stream_C : Stream :=
  {| sid := 3; name := "C"; cls := EMStream; acq_time := f64_of_Z 2;
     raw := [{| payload := 33; md_description := None |}] |}.

(** Two streams of one class with the estimates 0.1 s and 0.2 s. *)
Definition stream_D : Stream :=
  {| sid := 6; name := "D"; cls := FluoStream; acq_time := f64_tenth;
     raw := [{| payload := 44; md_description := None |}] |}.
Definition stream_E : Stream :=
  {| sid := 7; name := "E"; cls := FluoStream; acq_time := f64_fifth;
     raw := [{| payload := 55; md_description := None |}] |}.

(** A clock that advances by one second per reading. *)
Definition seconds : nat → Q := λ n, inject_Z (Z.of_nat n).

(** A pending future with one subscriber, on a clock that ticks seconds. *)
Definition pending_seconds : sys unit nat :=
  {| fut := {| _state := PENDING; _result := None; _exception := None;
               _done_callbacks := []; _upd_callbacks := [7%nat];
               _start_time := 10; _end_time := 20;
               task_canceller := None |};
     task := tt; clock := seconds; tick := 0; reports := []; done_log := [] |}.

(** What holds of the task and its future while the thread has not
    started or waits for a stream. *)
Definition task_inv (s : sys AcquisitionTask (list DataArray)) : Prop :=
  task_canceller (fut s) = Some task_cancel ∧
  match thread_pc (task s) with
  | NotStarted =>
      (_state (fut s) = PENDING ∨ _state (fut s) = CANCELLED)
      ∧ _result (fut s) = None ∧ _cancelled (task s) = false
  | Waiting =>
      _state (fut s) = RUNNING ∧ _result (fut s) = None
      ∧ _cancelled (task s) = false
  | _ => True
  end.

(** The task has been cancelled while it was waiting. *)
Definition cancelled_inv (s : sys AcquisitionTask (list DataArray)) : Prop :=
  _state (fut s) = CANCELLED ∧ _result (fut s) = None
  ∧ thread_pc (task s) = Raised CancelledError.

(** The specification's reading of the countdown: [expected_time] is 0
    once the last stream has completed. *)
Definition countdown_ends_at_zero (streams : list Stream) (clk : nat → Q)
  : Prop :=
  let n := length (_streams (new_task streams)) in
  f64_eqb (expected_time (task (acquired streams clk n))) (f64_of_Z 0) = true.

(** Every entry of the dictionary sits under the identity of its key
    object and holds that object's estimate. *)
Definition keyed (d : gmap nat (Stream * float)) : Prop :=
  ∀ k x q, d !! k = Some (x, q) → sid x = k ∧ q = acq_time x.

(** Where [run] stands once [k] images have arrived: the local
    [expected_time] is the seed less the estimates of the first [k]
    streams, and the loop waits on stream [k] or has returned. *)
Definition at_position (streams : list Stream) (k : nat)
    (s : sys AcquisitionTask (list DataArray)) : Prop :=
  let t0 := new_task streams in
  expected_time (task s) =
    foldl f64_sub (numpy_sum (dict_values (_streamTimes t0)))
          (stream_time t0 <$> take k (_streams t0))
  ∧ _streamTimes (task s) = _streamTimes t0
  ∧ _cancelled (task s) = false
  ∧ match drop k (_streams t0) with
    | [] => thread_pc (task s) = Returned
    | x :: rest =>
        thread_pc (task s) = Waiting ∧ _current_stream (task s) = Some x
        ∧ todo (task s) = rest
    end.

(** Runs the plumbing of the state monad. *)
Ltac run_m :=
  unfold bind, ret, get_fut, get_task, put_fut, modify_task, time_time;
  simpl.

End AcqMng.

(* ===================================================================== *)
(** * The Delphi calibration (acq/align/delphi.py)                        *)
(* ===================================================================== *)

Module Delphi.

Import AcqMng.

Definition NUMBER_OF_HOLES : nat := 2.
Definition MAX_STEPS : nat := 10.

(** ** The canceller of the conversion update *)

Inductive subtask := HoleDetectionF | AlignOffsetF | RotationScalingF.

(** Calls made by the canceller: [cancel()] on the future held in one of
    the three attributes, and [future._done.wait(timeout)], each with the
    value the call returned. *)
Inductive cancel_event :=
| SubCancel (f : subtask) (returned : bool)
| DoneWait (timeout : Q) (returned : bool).

(** What the three futures and the event answer. *)
Record cancel_env := {
  hole_detection_cancel   : bool;
  align_offset_cancel     : bool;
  rotation_scaling_cancel : bool;
  done_in_time            : bool
}.

Definition _CancelUpdateConversion (_conversion_update_state : fstate)
    (env : cancel_env) : bool * fstate * list cancel_event :=
  match _conversion_update_state with
  | FINISHED => (false, FINISHED, [])
  | _ =>
      (true, CANCELLED,
       [SubCancel HoleDetectionF (hole_detection_cancel env);
        SubCancel AlignOffsetF (align_offset_cancel env);
        SubCancel RotationScalingF (rotation_scaling_cancel env);
        DoneWait 10 (done_in_time env)])
  end.

(** The cancellers of the three sub-tasks have one shape: refuse when the
    task has finished, flag it cancelled otherwise. *)
Definition _CancelHoleDetection (_hole_detection_state : fstate)
  : bool * fstate :=
  match _hole_detection_state with
  | FINISHED => (false, FINISHED)
  | _ => (true, CANCELLED)
  end.

(** ** Duration estimators *)

Inductive err :=
| Cancelled            (* CancelledError *)
| IOError
| ValueError           (* math domain error *)
| LookupError          (* KeyError, IndexError *)
| UnboundLocalError.

Inductive result (A : Type) :=
| Ret (a : A)
| Exc (e : err).
Arguments Ret {A} a.
Arguments Exc {A} e.

Section Estimators.
Local Open Scope R_scope.

Definition ERR_MARGIN_R : R := 30 / 1000000.

(** [math.log]. *)
Definition math_log (x : R) : result R :=
  if Rlt_dec 0 x then Ret (ln x) else Exc ValueError.

(** Python's [min(a, b)]. *)
Definition py_min (a b : R) : R := if Rlt_dec b a then b else a.

(** Body shared by the three estimators. *)
Definition estimate (et : R) (dist : option R) : result R :=
  match dist with
  | None => Ret (INR MAX_STEPS * (et + 2))
  | Some d =>
      let err_mrg := ERR_MARGIN_R in
      match math_log (d / err_mrg), math_log 2 with
      | Ret num, Ret den =>
          let steps := num / den in
          let steps := py_min steps (INR MAX_STEPS) in
          Ret (steps * (et + 2))
      | Exc e, _ | _, Exc e => Exc e
      end
  end.

Definition estimateOffsetTime := estimate.
Definition estimateRotationAndScalingTime := estimate.
Definition estimateHoleDetectionTime := estimate.

(** The step count in the words of the specification:
    [min(log2(distance / error_margin), MAX_STEPS)]. *)
Definition log2 (x : R) : R := ln x / ln 2.
Definition estimate_steps (initial_distance : R) : R :=
  Rmin (log2 (initial_distance / ERR_MARGIN_R)) (INR MAX_STEPS).

End Estimators.

(** ** Hole detection *)

Local Open Scope Q_scope.

Definition ERR_MARGIN : Q := 30 # 1000000.

(** A positioning stage: what hole detection asks of [sem_stage]. *)
Class Actuator (S : Type) := {
  moveAbs  : Q * Q → S → S;
  moveRel  : Q * Q → S → S;
  position : S → Q * Q
}.

(** A stage that goes exactly where it is told. *)
#[global] Instance ideal_stage : Actuator (Q * Q) := {|
  moveAbs := λ p _, p;
  moveRel := λ d p, (fst p + fst d, snd p + snd d);
  position := λ p, p
|}.

(** The dictionaries live in a store; a tuple of dictionaries is a list
    of references. The module constant [EXPECTED_HOLES] is such a tuple,
    and the store starts with the configured positions behind it. *)
Abbreviation dict := (gmap string Q).
Abbreviation store := (gmap nat dict).

Definition EXPECTED_HOLES : list nat := [0; 1]%nat.

Definition configured_holes : store :=
  {[ 0%nat := {[ "x" := 0; "y" := 11 # 1000 ]};
     1%nat := {[ "x" := 0; "y" := - (11 # 1000) ]} ]}.

(** The SEM image as hole detection uses it. *)
Record image := {
  hole_center   : option (Q * Q);  (* FindHoleCenter(image), None: IOError *)
  shape         : nat * nat;       (* rows, columns *)
  md_pixel_size : Q * Q
}.

Record escan_settings := {
  scale          : Q * Q;
  resolution     : nat * nat;
  resolution_max : nat * nat;      (* resolution.range[1] *)
  dwellTime      : Q;
  horizontalFoV  : Q;
  accelVoltage   : Q
}.

Inductive hd_event :=
| MoveAbs (p : Q * Q)
| MoveRel (d : Q * Q)
| GetImage
| SetEndTime (et : Q) (tab : Q * Q).
    (* set_end_time(time.time() + estimateHoleDetectionTime(et, dist)),
       dist the length of tab *)

(** The images of a trace. *)
Definition images_got (tr : list hd_event) : list unit :=
  omap (λ ev, match ev with GetImage => Some tt | _ => None end) tr.

(** The offset of the hole from the centre of the image, in metres, as
    the centring loop computes [tab]. *)
Definition hole_offset (img : image) : option (Q * Q) :=
  match hole_center img with
  | None => None
  | Some hole_coordinates =>
      let pixelSize := md_pixel_size img in
      let center_pxs :=
        (inject_Z (Z.of_nat (snd (shape img))) / 2,
         inject_Z (Z.of_nat (fst (shape img))) / 2) in
      let tab_pxs := (fst hole_coordinates - fst center_pxs,
                      snd hole_coordinates - snd center_pxs) in
      Some (fst tab_pxs * fst pixelSize, snd tab_pxs * snd pixelSize)
  end.

Section HoleDetection.
Context {S : Type} `{Actuator S}.

(** [cancel_at]: the reading of [_hole_detection_state] from which on
    the canceller has flagged the task. *)
Record world := {
  objects   : store;
  sem_stage : S;
  escan     : escan_settings;
  _hole_detection_state : fstate;
  cancel_at : option nat;
  reads     : nat;
  images    : nat → image;          (* detector.data.get(asap=False) *)
  taken     : nat;
  trace     : list hd_event
}.

Definition upd_world (o : store) (st : S) (es : escan_settings)
    (fs : fstate) (r t : nat) (evs : list hd_event) (w : world) : world :=
  {| objects := o; sem_stage := st; escan := es;
     _hole_detection_state := fs; cancel_at := cancel_at w; reads := r;
     images := images w; taken := t; trace := trace w ++ evs |}.

(** [future._hole_detection_state == CANCELLED]. *)
Definition is_cancelled (w : world) : bool * world :=
  (match cancel_at w with
   | Some n => bool_decide (n ≤ reads w)%nat
   | None => bool_decide (_hole_detection_state w = CANCELLED)
   end,
   upd_world (objects w) (sem_stage w) (escan w) (_hole_detection_state w)
             (Datatypes.S (reads w)) (taken w) [] w).

Definition set_fov (v : Q) (es : escan_settings) : escan_settings :=
  {| scale := scale es; resolution := resolution es;
     resolution_max := resolution_max es; dwellTime := dwellTime es;
     horizontalFoV := v; accelVoltage := accelVoltage es |}.

Definition set_voltage (v : Q) (es : escan_settings) : escan_settings :=
  {| scale := scale es; resolution := resolution es;
     resolution_max := resolution_max es; dwellTime := dwellTime es;
     horizontalFoV := horizontalFoV es; accelVoltage := v |}.

(** [d[hole][key]] through a tuple of references. *)
Definition read_hole (tuple : list nat) (hole : nat) (key : string)
    (o : store) : option Q :=
  l ← tuple !! hole; d ← o !! l; d !! key.

(** [d[hole][key] = v] through a tuple of references. *)
Definition write_hole (tuple : list nat) (hole : nat) (key : string) (v : Q)
    (o : store) : option store :=
  l ← tuple !! hole; d ← o !! l; Some (<[l := <[key := v]> d]> o).

(** [dist <= ERR_MARGIN] for [dist] the length of [tab] ([math.hypot]),
    compared on the squares. *)
Definition close_enough (tab : Q * Q) : bool :=
  Qle_bool (fst tab * fst tab + snd tab * snd tab) (ERR_MARGIN * ERR_MARGIN).

(** The [while True] loop that centres on one hole. [remaining] is
    [MAX_STEPS - steps]; [tab] is [None] while the local is unbound. *)
Fixpoint center_on_hole (remaining : nat) (et : Q) (tab : option (Q * Q))
    (w : world) : result (option (Q * Q)) * world :=
  let '(c, w) := is_cancelled w in
  if c then (Exc Cancelled, w)
  else
    match remaining with
    | O => (Ret tab, w)
    | Datatypes.S r =>
        let img := images w (taken w) in
        let w := upd_world (objects w) (sem_stage w) (escan w)
                   (_hole_detection_state w) (reads w)
                   (Datatypes.S (taken w)) [GetImage] w in
        match hole_center img with
        | None => (Exc IOError, w)
        | Some hole_coordinates =>
            let pixelSize := md_pixel_size img in
            let center_pxs :=
              (inject_Z (Z.of_nat (snd (shape img))) / 2,
               inject_Z (Z.of_nat (fst (shape img))) / 2) in
            let tab_pxs := (fst hole_coordinates - fst center_pxs,
                            snd hole_coordinates - snd center_pxs) in
            let tab' := (fst tab_pxs * fst pixelSize,
                         snd tab_pxs * snd pixelSize) in
            if close_enough tab' then (Ret (Some tab'), w)
            else
              let es := if Qeq_bool (horizontalFoV (escan w)) (6 # 10000)
                        then escan w else set_fov (6 # 10000) (escan w) in
              let w := upd_world (objects w) (moveRel tab' (sem_stage w)) es
                         (_hole_detection_state w) (reads w) (taken w)
                         [MoveRel tab'; SetEndTime et tab'] w in
              center_on_hole r et (Some tab') w
        end
    end.

(** Body of [for hole in range(NUMBER_OF_HOLES)], over the indices left. *)
Fixpoint detect_holes (holes : list nat) (holes_found : list nat) (et : Q)
    (tab : option (Q * Q)) (w : world) : result unit * world :=
  match holes with
  | [] => (Ret tt, w)
  | hole :: rest =>
      let '(c, w) := is_cancelled w in
      if c then (Exc Cancelled, w)
      else
        let es := set_voltage 5300 (set_fov (12 # 10000) (escan w)) in
        let w := upd_world (objects w) (sem_stage w) es
                   (_hole_detection_state w) (reads w) (taken w) [] w in
        match read_hole EXPECTED_HOLES hole "x" (objects w),
              read_hole EXPECTED_HOLES hole "y" (objects w) with
        | Some x, Some y =>
            let w := upd_world (objects w) (moveAbs (x, y) (sem_stage w))
                       (escan w) (_hole_detection_state w) (reads w)
                       (taken w) [MoveAbs (x, y)] w in
            match center_on_hole MAX_STEPS et tab w with
            | (Exc e, w) => (Exc e, w)
            | (Ret None, w) => (Exc UnboundLocalError, w)
            | (Ret (Some tab), w) =>
                let px := fst (position (sem_stage w)) + fst tab in
                match write_hole holes_found hole "x" px (objects w) with
                | None => (Exc LookupError, w)
                | Some o1 =>
                    let py := snd (position (sem_stage w)) + snd tab in
                    match write_hole holes_found hole "y" py o1 with
                    | None => (Exc LookupError, w)
                    | Some o2 =>
                        detect_holes rest holes_found et (Some tab)
                          (upd_world o2 (sem_stage w) (escan w)
                             (_hole_detection_state w) (reads w) (taken w)
                             [] w)
                    end
                end
            end
        | _, _ => (Exc LookupError, w)
        end
  end.

(** The [finally] clause: a cancelled task raises whatever the body did. *)
Definition finally_ {A} (r : result A) (w : world) : result A * world :=
  let '(c, w) := is_cancelled w in
  if c then (Exc Cancelled, w)
  else (r, upd_world (objects w) (sem_stage w) (escan w) FINISHED
              (reads w) (taken w) [] w).

Definition _DoHoleDetection (w : world)
  : result ((Q * Q) * (Q * Q)) * world :=
  let es0 := escan w in
  let es := {| scale := (1, 1); resolution := resolution_max es0;
               resolution_max := resolution_max es0;
               dwellTime := 6 # 1000000;
               horizontalFoV := horizontalFoV es0;
               accelVoltage := accelVoltage es0 |} in
  let w := upd_world (objects w) (sem_stage w) es (_hole_detection_state w)
             (reads w) (taken w) [] w in
  let holes_found := EXPECTED_HOLES in
  let et := dwellTime es
            * inject_Z (Z.of_nat (fst (resolution es) * snd (resolution es))) in
  match detect_holes (seq 0 NUMBER_OF_HOLES) holes_found et None w with
  | (Exc e, w) => finally_ (Exc e) w
  | (Ret _, w) =>
      match read_hole holes_found 0 "x" (objects w),
            read_hole holes_found 0 "y" (objects w),
            read_hole holes_found 1 "x" (objects w),
            read_hole holes_found 1 "y" (objects w) with
      | Some x0, Some y0, Some x1, Some y1 =>
          finally_ (Ret ((x0, y0), (x1, y1))) w
      | _, _, _, _ => finally_ (Exc LookupError) w
      end
  end.

(** The targets of the absolute moves, in order. *)
Definition abs_moves (tr : list hd_event) : list (Q * Q) :=
  omap (λ ev, match ev with MoveAbs p => Some p | _ => None end) tr.

(** The position the table behind [EXPECTED_HOLES] gives for a hole. *)
Definition expected_position (o : store) (hole : nat) : option (Q * Q) :=
  x ← read_hole EXPECTED_HOLES hole "x" o;
  y ← read_hole EXPECTED_HOLES hole "y" o;
  Some (x, y).

Fixpoint expected_positions (o : store) (holes : list nat)
  : list (Q * Q) :=
  match holes with
  | [] => []
  | hole :: rest =>
      match expected_position o hole with
      | Some p => p :: expected_positions o rest
      | None => expected_positions o rest
      end
  end.

(** What a run added to the trace. *)
Definition new_events (w w' : world) : list hd_event :=
  drop (length (trace w)) (trace w').

(** The stage once the moves of a trace have been made. *)
Definition replay (evs : list hd_event) (st : S) : S :=
  foldl (λ st ev, match ev with
                  | MoveAbs p => moveAbs p st
                  | MoveRel d => moveRel d st
                  | _ => st
                  end) st evs.

(** Two positions that are the same point. *)
Definition same_point (p q : Q * Q) : Prop :=
  fst p == fst q ∧ snd p == snd q.

(** "SEM stage position plus offset from hole detection": what is
    stored for a hole. *)
Definition position_plus (st : S) (tab : Q * Q) : Q * Q :=
  (fst (position st) + fst tab, snd (position st) + snd tab).

End HoleDetection.

(** A run on the ideal stage: the first hole is seen 100 px off centre,
    then centred; the second is centred at once. *)
Definition img_off : image :=
  {| hole_center := Some (612, 512); shape := (1024, 1024)%nat;
     md_pixel_size := (1 # 1000000, 1 # 1000000) |}.
Definition img_centred : image :=
  {| hole_center := Some (512, 512); shape := (1024, 1024)%nat;
     md_pixel_size := (1 # 1000000, 1 # 1000000) |}.

Definition demo_world (o : store) : @world (Q * Q) :=
  {| objects := o; sem_stage := (0, 0);
     escan := {| scale := (1, 1); resolution := (256, 256)%nat;
                 resolution_max := (2048, 2048)%nat; dwellTime := 1 # 1000000;
                 horizontalFoV := 1 # 1000; accelVoltage := 10000 |};
     _hole_detection_state := RUNNING; cancel_at := None; reads := 0;
     images := λ n, match n with O => img_off | _ => img_centred end;
     taken := 0; trace := [] |}.

End Delphi.

(* ===================================================================== *)
(** * The camera driver's settings (pvcam.py)                             *)
(* ===================================================================== *)

Module PVCamSettings.

Import PVCam.
Local Open Scope Z_scope.

(** ** Version numbers *)

(** The list [ver] of [_int2version]: major, minor and trivial version. *)
Definition _int2version_parts (raw : Z) : list Z :=
  let ver := [] in
  let ver := Z.land raw 0x0f :: ver in
  let raw := Z.shiftr raw 4 in
  let ver := Z.land raw 0x0f :: ver in
  let raw := Z.shiftr raw 4 in
  let ver := Z.land raw 0xff :: ver in
  ver.

(** ['.'.join(str(x) for x in ver)]. *)
Definition _int2version (raw : Z) : string :=
  String.concat "." (pretty <$> _int2version_parts raw).

(** ** Resolution, binning and the region of interest *)

Inductive pyerr :=
| AssertionError
| ZeroDivisionError
| PVCamErr.

Inductive res (A : Type) :=
| Val (a : A)
| Err (e : pyerr).
Arguments Val {A} a.
Arguments Err {A} e.

Definition res_bind {A B} (m : res A) (k : A → res B) : res B :=
  match m with
  | Val a => k a
  | Err e => Err e
  end.

Notation "'do' x <- m ; k" := (res_bind m (λ x, k))
  (at level 10, x name, m at level 100, k at level 200).

(** [a // b] on integers. *)
Definition floordiv (a b : Z) : res Z :=
  if decide (b = 0) then Err ZeroDivisionError else Val (a / b).

(** [int(math.ceil(a / b))] on integers, the quotient taken exactly. *)
Definition ceildiv (a b : Z) : res Z :=
  if decide (b = 0) then Err ZeroDivisionError else Val (- ((- a) / b)).

(** The attributes of the camera object that the settings code uses.
    [_prev_settings] is the list [image, exposure, readout, gain] of what
    was last sent to the hardware, [None] for what never was. *)
Record camera := {
  _shape         : Z * Z;                 (* sensor width and height *)
  resolution_min : Z * Z;                 (* resolution.range[0] *)
  _binning       : Z * Z;
  _image_rect    : Z * Z * Z * Z;
  _exposure_time : Q;
  _readout_rate  : Q;
  _gain          : Q;
  _prev_settings : option (Z * Z * (Z * Z * Z * Z))
                   * option Q * option Q * option Q;
  md_readout_time : option Q;
  md_bpp          : option Z;
  md_gain         : option Q;
  md_binning      : option Z;
  md_exp_time     : option Q
}.

Definition with_rect (r : Z * Z * Z * Z) (c : camera) : camera :=
  {| _shape := _shape c; resolution_min := resolution_min c;
     _binning := _binning c; _image_rect := r;
     _exposure_time := _exposure_time c; _readout_rate := _readout_rate c;
     _gain := _gain c; _prev_settings := _prev_settings c;
     md_readout_time := md_readout_time c; md_bpp := md_bpp c;
     md_gain := md_gain c; md_binning := md_binning c;
     md_exp_time := md_exp_time c |}.

(** [resolutionFitter]. The second component is bounded below by the
    first component of [min_size], as the code has it. *)
Definition resolutionFitter (c : camera) (size_req : Z * Z) : res (Z * Z) :=
  let resolution := _shape c in
  do mx0 <- floordiv resolution.1 (_binning c).1;
  do mx1 <- floordiv resolution.2 (_binning c).2;
  let max_size := (mx0, mx1) in
  let min_res := resolution_min c in
  do mn0 <- ceildiv min_res.1 (_binning c).1;
  do mn1 <- ceildiv min_res.2 (_binning c).2;
  let min_size := (mn0, mn1) in
  let size := (Z.min size_req.1 max_size.1, Z.min size_req.2 max_size.2) in
  let size := (Z.max min_size.1 size.1, Z.max min_size.1 size.2) in
  Val size.

(** [_storeSize]. *)
Definition _storeSize (c : camera) (size : Z * Z) : res camera :=
  let full_res := _shape c in
  do r0 <- floordiv full_res.1 (_binning c).1;
  do r1 <- floordiv full_res.2 (_binning c).2;
  let resolution := (r0, r1) in
  if bool_decide (1 ≤ size.1 ∧ size.1 ≤ resolution.1
                  ∧ 1 ≤ size.2 ∧ size.2 ≤ resolution.2) then
    let lt := ((resolution.1 - size.1) / 2, (resolution.2 - size.2) / 2) in
    Val (with_rect (lt.1 * (_binning c).1,
                    (lt.1 + size.1) * (_binning c).1 - 1,
                    lt.2 * (_binning c).2,
                    (lt.2 + size.2) * (_binning c).2 - 1) c)
  else Err AssertionError.

(** [_setResolution]: the setter of the resolution attribute. *)
Definition _setResolution (c : camera) (value : Z * Z)
  : res ((Z * Z) * camera) :=
  do new_res <- resolutionFitter c value;
  do c' <- _storeSize c new_res;
  Val (new_res, c').

(** The size [_update_settings] computes back from the region. *)
Definition region_size (c : camera) : res (Z * Z) :=
  let '(s1, s2, p1, p2) := _image_rect c in
  do w <- floordiv (s2 - s1 + 1) (_binning c).1;
  do h <- floordiv (p2 - p1 + 1) (_binning c).2;
  Val (w, h).

(** ** Committing the settings *)

(** [a != b] where [a] may be [None]. *)
Definition differs (prev : option Q) (cur : Q) : bool :=
  match prev with
  | None => true
  | Some p => negb (Qeq_bool p cur)
  end.

Definition image_settings (c : camera) : Z * Z * (Z * Z * Z * Z) :=
  (_binning c, _image_rect c).

(** [_need_update_settings]. *)
Definition _need_update_settings (c : camera) : bool :=
  let '(prev_image, prev_exp, prev_rate, prev_gain) := _prev_settings c in
  negb (bool_decide (prev_image = Some (image_settings c)))
  || differs prev_exp (_exposure_time c)
  || differs prev_rate (_readout_rate c)
  || differs prev_gain (_gain c).

(** Writes to the hardware made while committing. *)
Inductive hw_write :=
| SetSpeedIndex (i : Z)       (* set_param(PARAM_SPDTAB_INDEX, i) *)
| GetBitDepth                 (* get_param(PARAM_BIT_DEPTH) *)
| SetGainIndex (i : Z).       (* set_param(PARAM_GAIN_INDEX, i) *)

Record commit_env := {
  set_speed_ok : bool;
  bit_depth    : hw Z;
  set_gain_ok  : bool
}.

Section Commit.

(** [util.index_closest] on the tables of readout rates and of gains. *)
Variable rate_index : Q → Z.
Variable gain_index : Q → Z.

(** [_update_settings]: the camera after it, what was written, and the
    exposure time and size it returns. *)
Definition _update_settings (c : camera) (env : commit_env)
  : camera * list hw_write * res (Q * (Z * Z)) :=
  let '(prev_image, prev_exp, prev_rate, prev_gain) := _prev_settings c in
  let rate_step :=
    if differs prev_rate (_readout_rate c) then
      let i := rate_index (_readout_rate c) in
      if negb (set_speed_ok env) then (c, [SetSpeedIndex i], Err PVCamErr, prev_gain)
      else if Qeq_bool (_readout_rate c) 0
      then (c, [SetSpeedIndex i], Err ZeroDivisionError, prev_gain)
      else
        match bit_depth env with
        | PVCamError =>
            ({| _shape := _shape c; resolution_min := resolution_min c;
                _binning := _binning c; _image_rect := _image_rect c;
                _exposure_time := _exposure_time c;
                _readout_rate := _readout_rate c; _gain := _gain c;
                _prev_settings := _prev_settings c;
                md_readout_time := Some (1 / _readout_rate c)%Q;
                md_bpp := md_bpp c; md_gain := md_gain c;
                md_binning := md_binning c; md_exp_time := md_exp_time c |},
             [SetSpeedIndex i; GetBitDepth], Err PVCamErr, prev_gain)
        | Ok bpp =>
            ({| _shape := _shape c; resolution_min := resolution_min c;
                _binning := _binning c; _image_rect := _image_rect c;
                _exposure_time := _exposure_time c;
                _readout_rate := _readout_rate c; _gain := _gain c;
                _prev_settings := _prev_settings c;
                md_readout_time := Some (1 / _readout_rate c)%Q;
                md_bpp := Some bpp; md_gain := md_gain c;
                md_binning := md_binning c; md_exp_time := md_exp_time c |},
             [SetSpeedIndex i; GetBitDepth], Val tt, None)
        end
    else (c, [], Val tt, prev_gain) in
  let '(c1, w1, r1, prev_gain) := rate_step in
  match r1 with
  | Err e => (c1, w1, Err e)
  | Val _ =>
      let gain_step :=
        if differs prev_gain (_gain c1) then
          let i := gain_index (_gain c1) in
          if negb (set_gain_ok env) then (c1, [SetGainIndex i], Err PVCamErr)
          else
            ({| _shape := _shape c1; resolution_min := resolution_min c1;
                _binning := _binning c1; _image_rect := _image_rect c1;
                _exposure_time := _exposure_time c1;
                _readout_rate := _readout_rate c1; _gain := _gain c1;
                _prev_settings := _prev_settings c1;
                md_readout_time := md_readout_time c1;
                md_bpp := md_bpp c1; md_gain := Some (_gain c1);
                md_binning := md_binning c1; md_exp_time := md_exp_time c1 |},
             [SetGainIndex i], Val tt)
        else (c1, [], Val tt) in
      let '(c2, w2, r2) := gain_step in
      match r2 with
      | Err e => (c2, w1 ++ w2, Err e)
      | Val _ =>
          match region_size c2 with
          | Err e =>
              ({| _shape := _shape c2; resolution_min := resolution_min c2;
                  _binning := _binning c2; _image_rect := _image_rect c2;
                  _exposure_time := _exposure_time c2;
                  _readout_rate := _readout_rate c2; _gain := _gain c2;
                  _prev_settings := _prev_settings c2;
                  md_readout_time := md_readout_time c2;
                  md_bpp := md_bpp c2; md_gain := md_gain c2;
                  md_binning := Some (_binning c2).1;
                  md_exp_time := md_exp_time c2 |}, w1 ++ w2, Err e)
          | Val size =>
              ({| _shape := _shape c2; resolution_min := resolution_min c2;
                  _binning := _binning c2; _image_rect := _image_rect c2;
                  _exposure_time := _exposure_time c2;
                  _readout_rate := _readout_rate c2; _gain := _gain c2;
                  _prev_settings :=
                    (Some (image_settings c2), Some (_exposure_time c2),
                     Some (_readout_rate c2), Some (_gain c2));
                  md_readout_time := md_readout_time c2;
                  md_bpp := md_bpp c2; md_gain := md_gain c2;
                  md_binning := Some (_binning c2).1;
                  md_exp_time := Some (_exposure_time c2) |},
               w1 ++ w2, Val (_exposure_time c2, size))
          end
      end
  end.

End Commit.

(** The setters of gain, readout rate and exposure time: they only store
    the value ([_setExposureTime] asserts that it is positive). *)
Definition _setGain (c : camera) (value : Q) : camera :=
  {| _shape := _shape c; resolution_min := resolution_min c;
     _binning := _binning c; _image_rect := _image_rect c;
     _exposure_time := _exposure_time c; _readout_rate := _readout_rate c;
     _gain := value; _prev_settings := _prev_settings c;
     md_readout_time := md_readout_time c; md_bpp := md_bpp c;
     md_gain := md_gain c; md_binning := md_binning c;
     md_exp_time := md_exp_time c |}.

Definition _setReadoutRate (c : camera) (value : Q) : camera :=
  {| _shape := _shape c; resolution_min := resolution_min c;
     _binning := _binning c; _image_rect := _image_rect c;
     _exposure_time := _exposure_time c; _readout_rate := value;
     _gain := _gain c; _prev_settings := _prev_settings c;
     md_readout_time := md_readout_time c; md_bpp := md_bpp c;
     md_gain := md_gain c; md_binning := md_binning c;
     md_exp_time := md_exp_time c |}.

Definition _setExposureTime (c : camera) (value : Q) : res camera :=
  if Qlt_le_dec 0 value then
    Val {| _shape := _shape c; resolution_min := resolution_min c;
           _binning := _binning c; _image_rect := _image_rect c;
           _exposure_time := value; _readout_rate := _readout_rate c;
           _gain := _gain c; _prev_settings := _prev_settings c;
           md_readout_time := md_readout_time c; md_bpp := md_bpp c;
           md_gain := md_gain c; md_binning := md_binning c;
           md_exp_time := md_exp_time c |}
  else Err AssertionError.

(** A 1024 x 256 sensor, binning 2, nothing sent to the hardware yet. *)
Definition demo_camera : camera :=
  {| _shape := (1024, 256); resolution_min := (1, 1); _binning := (2, 2);
     _image_rect := (0, 1023, 0, 255);
     _exposure_time := 1%Q; _readout_rate := 2000000%Q; _gain := 1%Q;
     _prev_settings := (None, None, None, None);
     md_readout_time := None; md_bpp := None; md_gain := None;
     md_binning := None; md_exp_time := None |}.

Definition all_ok : commit_env :=
  {| set_speed_ok := true; bit_depth := Ok 16; set_gain_ok := true |}.

End PVCamSettings.

(* ===================================================================== *)
(** * Traces of the acquisition thread                                    *)
(* ===================================================================== *)

Module PVCamTrace.

Import PVCam.

(** Number of exposures started. *)
Definition exposures (tr : list event) : nat :=
  length (filter (λ ev, ev = StartSeq) tr).

(** The events of the [finally] block and of the outer [except:]. *)
Definition ending_event (ev : event) : bool :=
  match ev with
  | LogUnexpected | LogTeardown | LockRelease | StopClear => true
  | _ => false
  end.

(** No event of the list belongs to the end of the thread. *)
Definition in_loop (tr : list event) : bool :=
  forallb (λ ev, negb (ending_event ev)) tr.

(** Number of times an event occurs. *)
Definition occurrences (ev : event) (tr : list event) : nat :=
  length (filter (λ ev', ev' = ev) tr).

(** Calls that (re-)arm the sequence, and the allocation of the buffer. *)
Definition setup_event (ev : event) : bool :=
  match ev with
  | Call _ | AllocateBuffer _ => true
  | _ => false
  end.

Definition no_setup (tr : list event) : bool :=
  forallb (λ ev, negb (setup_event ev)) tr.

(** The re-arming calls made whatever the state of the camera. *)
Definition arming_calls : list setup_call :=
  [GetTemp; UpdateSettings; InitSeq; SetupSeq; GetReadout].

(** A frame is acquired and the callback raises. *)
Definition callback_raises (e : iter_env) : bool :=
  reaches_poll e &&
  match poll_phase e with
  | PollDone s => bool_decide (s = READOUT_COMPLETE)
  | _ => false
  end && negb (callback_ok e).

(** A turn in which [pl_exp_start_seq] raises. *)
Definition start_raises (e : iter_env) : bool :=
  negb (stop_at_head e) && bool_decide (setup_fault e = None)
  && negb (start_ok e).

Definition bad_callback_turn : iter_env :=
  {| stop_at_head := false; need_update := false;
     pre_status := Ok READOUT_NOT_ACTIVE; pre_abort_ok := true;
     cam_gone := false; setup_fault := None; blength := 2048;
     start_ok := true; stop_in_sleep := false;
     first_status := Ok READOUT_COMPLETE;
     ticks := []; callback_ok := false |}.

Definition dead_camera_turn : iter_env :=
  {| stop_at_head := false; need_update := false;
     pre_status := PVCamError; pre_abort_ok := true;
     cam_gone := false; setup_fault := Some GetTemp; blength := 0;
     start_ok := true; stop_in_sleep := false;
     first_status := Ok READOUT_COMPLETE;
     ticks := []; callback_ok := true |}.

End PVCamTrace.


(* ===================================================================== *)
(** * The acquisition manager: callers and helpers (gui/acqmng.py)        *)
(* ===================================================================== *)

Module AcqMngMore.

Import AcqMng.
Local Open Scope Q_scope.

(** The calls made to one progress subscriber. *)
Definition calls_to (fn : nat) (rs : list report) : list report :=
  filter (λ r, rp_callback r = fn) rs.

(** The report of a future that is over: the duration of the task and
    nothing left. *)
Definition final_report {T V} (f : ProgressiveFuture T V) (fn : nat) : report :=
  {| rp_callback := fn; rp_state := _state f;
     rp_past := _end_time f - _start_time f; rp_left := 0 |}.

(** [self._state not in (CANCELLED, FINISHED)], the test of
    [add_update_callback]. *)
Definition still_open (st : fstate) : bool :=
  match st with
  | CANCELLED | FINISHED => false
  | _ => true
  end.

(** The data of a stream as [run] adds them to [raw_images]: each array
    with the name of the stream as description. *)
Definition tagged (s : Stream) : list DataArray :=
  (λ d, {| payload := payload d; md_description := Some (name s) |}) <$> raw s.

(** What [run] does to a stream before it waits, and what the listener
    does on the first image. *)
Definition started_on (s : Stream) : list stream_event :=
  [Subscribe (sid s); SetActive (sid s) true].

Definition stopped_on (s : Stream) : list stream_event :=
  [Unsubscribe (sid s); SetActive (sid s) false].

(** Where the task and its future stand once the thread has started and
    [k] images have arrived. *)
Definition progress_inv (streams : list Stream) (k : nat)
    (s : sys AcquisitionTask (list DataArray)) : Prop :=
  let order := _streams (new_task streams) in
  at_position streams k s
  ∧ task_canceller (fut s) = Some task_cancel
  ∧ raw_images (task s) = concat (tagged <$> take k order)
  ∧ stream_log (task s)
    = concat ((λ x, started_on x ++ stopped_on x) <$> take k order)
      ++ match order !! k with
         | Some x => started_on x
         | None => []
         end
  ∧ if decide (k < length order)%nat
    then _state (fut s) = RUNNING ∧ _result (fut s) = None
    else _state (fut s) = FINISHED
         ∧ _result (fut s) = Some (concat (tagged <$> order)).

(** [future.cancel()] came before the thread of the task got to run. *)
Definition never_run (s : sys AcquisitionTask (list DataArray)) : Prop :=
  _state (fut s) = CANCELLED_AND_NOTIFIED ∧ thread_pc (task s) = NotRun.

(** The system with another list of subscribers. *)
Definition subscribed (fns : list nat)
    (s : sys AcquisitionTask (list DataArray))
  : sys AcquisitionTask (list DataArray) :=
  {| fut := with_upd fns (fut s); task := task s; clock := clock s;
     tick := tick s; reports := reports s; done_log := done_log s |}.


(** The order [sorted(..., key=secom_weight_stream, reverse=True)]
    establishes. *)
Definition by_weight (x y : Stream) : Prop :=
  (secom_weight_stream y ≤ secom_weight_stream x)%nat.

(** [merged.remove(x)]: the list without its first item equal to [x], or
    [None] for the [ValueError] when there is none. Streams are equal
    when they are the same object. *)
Fixpoint list_remove (x : Stream) (l : list Stream) : option (list Stream) :=
  match l with
  | [] => None
  | y :: rest =>
      if decide (sid y = sid x) then Some rest
      else match list_remove x rest with
           | Some rest' => Some (y :: rest')
           | None => None
           end
  end.

(** [x in merged]. *)
Definition list_in (x : Stream) (l : list Stream) : bool :=
  bool_decide (sid x ∈ sid <$> l).

(** The classes are declared in odemis.gui.model, outside these sources:
    [isinstance(s, EM_STREAMS)], [isinstance(s, SpectrumStream)] and the
    constructor [SEMSpectrumMDStream(name, semcl, s)]. *)
Class StreamClasses := {
  isinstance_EM : Stream → bool;
  isinstance_Spectrum : Stream → bool;
  new_SEMSpectrumMDStream : string → Stream → Stream → Stream
}.

Section Merge.

Context `{SC : StreamClasses}.

Definition is_semcl (s : Stream) : bool :=
  isinstance_EM s && String.eqb (name s) "SEM CL".

(** The stream that stands for a spectrum stream and the SEM CL one. *)
Definition mds_of (semcl s : Stream) : Stream :=
  new_SEMSpectrumMDStream (name semcl +:+ " - " +:+ name s) semcl s.

(** One turn of [for s in specs]. *)
Definition merge_spec (semcl : Stream) (acc : option (list Stream))
    (s : Stream) : option (list Stream) :=
  match acc with
  | None => None
  | Some merged =>
      let mds := mds_of semcl s in
      match list_remove s merged with
      | None => None
      | Some merged =>
          match (if list_in semcl merged then list_remove semcl merged
                 else Some merged) with
          | None => None
          | Some merged => Some (merged ++ [mds])
          end
      end
  end.

(** [_mergeStreams]. *)
Definition _mergeStreams (streams : list Stream) : option (list Stream) :=
  let merged := streams in
  let semcls := filter (λ s, is_semcl s = true) streams in
  let specs := filter (λ s, isinstance_Spectrum s = true) streams in
  match semcls with
  | [] => Some merged
  | semcl :: _ => foldl (merge_spec semcl) (Some merged) specs
  end.

(** [estimateTime]: [tot_time] starts at the integer 0 and takes the
    estimates one after the other, in the order of the merged list. *)
Definition estimateTime (streams : list Stream) : option float :=
  match _mergeStreams streams with
  | None => None
  | Some merged =>
      Some (foldl (λ tot s, f64_add tot (acq_time s)) (f64_of_Z 0) merged)
  end.

End Merge.

(** A spectrum stream and an AR stream next to the streams of the
    examples. *)
Definition stream_CL : Stream :=
  {| sid := 4; name := "SEM CL"; cls := EMStream; acq_time := f64_of_Z 1;
     raw := [] |}.
Definition stream_S : Stream :=
  {| sid := 5; name := "Spectrum"; cls := SpectrumStream; acq_time := f64_of_Z 7;
     raw := [] |}.

(** A third stream of the class of [stream_D] and [stream_E], with the
    estimate 0.3 s. *)
Definition stream_F : Stream :=
  {| sid := 8; name := "F"; cls := FluoStream;
     acq_time := f64_div (f64_of_Z 3) (f64_of_Z 10); raw := [] |}.

(** Disjoint classes, and merged streams that are new objects. *)
Definition demo_mds (n : string) (semcl s : Stream) : Stream :=
  {| sid := 100 + sid s; name := n; cls := SEMSpectrumMDStream;
     acq_time := acq_time s; raw := [] |}.

Definition demo_classes : StreamClasses :=
  {| isinstance_EM := λ s, match cls s with EMStream => true | _ => false end;
     isinstance_Spectrum :=
       λ s, match cls s with SpectrumStream => true | _ => false end;
     new_SEMSpectrumMDStream := demo_mds |}.


End AcqMngMore.


(* ===================================================================== *)
(** * Hole detection and the conversion update: what runs do             *)
(* ===================================================================== *)

Module DelphiMore.

Import AcqMng Delphi.
Local Open Scope Q_scope.

(** The relative moves of a trace. *)
Definition rel_moves (tr : list hd_event) : list (Q * Q) :=
  omap (λ ev, match ev with MoveRel d => Some d | _ => None end) tr.

Section Runs.
Context {S : Type} `{Actuator S}.

(** What the [k]-th reading of [_hole_detection_state] finds. *)
Definition cancelled_at_read (w : @world S) (k : nat) : bool :=
  match cancel_at w with
  | Some n => bool_decide (n ≤ k)%nat
  | None => bool_decide (_hole_detection_state w = CANCELLED)
  end.

(** Every image shows a hole that is farther than [ERR_MARGIN] from the
    centre. *)
Definition never_centred (w : @world S) : Prop :=
  ∀ n, ∃ tab, hole_offset (images w n) = Some tab ∧ close_enough tab = false.

(** Nobody cancels. *)
Definition never_cancelled (w : @world S) : Prop :=
  cancel_at w = None ∧ _hole_detection_state w ≠ CANCELLED.

(** The table behind [EXPECTED_HOLES] has both coordinates of a hole. *)
Definition has_entry (o : store) (hole : nat) : Prop :=
  is_Some (read_hole EXPECTED_HOLES hole "x" o)
  ∧ is_Some (read_hole EXPECTED_HOLES hole "y" o).

End Runs.

(** A world in which the stage never gets the hole to the centre. *)
Definition stuck_world : @world (Q * Q) :=
  {| objects := configured_holes; sem_stage := (0, 0);
     escan := {| scale := (1, 1); resolution := (256, 256)%nat;
                 resolution_max := (2048, 2048)%nat; dwellTime := 1 # 1000000;
                 horizontalFoV := 1 # 1000; accelVoltage := 10000 |};
     _hole_detection_state := RUNNING; cancel_at := None; reads := 0;
     images := λ _, img_off; taken := 0; trace := [] |}.

(** ** The conversion update *)

(** [estimateConversionTime]. *)
Definition estimateConversionTime (first_insertion : bool) : Q :=
  if first_insertion then 3 * 60 else 60.

(** What a run of the conversion update can raise: an exception of one
    of its sub-tasks, or [ZeroDivisionError] of its own divisions. *)
Inductive conv_exc :=
| Task (e : err)
| ZeroDivisionError.

Inductive conv_result (A : Type) :=
| Done (a : A)
| Raises (e : conv_exc).
Arguments Done {A} a.
Arguments Raises {A} e.

(** [a / b] on floats. *)
Definition fdiv (a b : Q) : conv_result Q :=
  if Qeq_bool b 0 then Raises ZeroDivisionError else Done (a / b).

(** [(t[0] / s[0], t[1] / s[1])], the first quotient taken first. *)
Definition div_pair (t s : Q * Q) : conv_result (Q * Q) :=
  match fdiv t.1 s.1 with
  | Raises e => Raises e
  | Done a =>
      match fdiv t.2 s.2 with
      | Raises e => Raises e
      | Done b => Done (a, b)
      end
  end.

(** The metadata of the combined stage. *)
Inductive metadata :=
| MD_ROTATION_COR (rotation : Q)
| MD_POS_COR (offset : Q * Q)
| MD_PIXEL_SIZE_COR (scaling : Q * Q).

Inductive conv_event :=
| StartHoleDetection
| StartAlignAndOffset (first_hole second_hole : Q * Q)
| StartRotationAndScaling (offset : Q * Q)
| ConvSetEndTime (delay : Q)        (* set_end_time(time.time() + delay) *)
| UpdateMetadata (md : metadata)
| DoneSet.                          (* future._done.set() *)

(** What the sub-tasks, which run in threads of their own, and
    [transform.CalculateTransform] answer; [conv_cancel_at] is the
    reading of [_conversion_update_state] from which on the canceller
    has flagged the task. *)
Record conv_env := {
  hole_detection_result   : result ((Q * Q) * (Q * Q));
  align_offset_result     : Q * Q → Q * Q → result (Q * Q);
  rotation_scaling_result : Q * Q → result (Q * (Q * Q));
  CalculateTransform      : list (Q * Q) → list (Q * Q)
                            → (Q * Q) * (Q * Q) * Q;
  conv_cancel_at          : option nat
}.

Record conv_state := {
  _conversion_update_state : fstate;
  conv_reads : nat;
  conv_trace : list conv_event
}.

Definition conv_log (evs : list conv_event) (st : conv_state) : conv_state :=
  {| _conversion_update_state := _conversion_update_state st;
     conv_reads := conv_reads st; conv_trace := conv_trace st ++ evs |}.

(** What the [k]-th reading of [_conversion_update_state] finds. *)
Definition conv_cancelled_at (env : conv_env) (st : conv_state) (k : nat)
  : bool :=
  match conv_cancel_at env with
  | Some n => bool_decide (n ≤ k)%nat
  | None => bool_decide (_conversion_update_state st = CANCELLED)
  end.

(** [future._conversion_update_state == CANCELLED]. *)
Definition conv_is_cancelled (env : conv_env) (st : conv_state)
  : bool * conv_state :=
  (conv_cancelled_at env st (conv_reads st),
   {| _conversion_update_state := _conversion_update_state st;
      conv_reads := Datatypes.S (conv_reads st);
      conv_trace := conv_trace st |}).

(** [CalculateExtraOffset]. *)
Definition CalculateExtraOffset (env : conv_env)
    (new_first_hole new_second_hole : Q * Q)
    (expected_first_hole expected_second_hole : Q * Q)
    (offset : Q * Q) (rotation : Q) (scaling : Q * Q)
  : conv_result ((Q * Q) * Q) :=
  let '(e_offset, unused, e_rotation) :=
    CalculateTransform env [new_first_hole; new_second_hole]
                       [expected_first_hole; expected_second_hole] in
  match div_pair e_offset scaling with
  | Raises e => Raises e
  | Done e_offset =>
      let updated_offset := (offset.1 + e_offset.1, offset.2 + e_offset.2) in
      let updated_rotation := rotation + e_rotation in
      Done (updated_offset, updated_rotation)
  end.

(** The values a run returns: the holes, the offset, the rotation and
    the scaling. *)
Definition conversion : Type := (Q * Q) * (Q * Q) * (Q * Q) * Q * (Q * Q).

(** A sub-task's exception as [_DoUpdateConversion] passes it on:
    [IOError] is raised again as [IOError], the others go through. *)
Definition pass_on {A} (e : err) : conv_result A := Raises (Task e).

(** The [try] block of [_DoUpdateConversion]. *)
Definition conversion_body (env : conv_env) (first_insertion : bool)
    (known_first_hole known_second_hole known_offset : Q * Q)
    (known_rotation : Q) (known_scaling : Q * Q) (st : conv_state)
  : conv_result conversion * conv_state :=
  let '(c, st) := conv_is_cancelled env st in
  if c then (Raises (Task Cancelled), st)
  else
    let st := conv_log [StartHoleDetection] st in
    match hole_detection_result env with
    | Exc e => (pass_on e, st)
    | Ret (first_hole, second_hole) =>
        if first_insertion then
          let '(c, st) := conv_is_cancelled env st in
          if c then (Raises (Task Cancelled), st)
          else
            let st := conv_log
                        [ConvSetEndTime
                           (estimateConversionTime first_insertion * (2 / 3));
                         StartAlignAndOffset first_hole second_hole] st in
            match align_offset_result env first_hole second_hole with
            | Exc e => (pass_on e, st)
            | Ret offset =>
                let '(c, st) := conv_is_cancelled env st in
                if c then (Raises (Task Cancelled), st)
                else
                  let st := conv_log
                              [ConvSetEndTime
                                 (estimateConversionTime first_insertion
                                  * (1 / 3));
                               StartRotationAndScaling offset] st in
                  match rotation_scaling_result env offset with
                  | Exc e => (pass_on e, st)
                  | Ret (rotation, scaling) =>
                      match div_pair offset scaling with
                      | Raises e => (Raises e, st)
                      | Done offset =>
                          (Done (first_hole, second_hole, offset, rotation,
                                 scaling), st)
                      end
                  end
            end
        else
          let '(c, st) := conv_is_cancelled env st in
          if c then (Raises (Task Cancelled), st)
          else
            let st := conv_log [ConvSetEndTime 1] st in
            match CalculateExtraOffset env first_hole second_hole
                    known_first_hole known_second_hole known_offset
                    known_rotation known_scaling with
            | Raises e => (Raises e, st)
            | Done (updated_offset, updated_rotation) =>
                let st := conv_log
                            [UpdateMetadata (MD_ROTATION_COR updated_rotation);
                             UpdateMetadata (MD_POS_COR updated_offset);
                             UpdateMetadata (MD_PIXEL_SIZE_COR known_scaling)]
                            st in
                (Done (first_hole, second_hole, updated_offset,
                       updated_rotation, known_scaling), st)
            end
    end.

(** [_DoUpdateConversion]: the body and the [finally] clause. *)
Definition _DoUpdateConversion (env : conv_env) (first_insertion : bool)
    (known_first_hole known_second_hole known_offset : Q * Q)
    (known_rotation : Q) (known_scaling : Q * Q) (st : conv_state)
  : conv_result conversion * conv_state :=
  let '(r, st) := conversion_body env first_insertion known_first_hole
                    known_second_hole known_offset known_rotation
                    known_scaling st in
  let st := conv_log [DoneSet] st in
  let '(c, st) := conv_is_cancelled env st in
  if c then (Raises (Task Cancelled), st)
  else (r, {| _conversion_update_state := FINISHED;
              conv_reads := conv_reads st; conv_trace := conv_trace st |}).

(** The metadata updates of a trace, in order. *)
Definition metadata_updates (tr : list conv_event) : list metadata :=
  omap (λ ev, match ev with UpdateMetadata md => Some md | _ => None end) tr.

(** The sub-tasks started, in order. *)
Definition is_start (ev : conv_event) : bool :=
  match ev with
  | StartHoleDetection | StartAlignAndOffset _ _
  | StartRotationAndScaling _ => true
  | _ => false
  end.

(** The times [future._done] is set. *)
Definition done_signals (tr : list conv_event) : list unit :=
  omap (λ ev, match ev with DoneSet => Some tt | _ => None end) tr.

(** The sub-tasks started, in order. *)
Definition starts (tr : list conv_event) : list conv_event :=
  omap (λ ev, if is_start ev then Some ev else None) tr.

(** What a run added to the trace. *)
Definition conv_new (st st' : conv_state) : list conv_event :=
  drop (length (conv_trace st)) (conv_trace st').


(** Closes the invariant of the [try] block at one of its exits. *)
Ltac conv_exit :=
  cbn; (split; [done|]); (split; [lia|]); eexists;
  (split; [rewrite <- ?(assoc_L (++));
           first [reflexivity | symmetry; apply app_nil_r]|]);
  repeat split; try done;
  try (intros _; cbn; first [apply prefix_nil | done]).

(** A first insertion and a later one that go well. *)
Definition fresh_conv : conv_state :=
  {| _conversion_update_state := RUNNING; conv_reads := 0; conv_trace := [] |}.

Definition demo_conv_env : conv_env :=
  {| hole_detection_result := Ret ((0, 11 # 1000), (0, - (11 # 1000)));
     align_offset_result := λ _ _, Ret (2 # 1000, 4 # 1000);
     rotation_scaling_result := λ _, Ret (1 # 100, (2, 2));
     CalculateTransform := λ _ _, ((1 # 1000, 0), (1, 1), 1 # 100);
     conv_cancel_at := None |}.


End DelphiMore.

(* ===================================================================== *)
(** * Properties of the acquisition thread                                *)
(* ===================================================================== *)

Module PVCamFacts.

Import PVCam.

Lemma deliveries_app (a b : list event) :
  deliveries (a ++ b) = deliveries a + deliveries b.
Proof. unfold deliveries. by rewrite filter_app, length_app. Qed.

Lemma deliveries_cons (ev : event) (l : list event) :
  deliveries (ev :: l) = (if bool_decide (ev = Callback) then 1 else 0) + deliveries l.
Proof.
  unfold deliveries. rewrite filter_cons.
  case_bool_decide; destruct (decide (ev = Callback)); simpl; congruence.
Qed.

Lemma run_calls_no_fault (plan : list setup_call) :
  run_calls plan None = (Call <$> plan, false).
Proof.
  induction plan as [|c plan IH]; simpl; [done|].
  by rewrite IH.
Qed.

Lemma deliveries_calls (plan : list setup_call) :
  deliveries (Call <$> plan) = 0.
Proof. induction plan as [|c plan IH]; [done|]. simpl. by rewrite deliveries_cons. Qed.

Lemma poll_no_delivery (tk : list (bool * hw status)) (s : status) :
  deliveries (poll s tk).1 = 0.
Proof.
  revert s. induction tk as [|[b r] tk IH]; intros s; simpl.
  - by destruct (in_progress s).
  - destruct (in_progress s); [|done].
    destruct b; [done|]. destruct r as [s'|]; [|done].
    specialize (IH s'). destruct (poll s' tk) as [evs res]. simpl in *.
    by rewrite !deliveries_cons, IH.
Qed.

(** Re-arming with no faulty call: it succeeds, touches neither the retry
    counter nor the callback, and leaves a buffer behind. *)
Lemma rearm_no_fault (st : loop_state) (e : iter_env) :
  setup_fault e = None →
  ∃ evs, rearm st e =
           (evs, {| need_reinit := false; retries := retries st;
                    cbuffer := _allocate_buffer (blength e) |}, false)
         ∧ deliveries evs = 0 ∧ stop_free evs = true.
Proof.
  intros Hf. unfold rearm. rewrite Hf, !run_calls_no_fault. simpl.
  eexists. split; [reflexivity|].
  destruct (pre_status e) as [s|]; [destruct (in_progress s), (pre_abort_ok e)|];
    destruct (truthy (cbuffer st)), (cam_gone e); done.
Qed.

Lemma on_fault_no_delivery (st : loop_state) :
  deliveries (on_fault st).1.1 = 0.
Proof. unfold on_fault. by case_bool_decide. Qed.

Lemma reaches_poll_true (e : iter_env) :
  reaches_poll e = true →
  stop_at_head e = false ∧ setup_fault e = None ∧ start_ok e = true
  ∧ stop_in_sleep e = false.
Proof. unfold reaches_poll. intros. by split_bools. Qed.

(** The exposure part of a faulty turn ends in the handler. *)
Lemma expose_fault (st : loop_state) (e : iter_env) :
  transient_fault e = true →
  ∃ head, deliveries head = 0
          ∧ expose st e = (head ++ (on_fault st).1.1, (on_fault st).1.2,
                           (on_fault st).2).
Proof.
  unfold transient_fault. intros Hf. apply andb_true_iff in Hf as [Hr Hp].
  apply reaches_poll_true in Hr as (_ & _ & Hstart & Hsleep).
  unfold poll_phase in Hp. unfold expose. rewrite Hstart, Hsleep. simpl.
  destruct (on_fault st) as [[fevs fst'] ffl] eqn:Hof. simpl.
  destruct (first_status e) as [s|].
  - pose proof (poll_no_delivery (ticks e) s) as Hd.
    destruct (poll s (ticks e)) as [pevs res]. simpl in *.
    destruct res as [s'| | |]; try done.
    + apply negb_true_iff in Hp. rewrite Hp.
      exists ([StartSeq; Wait80 false; CheckStatus (Ok s)] ++ pevs).
      split; [|reflexivity]. by rewrite deliveries_app, Hd.
    + exists ([StartSeq; Wait80 false; CheckStatus (Ok s)] ++ pevs).
      split; [|reflexivity]. by rewrite deliveries_app, Hd.
    + exists ([StartSeq; Wait80 false; CheckStatus (Ok s)] ++ pevs).
      split; [|reflexivity]. by rewrite deliveries_app, Hd.
  - by exists [StartSeq; Wait80 false; CheckStatus PVCamError].
Qed.

(** The exposure part of a successful turn delivers one frame, last, and
    clears the retry counter. *)
Lemma expose_success (st : loop_state) (e : iter_env) :
  success e = true →
  ∃ head, deliveries head = 0
          ∧ expose st e =
              (head ++ [Callback],
               {| need_reinit := need_reinit st; retries := 0;
                  cbuffer := cbuffer st |}, Continue).
Proof.
  unfold success. intros Hs. apply andb_true_iff in Hs as [Hs Hcb].
  apply andb_true_iff in Hs as [Hr Hp].
  apply reaches_poll_true in Hr as (_ & _ & Hstart & Hsleep).
  unfold poll_phase in Hp. unfold expose. rewrite Hstart, Hsleep, Hcb. simpl.
  destruct (first_status e) as [s|]; [|done].
  pose proof (poll_no_delivery (ticks e) s) as Hd.
  destruct (poll s (ticks e)) as [pevs res]. simpl in *.
  destruct res as [s'| | |]; try done.
  rewrite Hp. exists ([StartSeq; Wait80 false; CheckStatus (Ok s)] ++ pevs).
  split; [|reflexivity]. by rewrite deliveries_app, Hd.
Qed.

Lemma fault_setup (e : iter_env) :
  transient_fault e = true → stop_at_head e = false ∧ setup_fault e = None.
Proof.
  unfold transient_fault. intros Hf. apply andb_true_iff in Hf as [Hr _].
  apply reaches_poll_true in Hr. tauto.
Qed.

Lemma success_setup (e : iter_env) :
  success e = true → stop_at_head e = false ∧ setup_fault e = None.
Proof.
  unfold success. intros Hs. apply andb_true_iff in Hs as [Hs _].
  apply andb_true_iff in Hs as [Hr _]. apply reaches_poll_true in Hr. tauto.
Qed.

(** A faulty turn below the bound: retried, counter up by one. *)
Lemma turn_fault_retry (st : loop_state) (e : iter_env) :
  transient_fault e = true → retries st ≤ 5 →
  ∃ evs st', turn st e = (evs, st', Continue) ∧ deliveries evs = 0
             ∧ retries st' = Datatypes.S (retries st).
Proof.
  intros Hf Hr. destruct (fault_setup e Hf) as [Hh Hs].
  unfold turn. rewrite Hh.
  assert (Hof : ∀ st1, retries st1 = retries st →
            on_fault st1 = ([LogRetry; Abort; Sleep100ms],
                            {| need_reinit := true;
                               retries := Datatypes.S (retries st1);
                               cbuffer := cbuffer st1 |}, Continue)).
  { intros st1 E. unfold on_fault. rewrite E. case_bool_decide; [lia|done]. }
  destruct (need_reinit st || need_update e).
  - destruct (rearm_no_fault st e Hs) as (evs & -> & Hd & _).
    destruct (expose_fault {| need_reinit := false; retries := retries st;
        cbuffer := _allocate_buffer (blength e) |} e Hf) as (head & Hd' & ->).
    rewrite Hof by done. simpl. do 2 eexists. split; [reflexivity|].
    split; [|done]. by rewrite !deliveries_app, Hd, Hd'.
  - destruct (expose_fault st e Hf) as (head & Hd' & ->).
    rewrite Hof by done. simpl. do 2 eexists. split; [reflexivity|].
    split; [|done]. by rewrite !deliveries_app, Hd'.
Qed.

(** A faulty turn with the counter above five: the error is raised again. *)
Lemma turn_fault_fatal (st : loop_state) (e : iter_env) :
  transient_fault e = true → 5 < retries st →
  ∃ evs st', turn st e = (evs, st', Raise) ∧ deliveries evs = 0.
Proof.
  intros Hf Hr. destruct (fault_setup e Hf) as [Hh Hs].
  unfold turn. rewrite Hh.
  assert (Hof : ∀ st1, retries st1 = retries st →
            on_fault st1 = ([LogTooMany], st1, Raise)).
  { intros st1 E. unfold on_fault. rewrite E. case_bool_decide; [done|lia]. }
  destruct (need_reinit st || need_update e).
  - destruct (rearm_no_fault st e Hs) as (evs & -> & Hd & _).
    destruct (expose_fault {| need_reinit := false; retries := retries st;
        cbuffer := _allocate_buffer (blength e) |} e Hf) as (head & Hd' & ->).
    rewrite Hof by done. simpl. do 2 eexists. split; [reflexivity|].
    by rewrite !deliveries_app, Hd, Hd'.
  - destruct (expose_fault st e Hf) as (head & Hd' & ->).
    rewrite Hof by done. simpl. do 2 eexists. split; [reflexivity|].
    by rewrite !deliveries_app, Hd'.
Qed.

(** A successful turn, whatever the counter was. *)
Lemma turn_success (st : loop_state) (e : iter_env) :
  success e = true →
  ∃ evs st', turn st e = (evs ++ [Callback], st', Continue)
             ∧ deliveries evs = 0 ∧ retries st' = 0.
Proof.
  intros Hg. destruct (success_setup e Hg) as [Hh Hs].
  unfold turn. rewrite Hh.
  destruct (need_reinit st || need_update e).
  - destruct (rearm_no_fault st e Hs) as (evs & -> & Hd & _).
    destruct (expose_success {| need_reinit := false; retries := retries st;
        cbuffer := _allocate_buffer (blength e) |} e Hg) as (head & Hd' & ->).
    exists (evs ++ head). eexists. rewrite <- (assoc_L (++)).
    split; [reflexivity|]. by rewrite deliveries_app, Hd, Hd'.
  - destruct (expose_success st e Hg) as (head & Hd' & ->).
    by do 2 eexists.
Qed.

(** Faults in a row, as long as the counter stays within six. *)
Lemma loop_faults (fs : list iter_env) (st : loop_state) :
  forallb transient_fault fs = true → retries st + length fs ≤ 6 →
  ∃ tr st', loop st fs = (tr, st', Running) ∧ deliveries tr = 0
            ∧ retries st' = retries st + length fs.
Proof.
  revert st. induction fs as [|f fs IH]; intros st Hf Hr; simpl in *.
  - exists [], st. by rewrite Nat.add_0_r.
  - split_bools.
    destruct (turn_fault_retry st f) as (evs & st1 & -> & Hd & Hr1); [done|lia|].
    destruct (IH st1) as (tr & st' & -> & Hd' & Hr'); [done|lia|].
    do 2 eexists. split; [reflexivity|].
    split; [by rewrite deliveries_app, Hd, Hd'|lia].
Qed.

(** The loop on a prefix that leaves it running, then on the rest. *)
Lemma loop_app (a b : list iter_env) (st st' : loop_state) (tr : list event) :
  loop st a = (tr, st', Running) →
  loop st (a ++ b) =
    (tr ++ (loop st' b).1.1, (loop st' b).1.2, (loop st' b).2).
Proof.
  revert st tr. induction a as [|e a IH]; intros st tr; simpl.
  - intros [= <- <-]. by destruct (loop st b) as [[??]?].
  - destruct (turn st e) as [[evs st1] fl]. destruct fl; try done.
    destruct (loop st1 a) as [[tr1 st2] out] eqn:Hl.
    intros [= <- <- ->]. rewrite (IH _ _ Hl).
    by rewrite (assoc_L (++)).
Qed.

(** Enough faults in a row to push the counter past five. *)
Lemma loop_faults_fatal (fs rest : list iter_env) (st : loop_state) :
  forallb transient_fault fs = true → 0 < length fs →
  7 ≤ retries st + length fs →
  ∃ tr st', loop st (fs ++ rest) = (tr, st', Fatal) ∧ deliveries tr = 0.
Proof.
  revert st. induction fs as [|f fs IH]; intros st Hf Hn Hr; simpl in *; [lia|].
  apply andb_true_iff in Hf as [Hf Hfs].
  destruct (decide (5 < retries st)) as [Hgt|Hle].
  - destruct (turn_fault_fatal st f Hf Hgt) as (evs & st1 & -> & Hd).
    by do 2 eexists.
  - destruct (turn_fault_retry st f) as (evs & st1 & -> & Hd & Hr1); [done|lia|].
    destruct (IH st1) as (tr & st' & -> & Hd'); [done|lia|lia|].
    do 2 eexists. split; [reflexivity|]. by rewrite deliveries_app, Hd, Hd'.
Qed.

Lemma forallb_take {A} (p : A → bool) (n : nat) (l : list A) :
  forallb p l = true → forallb p (take n l) = true.
Proof.
  revert n. induction l as [|x l IH]; intros [|n]; simpl; try done.
  intros H. apply andb_true_iff in H as [-> H]. by apply IH.
Qed.

Lemma teardown_no_delivery (cb : option nat) (t : teardown_env) :
  deliveries (teardown cb t) = 0.
Proof.
  unfold teardown.
  destruct (td_status t) as [s|]; [destruct (in_progress s), (td_abort_ok t)|];
    destruct (truthy cb), (td_finish_ok t), (td_uninit_ok t); done.
Qed.

(** C1, as the code has it: a delivered frame sets the retry counter to 0
    in any state, so up to six transient faults in a row followed by a
    success leave the thread running with the counter at 0 and the frame
    delivered last; the test [retries > 5] is made before the counter is
    incremented, so the first six faults in a row are all retried (the
    counter reaches 6, nothing is delivered) and the seventh is the one
    re-raised: the thread ends with a fatal error, runs its teardown and
    delivers no frame, whatever the hardware would have answered next. *)
Theorem seventh_fault_escalates
    (fs3 fs7 rest : list iter_env) (g : iter_env) (t : teardown_env) :
  forallb transient_fault fs3 = true → length fs3 ≤ 6 →
  forallb transient_fault fs7 = true → length fs7 = 7 →
  success g = true →
  (∀ st, (turn st g).2 = Continue ∧ retries (turn st g).1.2 = 0
         ∧ deliveries (turn st g).1.1 = 1)
  ∧ (∃ tr st, _acquire_thread_run (fs3 ++ [g]) t = (tr, st, Running)
              ∧ retries st = 0 ∧ deliveries tr = 1
              ∧ last tr = Some Callback)
  ∧ (∃ tr st, _acquire_thread_run (take 6 fs7) t = (tr, st, Running)
              ∧ retries st = 6 ∧ deliveries tr = 0)
  ∧ (∃ tr st, _acquire_thread_run (fs7 ++ rest) t =
                (tr ++ [LogUnexpected] ++ teardown (cbuffer st) t, st, Fatal)
              ∧ deliveries (tr ++ [LogUnexpected] ++ teardown (cbuffer st) t) = 0).
Proof.
  intros Hf3 Hn3 Hf7 Hn7 Hg. repeat split.
  - by destruct (turn_success st g Hg) as (evs & st' & -> & _).
  - by destruct (turn_success st g Hg) as (evs & st' & -> & _ & ?).
  - destruct (turn_success st g Hg) as (evs & st' & -> & Hd & _). simpl.
    by rewrite deliveries_app, Hd.
  - destruct (loop_faults fs3 init_state Hf3) as (tr & st1 & Hl & Hd & _);
      [simpl; lia|].
    destruct (turn_success st1 g Hg) as (evs & st2 & Ht & Hd2 & Hr2).
    unfold _acquire_thread_run. rewrite (loop_app _ _ _ _ _ Hl). simpl.
    rewrite Ht. simpl. exists (tr ++ (evs ++ [Callback]) ++ []), st2.
    split; [done|]. split; [done|]. rewrite (right_id_L [] (++)).
    split; [by rewrite !deliveries_app, Hd, Hd2|].
    by rewrite (assoc_L (++)), last_snoc.
  - destruct (loop_faults (take 6 fs7) init_state) as (tr & st1 & Hl & Hd & Hr).
    { by apply forallb_take. }
    { rewrite length_take. cbn [init_state retries]. lia. }
    unfold _acquire_thread_run. rewrite Hl. exists tr, st1.
    split; [done|]. split; [|done].
    rewrite Hr, length_take. cbn [init_state retries]. lia.
  - destruct (loop_faults_fatal fs7 rest init_state Hf7) as (tr & st1 & Hl & Hd);
      [lia|simpl; lia|].
    unfold _acquire_thread_run. rewrite Hl. exists tr, st1. split; [done|].
    by rewrite !deliveries_app, Hd, teardown_no_delivery.
Qed.

Lemma seventh_fault_escalates_witness :
  (∀ st, (turn st good_turn).2 = Continue
         ∧ retries (turn st good_turn).1.2 = 0
         ∧ deliveries (turn st good_turn).1.1 = 1)
  ∧ (∃ tr st, _acquire_thread_run (replicate 3 timeout_turn ++ [good_turn])
                quiet_teardown = (tr, st, Running)
              ∧ retries st = 0 ∧ deliveries tr = 1
              ∧ last tr = Some Callback)
  ∧ (∃ tr st, _acquire_thread_run (take 6 (replicate 7 timeout_turn))
                quiet_teardown = (tr, st, Running)
              ∧ retries st = 6 ∧ deliveries tr = 0)
  ∧ (∃ tr st, _acquire_thread_run (replicate 7 timeout_turn ++ [good_turn])
                quiet_teardown =
                (tr ++ [LogUnexpected] ++ teardown (cbuffer st) quiet_teardown,
                 st, Fatal)
              ∧ deliveries (tr ++ [LogUnexpected]
                            ++ teardown (cbuffer st) quiet_teardown) = 0).
Proof.
  apply (seventh_fault_escalates (replicate 3 timeout_turn)
           (replicate 7 timeout_turn) [good_turn] good_turn quiet_teardown).
  - reflexivity.
  - simpl. lia.
  - reflexivity.
  - reflexivity.
  - reflexivity.
Defined.

(** C1 as the specification words it fails: after six transient faults
    in a row the thread is still running, not ended by a fatal error. *)
Lemma six_faults_do_not_escalate : ¬ six_faults_escalate.
Proof.
  intros H.
  specialize (H (replicate 6 timeout_turn) quiet_teardown eq_refl eq_refl).
  vm_compute in H. discriminate H.
Qed.

(** After six faults the next good frame is still delivered. *)
Example six_faults_then_frame :
  let '(tr, st, out) :=
    _acquire_thread_run (replicate 6 timeout_turn ++ [good_turn])
                        quiet_teardown in
  out = Running ∧ retries st = 0 ∧ deliveries tr = 1.
Proof. vm_compute. done. Qed.

(** ** Stop requests *)

Lemma stop_free_app (a b : list event) :
  stop_free (a ++ b) = stop_free a && stop_free b.
Proof. apply forallb_app. Qed.

Lemma stop_free_no_split (l pre post : list event) (w : event) :
  stop_free l = true → l = pre ++ w :: post → stop_observed w = true → False.
Proof.
  intros Hl -> Hw. rewrite stop_free_app in Hl. simpl in Hl.
  rewrite Hw in Hl. simpl in Hl. by rewrite andb_false_r in Hl.
Qed.

Lemma stop_split (a b pre post : list event) (x w : event) :
  stop_free a = true → stop_free b = true → stop_observed w = true →
  a ++ x :: b = pre ++ w :: post → post = b.
Proof.
  revert pre. induction a as [|y a IH]; intros pre Ha Hb Hw E.
  - destruct pre as [|p pre]; simpl in E.
    + by injection E as _ ->.
    + injection E as _ E. by destruct (stop_free_no_split b pre post w).
  - destruct pre as [|p pre]; simpl in E.
    + injection E as -> _. simpl in Ha. by rewrite Hw in Ha.
    + injection E as _ E. simpl in Ha. apply andb_true_iff in Ha as [_ Ha].
      by apply (IH pre).
Qed.

Lemma poll_stop (tk : list (bool * hw status)) (s : status) :
  match (poll s tk).2 with
  | PollStop => ends_with_stop (poll s tk).1
  | _ => stop_free (poll s tk).1 = true
  end.
Proof.
  revert s. induction tk as [|[b r] tk IH]; intros s; simpl.
  - by destruct (in_progress s).
  - destruct (in_progress s); [|done].
    destruct b; [by exists [], (Wait10ms true)|].
    destruct r as [s'|]; [|done].
    specialize (IH s'). destruct (poll s' tk) as [evs res]. simpl in *.
    destruct res; try done.
    destruct IH as (pre & w & -> & Hp & Hw).
    by exists (Wait10ms false :: CheckStatus (Ok s') :: pre), w.
Qed.

Lemma on_fault_stop_free (st : loop_state) : stop_free (on_fault st).1.1 = true.
Proof. unfold on_fault. by case_bool_decide. Qed.

(** The exposure part of a turn sees no stop request, or ends on it with
    a [break] and the locals as they were. *)
Lemma expose_stop (st : loop_state) (e : iter_env) :
  stop_free (expose st e).1.1 = true
  ∨ (ends_with_stop (expose st e).1.1 ∧ (expose st e).2 = Break
     ∧ (expose st e).1.2 = st).
Proof.
  unfold expose. destruct (start_ok e); simpl; [|by left].
  destruct (stop_in_sleep e).
  { right. split; [|done]. by exists [StartSeq], (Wait80 true). }
  pose proof (on_fault_stop_free st) as Hof.
  destruct (on_fault st) as [[fevs fst'] ffl]. simpl in Hof.
  destruct (first_status e) as [s|]; [|by left].
  pose proof (poll_stop (ticks e) s) as Hp.
  destruct (poll s (ticks e)) as [pevs res]. simpl in Hp.
  destruct res as [s'| | |]; simpl.
  - case_bool_decide; simpl; left.
    + by rewrite (stop_free_app pevs [Callback]), Hp.
    + by rewrite stop_free_app, Hp, Hof.
  - right. split; [|done]. destruct Hp as (pre & w & -> & Hpre & Hw).
    by exists (StartSeq :: Wait80 false :: CheckStatus (Ok s) :: pre), w.
  - left. by rewrite stop_free_app, Hp, Hof.
  - left. by rewrite stop_free_app, Hp, Hof.
Qed.

Lemma run_calls_stop_free (plan : list setup_call) (f : option setup_call) :
  stop_free (run_calls plan f).1 = true.
Proof.
  induction plan as [|c plan IH]; simpl; [done|].
  case_bool_decide; [done|]. by destruct (run_calls plan f).
Qed.

Lemma rearm_stop_free (st : loop_state) (e : iter_env) :
  stop_free (rearm st e).1.1 = true.
Proof.
  unfold rearm.
  set (plan := (if truthy (cbuffer st) then _ else _) ++ _).
  pose proof (run_calls_stop_free plan (setup_fault e)) as H1.
  pose proof (run_calls_stop_free [GetReadout] (setup_fault e)) as H2.
  destruct (run_calls plan (setup_fault e)) as [evs1 r1].
  destruct (run_calls [GetReadout] (setup_fault e)) as [evs2 r2].
  simpl in H1, H2.
  assert (Hpre : stop_free
            match pre_status e with
            | Ok s => if in_progress s
                      then if pre_abort_ok e
                           then [CheckStatus (Ok s); Abort; Sleep100ms]
                           else [CheckStatus (Ok s); Abort]
                      else [CheckStatus (Ok s)]
            | PVCamError => [CheckStatus PVCamError]
            end = true).
  { destruct (pre_status e) as [s|]; [|done].
    by destruct (in_progress s), (pre_abort_ok e). }
  destruct r1; simpl; [by rewrite stop_free_app, Hpre, H1|].
  destruct r2; simpl; rewrite !stop_free_app, Hpre, H1; simpl; by rewrite H2.
Qed.

Lemma turn_stop (st : loop_state) (e : iter_env) :
  stop_free (turn st e).1.1 = true
  ∨ (ends_with_stop (turn st e).1.1 ∧ (turn st e).2 = Break).
Proof.
  unfold turn. destruct (stop_at_head e); [by left|].
  destruct (need_reinit st || need_update e).
  - pose proof (rearm_stop_free st e) as Hr.
    destruct (rearm st e) as [[evs st1] raised]. simpl in Hr.
    destruct raised; [by left|].
    destruct (expose_stop st1 e) as [Hs|(Hs & Hb & _)];
      destruct (expose st1 e) as [[evs2 st2] fl]; simpl in *.
    + left. by rewrite stop_free_app, Hr, Hs.
    + right. split; [|done]. destruct Hs as (pre & w & -> & Hpre & Hw).
      exists (evs ++ pre), w. rewrite (assoc_L (++)). split; [done|].
      by rewrite stop_free_app, Hr, Hpre.
  - destruct (expose_stop st e) as [Hs|(Hs & Hb & _)]; [by left|by right].
Qed.

Lemma loop_stop (envs : list iter_env) (st : loop_state) :
  stop_free (loop st envs).1.1 = true
  ∨ (ends_with_stop (loop st envs).1.1 ∧ (loop st envs).2 = Stopped).
Proof.
  revert st. induction envs as [|e envs IH]; intros st; simpl; [by left|].
  destruct (turn_stop st e) as [Hs|(Hs & Hb)];
    destruct (turn st e) as [[evs st1] fl]; simpl in *.
  - destruct fl; try by left.
    destruct (IH st1) as [Hs'|(Hs' & Ho)];
      destruct (loop st1 envs) as [[tr st2] out]; simpl in *.
    + left. by rewrite stop_free_app, Hs, Hs'.
    + right. split; [|done]. destruct Hs' as (pre & w & -> & Hpre & Hw).
      exists (evs ++ pre), w. rewrite (assoc_L (++)). split; [done|].
      by rewrite stop_free_app, Hs, Hpre.
  - subst fl. by right.
Qed.

Lemma teardown_stop_free (cb : option nat) (t : teardown_env) :
  stop_free (teardown cb t) = true.
Proof.
  unfold teardown.
  destruct (td_status t) as [s|]; [destruct (in_progress s), (td_abort_ok t)|];
    destruct (truthy cb), (td_finish_ok t), (td_uninit_ok t); done.
Qed.

(** What the [finally] block always, and what it conditionally, does. *)
Lemma teardown_calls (cb : option nat) (t : teardown_env) :
  Call UninitSeq ∈ teardown cb t
  ∧ (Abort ∈ teardown cb t ↔ ∃ s, td_status t = Ok s ∧ in_progress s = true)
  ∧ (Call FinishSeq ∈ teardown cb t ↔ truthy cb = true).
Proof.
  unfold teardown.
  destruct (td_status t) as [s|];
    [destruct (in_progress s) eqn:Ei, (td_abort_ok t)|];
    destruct (truthy cb), (td_finish_ok t), (td_uninit_ok t); simpl;
    rewrite !list_elem_of_In; simpl;
    (split; [tauto|]); split; split;
    try (intros; repeat match goal with
                        | H : _ ∨ _ |- _ => destruct H
                        | H : ∃ _, _ |- _ => destruct H as (? & ? & ?)
                        end; congruence || tauto || eauto).
Qed.

(** C8, as the code has it: once a wait on the stop flag returns true
    (the 80% sleep or a 10 ms wait of the polling loop), the thread has
    left the loop and everything it still does is the [finally] block on
    the buffer in hand: it reads the exposure status and aborts only when
    that status is one of the in-progress codes, calls
    [pl_exp_finish_seq] when the buffer is non-empty, always calls
    [pl_exp_uninit_seq], and never calls the callback again. *)
Theorem stop_then_teardown (envs : list iter_env) (t : teardown_env)
    (pre post : list event) (w : event) :
  (_acquire_thread_run envs t).1.1 = pre ++ w :: post →
  stop_observed w = true →
  (_acquire_thread_run envs t).2 = Stopped
  ∧ post = teardown (cbuffer (_acquire_thread_run envs t).1.2) t
  ∧ deliveries post = 0
  ∧ Call UninitSeq ∈ post
  ∧ (Abort ∈ post ↔ ∃ s, td_status t = Ok s ∧ in_progress s = true)
  ∧ (Call FinishSeq ∈ post
     ↔ truthy (cbuffer (_acquire_thread_run envs t).1.2) = true).
Proof.
  unfold _acquire_thread_run.
  destruct (loop_stop envs init_state) as [Hs|(Hs & Ho)];
    destruct (loop init_state envs) as [[tr st] out]; simpl in *.
  - intros E Hw. exfalso.
    assert (Hall : stop_free (pre ++ w :: post) = true).
    { rewrite <- E. destruct out; simpl; [done| |].
      - by rewrite stop_free_app, Hs, teardown_stop_free.
      - rewrite stop_free_app, Hs. simpl. by rewrite teardown_stop_free. }
    by apply (stop_free_no_split _ pre post w Hall).
  - subst out. simpl. destruct Hs as (pre0 & w0 & -> & Hpre & Hw0).
    rewrite <- (assoc_L (++)). simpl. intros E Hw.
    assert (post = teardown (cbuffer st) t) as ->.
    { eapply stop_split; [exact Hpre|apply teardown_stop_free|exact Hw|exact E]. }
    split; [done|]. split; [done|]. split; [apply teardown_no_delivery|].
    apply teardown_calls.
Qed.

Lemma stop_then_teardown_witness :
  (_acquire_thread_run [good_turn; stop_poll_turn; good_turn] busy_teardown).2
    = Stopped
  ∧ [CheckStatus (Ok EXPOSURE_IN_PROGRESS); Abort; Call FinishSeq;
     Call UninitSeq; LockRelease; StopClear]
    = teardown (cbuffer (_acquire_thread_run
                           [good_turn; stop_poll_turn; good_turn]
                           busy_teardown).1.2) busy_teardown
  ∧ deliveries [CheckStatus (Ok EXPOSURE_IN_PROGRESS); Abort; Call FinishSeq;
                Call UninitSeq; LockRelease; StopClear] = 0
  ∧ Call UninitSeq ∈ [CheckStatus (Ok EXPOSURE_IN_PROGRESS); Abort;
                      Call FinishSeq; Call UninitSeq; LockRelease; StopClear]
  ∧ (Abort ∈ [CheckStatus (Ok EXPOSURE_IN_PROGRESS); Abort; Call FinishSeq;
              Call UninitSeq; LockRelease; StopClear]
     ↔ ∃ s, td_status busy_teardown = Ok s ∧ in_progress s = true)
  ∧ (Call FinishSeq ∈ [CheckStatus (Ok EXPOSURE_IN_PROGRESS); Abort;
                       Call FinishSeq; Call UninitSeq; LockRelease; StopClear]
     ↔ truthy (cbuffer (_acquire_thread_run
                          [good_turn; stop_poll_turn; good_turn]
                          busy_teardown).1.2) = true).
Proof.
  apply (stop_then_teardown [good_turn; stop_poll_turn; good_turn]
           busy_teardown
           [CheckStatus (Ok READOUT_NOT_ACTIVE); Call GetTemp;
            Call UpdateSettings; Call InitSeq; Call SetupSeq;
            AllocateBuffer 2048; Call GetReadout; StartSeq; Wait80 false;
            CheckStatus (Ok READOUT_IN_PROGRESS); Wait10ms false;
            CheckStatus (Ok READOUT_COMPLETE); Callback; StartSeq;
            Wait80 false; CheckStatus (Ok EXPOSURE_IN_PROGRESS);
            Wait10ms false; CheckStatus (Ok READOUT_IN_PROGRESS)]
           _ (Wait10ms true)).
  - reflexivity.
  - reflexivity.
Defined.

(** C8 as the specification words it fails: a stop request seen during
    the sleep, with the exposure no longer in progress when the [finally]
    block reads the status, is followed by no abort. *)
Lemma stop_without_abort :
  ¬ stop_aborts_and_releases [stop_sleep_turn] quiet_teardown.
Proof.
  intros H.
  destruct (H [CheckStatus (Ok READOUT_NOT_ACTIVE); Call GetTemp;
               Call UpdateSettings; Call InitSeq; Call SetupSeq;
               AllocateBuffer 2048; Call GetReadout; StartSeq]
              (Wait80 true)
              [CheckStatus (Ok READOUT_NOT_ACTIVE); Call FinishSeq;
               Call UninitSeq; LockRelease; StopClear]
              eq_refl eq_refl) as [Habort _].
  apply list_elem_of_In in Habort. simpl in Habort.
  repeat destruct Habort as [Habort|Habort]; done.
Qed.

End PVCamFacts.

(* ===================================================================== *)
(** * Properties of the progressive future                                *)
(* ===================================================================== *)

Module FutureFacts.

Import AcqMng.
Local Open Scope Q_scope.

Section Generic.
Context {T V : Type}.
Implicit Types (s : sys T V) (f : ProgressiveFuture T V).

Lemma for_each_report (fns : list nat) s :
  for_each fns _report_update s =
    (tt, {| fut := fut s; task := task s; clock := clock s;
            tick := tick s + length fns;
            reports := reports s ++ reports_for (fut s) (clock s) (tick s) fns;
            done_log := done_log s |}).
Proof.
  revert s. induction fns as [|fn fns IH]; intros s.
  - destruct s. simpl. unfold ret. do 2 f_equal; [lia|by rewrite app_nil_r].
  - simpl. unfold bind at 1. unfold _report_update at 1.
    unfold bind, time_time, get_fut, emit. simpl.
    destruct (progress (fut s) (clock s (tick s))) as [past left_] eqn:Hp.
    rewrite IH. simpl. do 2 f_equal; [lia|].
    rewrite <- (assoc_L (++)). simpl. unfold report_of. by rewrite Hp.
Qed.

Lemma invoke_upd_eq s : _invoke_upd_callbacks s = (tt, after_upd s).
Proof.
  unfold _invoke_upd_callbacks, bind, get_fut. by rewrite for_each_report.
Qed.

Lemma for_each_done (cbs : list nat) s :
  for_each cbs emit_done s =
    (tt, {| fut := fut s; task := task s; clock := clock s; tick := tick s;
            reports := reports s; done_log := done_log s ++ cbs |}).
Proof.
  revert s. induction cbs as [|cb cbs IH]; intros s.
  - destruct s. simpl. unfold ret. by rewrite app_nil_r.
  - simpl. unfold bind at 1. unfold emit_done at 1. rewrite IH. simpl.
    by rewrite <- (assoc_L (++)).
Qed.

Lemma invoke_done_eq s :
  _invoke_callbacks s =
    (tt, {| fut := fut s; task := task s; clock := clock s; tick := tick s;
            reports := reports s;
            done_log := done_log s ++ _done_callbacks (fut s) |}).
Proof.
  unfold _invoke_callbacks, bind, get_fut. by rewrite for_each_done.
Qed.

Lemma set_end_time_eq (val : Q) s :
  set_end_time val s =
    (tt, after_upd {| fut := with_end val (fut s); task := task s;
                      clock := clock s; tick := tick s;
                      reports := reports s; done_log := done_log s |}).
Proof.
  unfold set_end_time, bind, get_fut, put_fut. by rewrite invoke_upd_eq.
Qed.

Lemma clamp_left_nonneg (x : Q) : 0 <= clamp_left x.
Proof.
  unfold clamp_left. destruct (Qle_bool 0 x) eqn:E.
  - by apply Qle_bool_iff.
  - apply Qle_refl.
Qed.

Lemma progress_left_nonneg f (now : Q) : 0 <= (progress f now).2.
Proof.
  unfold progress.
  destruct (_state f); simpl; try apply clamp_left_nonneg; apply Qle_refl.
Qed.

Lemma reports_for_left f (clk : nat → Q) (t0 : nat) (fns : list nat) :
  Forall (λ r, 0 <= rp_left r) (reports_for f clk t0 fns).
Proof.
  revert t0. induction fns as [|fn fns IH]; intros t0; simpl; constructor.
  - apply progress_left_nonneg.
  - apply IH.
Qed.

Lemma reports_for_state f (clk : nat → Q) (t0 : nat) (fns : list nat) :
  Forall (λ r, rp_state r = _state f) (reports_for f clk t0 fns).
Proof.
  revert t0. induction fns as [|fn fns IH]; intros t0; simpl; constructor;
    [done|apply IH].
Qed.

Lemma reports_for_cancelled f (clk : nat → Q) (t0 : nat) (fns : list nat) :
  _state f = CANCELLED →
  reports_for f clk t0 fns =
    (λ fn, {| rp_callback := fn; rp_state := CANCELLED;
              rp_past := _end_time f - _start_time f; rp_left := 0 |}) <$> fns.
Proof.
  intros Hc. revert t0. induction fns as [|fn fns IH]; intros t0; simpl; [done|].
  rewrite IH. f_equal. unfold report_of, progress. by rewrite Hc.
Qed.

(** C3, as the code has it: on a running future with a canceller,
    [cancel()] calls the canceller once, drops what it returns, sets the
    state to cancelled, returns true, runs the done-callbacks and calls
    every progress subscriber once more, in order, with [left = 0] and
    [past = end_time - start_time]; the result is left as it was. *)
Theorem cancel_running s (c : T → T * pyret) :
  _state (fut s) = RUNNING → task_canceller (fut s) = Some c →
  (cancel s).1 = true
  ∧ task (cancel s).2 = (c (task s)).1
  ∧ _state (fut (cancel s).2) = CANCELLED
  ∧ _result (fut (cancel s).2) = _result (fut s)
  ∧ reports (cancel s).2 =
      reports s ++
      ((λ fn, {| rp_callback := fn; rp_state := CANCELLED;
                 rp_past := _end_time (fut s) - _start_time (fut s);
                 rp_left := 0 |}) <$> _upd_callbacks (fut s))
  ∧ done_log (cancel s).2 = done_log s ++ _done_callbacks (fut s).
Proof.
  intros Hr Hc. unfold cancel, bind, get_fut. rewrite Hr, Hc.
  unfold modify_task, put_fut. rewrite invoke_done_eq. simpl.
  rewrite invoke_upd_eq. unfold ret, after_upd. simpl.
  by rewrite reports_for_cancelled.
Qed.

Lemma since_app s (rs : list report) (s' : sys T V) :
  reports s' = reports s ++ rs → since s s' = rs.
Proof. intros E. unfold since. rewrite E. apply drop_app_length. Qed.

Lemma set_end_time_since (val : Q) s :
  since s (set_end_time val s).2 =
    reports_for (with_end val (fut s)) (clock s) (tick s)
                (_upd_callbacks (fut s)).
Proof. rewrite set_end_time_eq. by apply since_app. Qed.

Lemma report_pending f (now : Q) (fn : nat) :
  _state f = PENDING →
  rp_state (report_of f now fn) = PENDING
  ∧ rp_past (report_of f now fn) < 0
  ∧ 0 <= rp_left (report_of f now fn)
  ∧ (now - _start_time f < 0 →
     rp_past (report_of f now fn) = now - _start_time f)
  ∧ (0 <= now - _start_time f →
     rp_past (report_of f now fn) = - (1 # 1000000000)).
Proof.
  intros Hp. unfold report_of, progress. rewrite Hp. simpl.
  split; [done|]. destruct (Qle_bool 0 (now - _start_time f)) eqn:E.
  - apply Qle_bool_iff in E.
    split; [done|]. split; [apply clamp_left_nonneg|].
    split; [|done]. intros Hlt. exfalso. by apply (Qlt_not_le _ _ Hlt).
  - assert (Hlt : now - _start_time f < 0).
    { apply Qnot_le_lt. intros Hle. apply Qle_bool_iff in Hle. congruence. }
    split; [done|]. split; [apply clamp_left_nonneg|].
    split; [done|]. intros Hle. exfalso. by apply (Qlt_not_le _ _ Hlt).
Qed.

Lemma reports_for_pending f (clk : nat → Q) (t0 : nat) (fns : list nat) :
  _state f = PENDING →
  Forall (λ r, rp_state r = PENDING ∧ rp_past r < 0 ∧ 0 <= rp_left r)
         (reports_for f clk t0 fns).
Proof.
  intros Hp. revert t0.
  induction fns as [|fn fns IH]; intros t0; simpl; constructor; [|apply IH].
  destruct (report_pending f (clk t0) fn Hp) as (? & ? & ? & _). done.
Qed.

(** C5, as the code has it: while the future is pending, the elapsed
    value handed to the subscribers is always strictly negative (the time
    until the start when the start lies ahead, and -1e-9 once the clock
    has reached the start time), and the remaining value is at least 0;
    once the future is running the elapsed value is the clock reading
    minus the start time, as it is. *)
Theorem pending_elapsed_negative s (val : Q) :
  _state (fut s) = PENDING →
  Forall (λ r, rp_state r = PENDING ∧ rp_past r < 0 ∧ 0 <= rp_left r)
         (since s (set_end_time val s).2)
  ∧ (∀ now fn,
       (now - _start_time (fut s) < 0 →
        rp_past (report_of (with_end val (fut s)) now fn)
          = now - _start_time (fut s))
       ∧ (0 <= now - _start_time (fut s) →
          rp_past (report_of (with_end val (fut s)) now fn)
            = - (1 # 1000000000)))
  ∧ (∀ f now fn, _state f = RUNNING →
       rp_past (report_of f now fn) = now - _start_time f).
Proof.
  intros Hp. split; [|split].
  - rewrite set_end_time_since. by apply reports_for_pending.
  - intros now fn.
    destruct (report_pending (with_end val (fut s)) now fn Hp)
      as (_ & _ & _ & H1 & H2). done.
  - intros f now fn Hr. unfold report_of, progress. by rewrite Hr.
Qed.

(** ** Progress reports along the run of a task *)

Lemma running_pasts_app (a b : list report) :
  running_pasts (a ++ b) = running_pasts a ++ running_pasts b.
Proof. apply omap_app. Qed.

Lemma reports_for_running f (clk : nat → Q) (t0 : nat) (fns : list nat) :
  _state f = RUNNING →
  running_pasts (reports_for f clk t0 fns) =
    (λ i, clk i - _start_time f) <$> seq t0 (length fns).
Proof.
  intros Hr. revert t0. induction fns as [|fn fns IH]; intros t0; [done|].
  simpl. unfold running_pasts in *. simpl. rewrite Hr. simpl.
  rewrite IH. f_equal. unfold progress. by rewrite Hr.
Qed.

Lemma reports_for_not_running f (clk : nat → Q) (t0 : nat) (fns : list nat) :
  _state f ≠ RUNNING → running_pasts (reports_for f clk t0 fns) = [].
Proof.
  intros Hr. revert t0. induction fns as [|fn fns IH]; intros t0; [done|].
  simpl. unfold running_pasts in *. simpl.
  case_bool_decide; [done|]. apply IH.
Qed.

Lemma clock_pasts (clk : nat → Q) (c : Q) (n t0 : nat) :
  monotone clk →
  StronglySorted Qle ((λ i, clk i - c) <$> seq t0 n)
  ∧ Forall (λ p, clk t0 - c <= p ∧ p <= clk (t0 + n)%nat - c)
           ((λ i, clk i - c) <$> seq t0 n).
Proof.
  intros Hm. revert t0. induction n as [|n IH]; intros t0; simpl.
  - split; constructor.
  - destruct (IH (Datatypes.S t0)) as [Hs Hb].
    pose proof (Hm t0 (Datatypes.S t0) ltac:(lia)) as H1.
    pose proof (Hm t0 (t0 + Datatypes.S n)%nat ltac:(lia)) as H2.
    replace (t0 + Datatypes.S n)%nat with (Datatypes.S t0 + n)%nat in * by lia.
    split.
    + constructor; [done|]. eapply Forall_impl; [exact Hb|].
      intros p [Hp _]. simpl in Hp. Lqa.lra.
    + constructor; [split; Lqa.lra|]. eapply Forall_impl; [exact Hb|].
      intros p [Hp Hq]. simpl in *. split; Lqa.lra.
Qed.

(** One action of the executing side on a pending or running future. *)
Lemma act_step (a : action) s :
  _state (fut s) = PENDING ∨ _state (fut s) = RUNNING → monotone (clock s) →
  ∃ r1, reports (act a s).2 = reports s ++ r1
    ∧ clock (act a s).2 = clock s
    ∧ (_state (fut (act a s).2) = PENDING ∨ _state (fut (act a s).2) = RUNNING)
    ∧ Forall (λ r, 0 <= rp_left r) r1
    ∧ StronglySorted Qle (running_pasts r1)
    ∧ (_state (fut (act a s).2) = PENDING → running_pasts r1 = [])
    ∧ Forall (λ p, p <= clock s (tick (act a s).2)
                        - _start_time (fut (act a s).2)) (running_pasts r1)
    ∧ (_state (fut s) = RUNNING →
         _state (fut (act a s).2) = RUNNING
         ∧ _start_time (fut (act a s).2) = _start_time (fut s)
         ∧ (tick s ≤ tick (act a s).2)%nat
         ∧ Forall (λ p, clock s (tick s) - _start_time (fut s) <= p)
                  (running_pasts r1)).
Proof.
  intros Hst Hm. destruct a as [val|].
  - (* set_end_time *)
    simpl. rewrite set_end_time_eq. unfold after_upd. simpl.
    eexists. split; [reflexivity|]. split; [done|]. split; [done|].
    split; [apply reports_for_left|].
    destruct Hst as [Hp|Hr].
    + rewrite reports_for_not_running by (simpl; congruence).
      split; [constructor|]. split; [done|]. split; [constructor|].
      intros Hr. congruence.
    + rewrite reports_for_running by done. simpl.
      destruct (clock_pasts (clock s) (_start_time (fut s))
                  (length (_upd_callbacks (fut s))) (tick s) Hm) as [Hs Hb].
      split; [done|]. split; [congruence|].
      split; [eapply Forall_impl; [exact Hb|]; by intros p [_ ?]|].
      intros _. repeat split; [done|lia|].
      eapply Forall_impl; [exact Hb|]. by intros p [? _].
  - (* set_running_or_notify_cancel *)
    simpl. unfold bind, set_running_or_notify_cancel, bind,
      base_set_running_or_notify_cancel, bind, get_fut.
    destruct Hst as [Hp|Hr].
    + rewrite Hp. unfold put_fut, ret, time_time. simpl.
      rewrite invoke_upd_eq. unfold after_upd. simpl.
      eexists. split; [reflexivity|]. split; [done|]. split; [by right|].
      split; [apply reports_for_left|].
      rewrite reports_for_running by done. simpl.
      destruct (clock_pasts (clock s) (clock s (tick s))
                  (length (_upd_callbacks (fut s)))
                  (Datatypes.S (tick s)) Hm) as [Hs Hb].
      split; [done|]. split; [done|].
      split; [eapply Forall_impl; [exact Hb|]; by intros p [_ ?]|].
      intros Hr. congruence.
    + rewrite Hr. unfold ret. simpl. exists []. rewrite app_nil_r.
      split; [done|]. split; [done|]. split; [by right|].
      split; [constructor|]. split; [constructor|]. split; [done|].
      split; [constructor|]. intros _.
      split; [done|]. split; [done|]. split; [lia|constructor].
Qed.

Lemma perform_reports (acts : list action) s :
  _state (fut s) = PENDING ∨ _state (fut s) = RUNNING → monotone (clock s) →
  ∃ new, reports (perform acts s) = reports s ++ new
    ∧ Forall (λ r, 0 <= rp_left r) new
    ∧ StronglySorted Qle (running_pasts new)
    ∧ (_state (fut s) = RUNNING →
       Forall (λ p, clock s (tick s) - _start_time (fut s) <= p)
              (running_pasts new)).
Proof.
  revert s. induction acts as [|a acts IH]; intros s Hst Hm.
  - exists []. rewrite app_nil_r. simpl.
    split; [done|]. split; [constructor|]. split; [constructor|].
    intros _. constructor.
  - simpl.
    destruct (act_step a s Hst Hm)
      as (r1 & E1 & Hc & Hst1 & Hl1 & Hs1 & Hpend & Hup & Hrun).
    destruct (IH (act a s).2 Hst1) as (new & E & Hl & Hs & Hlow).
    { by rewrite Hc. }
    exists (r1 ++ new). rewrite E, E1, (assoc_L (++)). split; [done|].
    split; [by apply Forall_app|]. rewrite running_pasts_app.
    assert (Hcross : ∀ x y, x ∈ running_pasts r1 → y ∈ running_pasts new →
                            x <= y).
    { intros x y Hx Hy. destruct Hst1 as [Hp1|Hr1].
      - rewrite (Hpend Hp1) in Hx. by apply elem_of_nil in Hx.
      - rewrite Forall_forall in Hup. specialize (Hup x Hx).
        specialize (Hlow Hr1). rewrite Forall_forall in Hlow.
        specialize (Hlow y Hy). rewrite Hc in Hlow. Lqa.lra. }
    split.
    + apply StronglySorted_app. done.
    + intros Hr. destruct (Hrun Hr) as (Hr1 & Hstart & Htick & Hlow1).
      apply Forall_app. split; [done|].
      specialize (Hlow Hr1). rewrite Hc, Hstart in Hlow.
      pose proof (Hm _ _ Htick) as Hmt.
      eapply Forall_impl; [exact Hlow|]. intros p Hp. simpl in Hp. Lqa.lra.
Qed.

(** C4: on a pending or running future, along any sequence of
    [set_end_time] calls (with the start of the task anywhere in between),
    every report handed to a subscriber has [left >= 0], and the elapsed
    values reported while running never decrease, for a clock that
    does not go back. *)
Theorem progress_reports_sound s (acts : list action) :
  _state (fut s) = PENDING ∨ _state (fut s) = RUNNING →
  monotone (clock s) →
  Forall (λ r, 0 <= rp_left r) (since s (perform acts s))
  ∧ StronglySorted Qle (running_pasts (since s (perform acts s))).
Proof.
  intros Hst Hm.
  destruct (perform_reports acts s Hst Hm) as (new & E & Hl & Hs & _).
  by rewrite (since_app s new _ E).
Qed.

(** ** Terminal transitions *)

Lemma set_result_eq (v : V) s :
  set_result v s =
    (tt, after_upd
           {| fut := with_end (clock s (tick s))
                       (finish (Some v) (_exception (fut s)) (fut s));
              task := task s; clock := clock s; tick := Datatypes.S (tick s);
              reports := reports s;
              done_log := done_log s ++ _done_callbacks (fut s) |}).
Proof.
  unfold set_result, bind, get_fut, put_fut. rewrite invoke_done_eq. simpl.
  unfold time_time. simpl. by rewrite invoke_upd_eq.
Qed.

Lemma set_exception_eq (e : exn) s :
  set_exception e s =
    (tt, after_upd
           {| fut := with_end (clock s (tick s))
                       (finish (_result (fut s)) (Some e) (fut s));
              task := task s; clock := clock s; tick := Datatypes.S (tick s);
              reports := reports s;
              done_log := done_log s ++ _done_callbacks (fut s) |}).
Proof.
  unfold set_exception, bind, get_fut, put_fut. rewrite invoke_done_eq. simpl.
  unfold time_time. simpl. by rewrite invoke_upd_eq.
Qed.

Lemma cancel_running_eq s (c : T → T * pyret) :
  _state (fut s) = RUNNING → task_canceller (fut s) = Some c →
  cancel s =
    (true, after_upd
             {| fut := set_state CANCELLED (fut s); task := (c (task s)).1;
                clock := clock s; tick := tick s; reports := reports s;
                done_log := done_log s ++ _done_callbacks (fut s) |}).
Proof.
  intros Hr Hc. unfold cancel, bind, get_fut. rewrite Hr, Hc.
  unfold modify_task, put_fut. rewrite invoke_done_eq. simpl.
  by rewrite invoke_upd_eq.
Qed.

Lemma cancel_pending_eq s :
  _state (fut s) = PENDING →
  cancel s =
    (true, after_upd
             {| fut := set_state CANCELLED (fut s); task := task s;
                clock := clock s; tick := tick s; reports := reports s;
                done_log := done_log s ++ _done_callbacks (fut s) |}).
Proof.
  intros Hp. unfold cancel, bind, get_fut. rewrite Hp.
  unfold put_fut. rewrite invoke_done_eq. simpl.
  by rewrite invoke_upd_eq.
Qed.

Lemma cancel_over_eq s :
  _state (fut s) ≠ PENDING → _state (fut s) ≠ RUNNING →
  cancel s = (bool_decide (_state (fut s) ≠ FINISHED), s).
Proof.
  intros Hp Hr. unfold cancel, bind, get_fut.
  by destruct (_state (fut s)).
Qed.

Lemma report_update_eq (fn : nat) s :
  _report_update fn s =
    (tt, {| fut := fut s; task := task s; clock := clock s;
            tick := Datatypes.S (tick s);
            reports := reports s ++ [report_of (fut s) (clock s (tick s)) fn];
            done_log := done_log s |}).
Proof.
  unfold _report_update, bind, time_time, get_fut, emit, report_of. simpl.
  by destruct (progress (fut s) (clock s (tick s))).
Qed.

End Generic.

Lemma seconds_monotone : monotone seconds.
Proof. intros i j Hij. unfold seconds. rewrite <- Zle_Qle. lia. Qed.

Lemma progress_reports_sound_witness :
  Forall (λ r, 0 <= rp_left r)
         (since pending_seconds
            (perform [SetEndTime 20; SetRunning; SetEndTime 30; SetEndTime 25]
                     pending_seconds))
  ∧ StronglySorted Qle
      (running_pasts
         (since pending_seconds
            (perform [SetEndTime 20; SetRunning; SetEndTime 30; SetEndTime 25]
                     pending_seconds))).
Proof.
  apply (progress_reports_sound pending_seconds
           [SetEndTime 20; SetRunning; SetEndTime 30; SetEndTime 25]).
  - left. reflexivity.
  - exact seconds_monotone.
Defined.

(** The reports of that run: one while pending, three while running. *)
Example progress_reports_example :
  (λ r, (rp_state r, rp_past r, rp_left r)) <$>
    since pending_seconds
      (perform [SetEndTime 20; SetRunning; SetEndTime 30; SetEndTime 25]
               pending_seconds)
  = [(PENDING, 0 - 10, 20 - 0); (RUNNING, 2 - 1, 0);
     (RUNNING, 3 - 1, 30 - 3); (RUNNING, 4 - 1, 25 - 4)].
Proof. reflexivity. Qed.

Lemma pending_elapsed_negative_witness :
  Forall (λ r, rp_state r = PENDING ∧ rp_past r < 0 ∧ 0 <= rp_left r)
         (since pending_sys (set_end_time 20 pending_sys).2)
  ∧ (∀ now fn,
       (now - _start_time (fut pending_sys) < 0 →
        rp_past (report_of (with_end 20 (fut pending_sys)) now fn)
          = now - _start_time (fut pending_sys))
       ∧ (0 <= now - _start_time (fut pending_sys) →
          rp_past (report_of (with_end 20 (fut pending_sys)) now fn)
            = - (1 # 1000000000)))
  ∧ (∀ (f : ProgressiveFuture unit nat) now fn, _state f = RUNNING →
       rp_past (report_of f now fn) = now - _start_time f).
Proof.
  apply (pending_elapsed_negative pending_sys 20).
  reflexivity.
Defined.

(** C5 as the specification words it fails: a pending future due to start
    at 10 s reports an elapsed value of -5 s when the clock reads 5 s. *)
Lemma pending_elapsed_not_clamped : ¬ pending_elapsed_clamped pending_sys.
Proof.
  intros H. specialize (H eq_refl 20).
  rewrite set_end_time_since in H. simpl in H.
  inversion H as [|r rs Hpast _]. simpl in Hpast.
  revert Hpast. by vm_compute.
Qed.

Lemma cancel_running_witness :
  (cancel refusing_sys).1 = true
  ∧ task (cancel refusing_sys).2 = tt
  ∧ _state (fut (cancel refusing_sys).2) = CANCELLED
  ∧ _result (fut (cancel refusing_sys).2) = None
  ∧ reports (cancel refusing_sys).2 =
      [] ++ ((λ fn, {| rp_callback := fn; rp_state := CANCELLED;
                       rp_past := 10 - 0; rp_left := 0 |}) <$> [7%nat])
  ∧ done_log (cancel refusing_sys).2 = [] ++ [].
Proof.
  apply (cancel_running refusing_sys (λ t, (t, RBool false))).
  - reflexivity.
  - reflexivity.
Defined.

(** C3 as the specification words it fails: the canceller reports that it
    could not cancel, and [cancel()] still answers true and leaves the
    future cancelled. *)
Lemma cancel_ignores_canceller : ¬ cancel_follows_canceller refusing_sys.
Proof.
  intros H. destruct (H (λ t, (t, RBool false)) eq_refl eq_refl) as [H1 _].
  vm_compute in H1. discriminate H1.
Qed.

End FutureFacts.

(* ===================================================================== *)
(** * Properties of the acquisition task                                  *)
(* ===================================================================== *)

Module TaskFacts.

Import AcqMng FutureFacts.
Local Open Scope Q_scope.

Implicit Types (s : sys AcquisitionTask (list DataArray)).

Lemma settle_waiting s :
  thread_pc (task s) = Waiting → settle s = (tt, s).
Proof. intros H. unfold settle. run_m. by rewrite H. Qed.

Lemma settle_cancelled s :
  thread_pc (task s) = Raised CancelledError → settle s = (tt, s).
Proof. intros H. unfold settle. run_m. by rewrite H. Qed.

(** Preservation of [task_inv] by the start of the thread. *)
Lemma inv_thread_start s :
  task_inv s → thread_pc (task s) = NotStarted →
  task_inv (_executeTask s).2.
Proof.
  intros [Hc Hi] Hpc. rewrite Hpc in Hi. destruct Hi as (Hst & Hres & Hcan).
  unfold _executeTask, set_running_or_notify_cancel,
    base_set_running_or_notify_cancel. run_m.
  destruct Hst as [Hp|Hp]; rewrite Hp; simpl.
  - rewrite invoke_upd_eq. simpl. unfold run_start. run_m.
    destruct (_current_stream (task s)) eqn:Hcur; simpl.
    + unfold settle. run_m. rewrite set_exception_eq. by split.
    + rewrite set_end_time_eq. simpl. unfold next_stream. run_m.
      destruct (_streams (task s)) as [|x rest] eqn:Hs; simpl.
      * unfold settle. run_m. rewrite set_result_eq. by split.
      * unfold settle. run_m. by split.
  - rewrite invoke_upd_eq. simpl. by split.
Qed.

(** The thread resumes after an image of the current stream. *)
Lemma inv_image s :
  task_inv s → thread_pc (task s) = Waiting →
  task_inv (step ExtImage s).2.
Proof.
  intros [Hc Hi] Hpc. rewrite Hpc in Hi. destruct Hi as (Hst & Hres & Hcan).
  unfold step. run_m. rewrite Hpc. run_m. unfold run_resume. run_m.
  rewrite Hcan.
  destruct (_current_stream (task s)) as [cur|] eqn:Hcur; simpl.
  - destruct (_streamTimes (task s) !! sid cur) as [[k est]|] eqn:Hl; simpl.
    + rewrite set_end_time_eq. simpl. unfold next_stream. run_m.
      destruct (todo (task s)) as [|x rest] eqn:Ht; simpl.
      * unfold settle. run_m. rewrite set_result_eq. by split.
      * unfold settle. run_m. split; [done|]. simpl. by rewrite ?Hst, ?Hres, ?Hcan.
    + unfold settle. run_m. rewrite set_exception_eq. by split.
  - unfold settle. run_m. rewrite Hpc. split; [done|]. simpl.
    by rewrite ?Hpc, ?Hst, ?Hres, ?Hcan.
Qed.

(** [future.cancel()] while the thread waits for a stream: the future is
    cancelled, no result is set, and the thread ends on [CancelledError]. *)
Lemma cancel_while_waiting s :
  task_inv s → thread_pc (task s) = Waiting →
  cancelled_inv (step ExtCancel s).2.
Proof.
  intros [Hc Hi] Hpc. rewrite Hpc in Hi. destruct Hi as (Hst & Hres & Hcan).
  unfold step. run_m. rewrite (cancel_running_eq s task_cancel Hst Hc).
  simpl. rewrite Hpc. unfold run_resume. run_m.
  unfold settle. run_m. by repeat split.
Qed.

Lemma inv_cancel s :
  task_inv s → thread_pc (task s) = NotStarted →
  task_inv (step ExtCancel s).2.
Proof.
  intros [Hc Hi] Hpc. rewrite Hpc in Hi. destruct Hi as (Hst & Hres & Hcan).
  unfold step. run_m. destruct Hst as [Hp|Hp].
  - rewrite (cancel_pending_eq s Hp). simpl. rewrite Hpc. simpl.
    split; [done|]. simpl. rewrite Hpc. by auto.
  - rewrite cancel_over_eq by congruence. simpl. rewrite Hpc. simpl.
    split; [done|]. rewrite Hpc. by auto.
Qed.

(** Timer ticks and new subscribers touch neither the task nor the state
    or result of the future. *)
Lemma step_frame (e : ext) s :
  e = ExtTimer ∨ (∃ fn, e = ExtAddCallback fn) →
  task (step e s).2 = task s
  ∧ _state (fut (step e s).2) = _state (fut s)
  ∧ _result (fut (step e s).2) = _result (fut s)
  ∧ task_canceller (fut (step e s).2) = task_canceller (fut s).
Proof.
  intros [->|[fn ->]]; unfold step; run_m.
  - destruct (started (thread_pc (task s)) && negb (done (fut s))); [|done].
    by rewrite invoke_upd_eq.
  - unfold add_update_callback. run_m.
    destruct (_state (fut s)) eqn:E; simpl; try done;
      by rewrite report_update_eq.
Qed.

Lemma task_inv_step (e : ext) s :
  task_inv s →
  (thread_pc (task s) = Waiting ∧ e = ExtCancel
   ∧ cancelled_inv (step e s).2)
  ∨ task_inv (step e s).2.
Proof.
  intros Hinv. destruct e as [| | | |fn].
  - right. destruct (decide (thread_pc (task s) = NotStarted)) as [Hpc|Hpc].
    + unfold step. run_m. rewrite Hpc. by apply inv_thread_start.
    + unfold step. run_m. by destruct (thread_pc (task s)).
  - right. destruct (decide (thread_pc (task s) = Waiting)) as [Hpc|Hpc].
    + by apply inv_image.
    + unfold step. run_m. by destruct (thread_pc (task s)).
  - destruct (thread_pc (task s)) eqn:Hpc.
    + right. by apply inv_cancel.
    + right. destruct Hinv as [Hc _]. unfold step, cancel. run_m.
      destruct (_state (fut s)) eqn:Hst; simpl; rewrite ?Hc; simpl;
        rewrite ?invoke_done_eq; simpl; rewrite ?invoke_upd_eq; simpl;
        rewrite ?Hpc; simpl; split; simpl; rewrite ?Hpc; done.
    + left. split; [done|]. split; [done|]. by apply cancel_while_waiting.
    + right. destruct Hinv as [Hc _]. unfold step, cancel. run_m.
      destruct (_state (fut s)) eqn:Hst; simpl; rewrite ?Hc; simpl;
        rewrite ?invoke_done_eq; simpl; rewrite ?invoke_upd_eq; simpl;
        rewrite ?Hpc; simpl; split; simpl; rewrite ?Hpc; done.
    + right. destruct Hinv as [Hc _]. unfold step, cancel. run_m.
      destruct (_state (fut s)) eqn:Hst; simpl; rewrite ?Hc; simpl;
        rewrite ?invoke_done_eq; simpl; rewrite ?invoke_upd_eq; simpl;
        rewrite ?Hpc; simpl; split; simpl; rewrite ?Hpc; done.
  - right. destruct (step_frame ExtTimer s) as (Ht & Hs & Hr & Hc); [by left|].
    destruct Hinv as [Hc' Hi]. split; [congruence|].
    by rewrite Ht, Hs, Hr.
  - right.
    destruct (step_frame (ExtAddCallback fn) s) as (Ht & Hs & Hr & Hc);
      [right; by exists fn|].
    destruct Hinv as [Hc' Hi]. split; [congruence|].
    by rewrite Ht, Hs, Hr.
Qed.

(** Once cancelled while waiting, nothing the other threads do changes
    the state of the future or sets a result. *)
Lemma cancelled_inv_step (e : ext) s :
  cancelled_inv s → cancelled_inv (step e s).2.
Proof.
  intros (Hst & Hres & Hpc). destruct e as [| | | |fn].
  - unfold step. run_m. by rewrite Hpc.
  - unfold step. run_m. by rewrite Hpc.
  - unfold step. run_m. rewrite cancel_over_eq by congruence. simpl.
    by rewrite Hpc.
  - destruct (step_frame ExtTimer s) as (Ht & Hs & Hr & Hc); [by left|].
    unfold cancelled_inv. by rewrite Ht, Hs, Hr.
  - destruct (step_frame (ExtAddCallback fn) s) as (Ht & Hs & Hr & Hc);
      [right; by exists fn|].
    unfold cancelled_inv. by rewrite Ht, Hs, Hr.
Qed.

Lemma cancelled_inv_exec (evs : list ext) s :
  cancelled_inv s → cancelled_inv (exec evs s).
Proof.
  revert s. induction evs as [|e evs IH]; intros s H; [done|].
  simpl. apply IH. by apply cancelled_inv_step.
Qed.

(** Whatever happens, the task is in [task_inv], or it was cancelled
    while waiting. *)
Lemma task_inv_exec (evs : list ext) s :
  task_inv s → task_inv (exec evs s) ∨ cancelled_inv (exec evs s).
Proof.
  revert s. induction evs as [|e evs IH]; intros s H; [by left|].
  simpl. destruct (task_inv_step e s H) as [(_ & _ & Hc)|Hi].
  - right. by apply cancelled_inv_exec.
  - by apply IH.
Qed.

Lemma task_inv_start (streams : list Stream) (clk : nat → Q) :
  task_inv (startAcquisition streams clk).
Proof. split; [done|]. simpl. by auto. Qed.

(** ** The dictionary of estimates and the order of acquisition *)

Lemma keyed_insert (d : gmap nat (Stream * float)) (x : Stream) :
  keyed d → keyed (<[sid x := (x, acq_time x)]> d).
Proof.
  intros Hd k y q. rewrite lookup_insert. case_decide as E.
  - intros [= <- <-]. done.
  - apply Hd.
Qed.

Lemma keyed_foldl (streams : list Stream) (d : gmap nat (Stream * float)) :
  keyed d →
  keyed (foldl (λ d x, <[sid x := (x, acq_time x)]> d) d streams).
Proof.
  revert d. induction streams as [|x streams IH]; intros d Hd; [done|].
  simpl. apply IH. by apply keyed_insert.
Qed.

Lemma keyed_new_task (streams : list Stream) :
  keyed (_streamTimes (new_task streams)).
Proof. simpl. apply keyed_foldl. intros k x q. by rewrite lookup_empty. Qed.

Lemma insert_desc_perm {A} (key : A → nat) (x : A) (l : list A) :
  insert_desc key x l ≡ₚ x :: l.
Proof.
  induction l as [|y l IH]; simpl; [done|].
  destruct (key x <? key y)%nat; [|done].
  rewrite IH. apply Permutation_swap.
Qed.

Lemma sorted_desc_perm {A} (key : A → nat) (l : list A) :
  sorted_desc key l ≡ₚ l.
Proof.
  induction l as [|x l IH]; simpl; [done|].
  by rewrite insert_desc_perm, IH.
Qed.

Lemma elem_of_dict_keys (d : gmap nat (Stream * float)) (x : Stream) :
  keyed d → x ∈ dict_keys d → d !! sid x = Some (x, acq_time x).
Proof.
  intros Hd Hx. unfold dict_keys in Hx.
  apply list_elem_of_fmap in Hx as ([y q] & -> & Hx).
  apply list_elem_of_fmap in Hx as ([k [y' q']] & [= <- <-] & Hx).
  apply elem_of_map_to_list in Hx. destruct (Hd _ _ _ Hx) as [<- ->]. done.
Qed.

Lemma stream_time_keys (t : AcquisitionTask) :
  keyed (_streamTimes t) →
  stream_time t <$> dict_keys (_streamTimes t) = dict_values (_streamTimes t).
Proof.
  intros Hd. unfold dict_keys, dict_values, stream_time.
  assert (H : ∀ l : list (nat * (Stream * float)),
             (∀ k x q, (k, (x, q)) ∈ l → _streamTimes t !! k = Some (x, q)) →
             (λ x, match _streamTimes t !! sid x with
                   | Some (_, q) => q
                   | None => f64_of_Z 0
                   end) <$> l.*2.*1 = l.*2.*2).
  { induction l as [|[k [x q]] l IH]; intros Hl; [done|]. simpl.
    pose proof (Hl k x q ltac:(left)) as Hk.
    destruct (Hd _ _ _ Hk) as [<- ->]. rewrite Hk. f_equal.
    apply IH. intros k' x' q' Hin. apply Hl. by right. }
  apply H. intros k x q. apply elem_of_map_to_list.
Qed.

Lemma sid_keys (d : gmap nat (Stream * float)) :
  keyed d → sid <$> dict_keys d = (map_to_list d).*1.
Proof.
  intros Hd. unfold dict_keys.
  assert (H : ∀ l : list (nat * (Stream * float)),
             (∀ k x q, (k, (x, q)) ∈ l → d !! k = Some (x, q)) →
             sid <$> l.*2.*1 = l.*1).
  { induction l as [|[k [x q]] l IH]; intros Hl; [done|]. simpl.
    destruct (Hd _ _ _ (Hl k x q ltac:(left))) as [<- _]. f_equal.
    apply IH. intros k' x' q' Hin. apply Hl. by right. }
  apply H. intros k x q. apply elem_of_map_to_list.
Qed.

Lemma times_lookup (streams : list Stream) (d : gmap nat (Stream * float))
    (k : nat) (x : Stream) (q : float) :
  foldl (λ d y, <[sid y := (y, acq_time y)]> d) d streams !! k = Some (x, q) →
  x ∈ streams ∨ d !! k = Some (x, q).
Proof.
  revert d. induction streams as [|y streams IH]; intros d; simpl.
  - by right.
  - intros H. destruct (IH _ H) as [?|Hl]; [left; by right|].
    rewrite lookup_insert in Hl. case_decide as E.
    + injection Hl as <- _. left. by left.
    + by right.
Qed.

Lemma times_is_Some (streams : list Stream) (d : gmap nat (Stream * float))
    (k : nat) :
  k ∈ sid <$> streams ∨ is_Some (d !! k) →
  is_Some (foldl (λ d y, <[sid y := (y, acq_time y)]> d) d streams !! k).
Proof.
  revert d. induction streams as [|y streams IH]; intros d; simpl.
  - intros [H|H]; [by apply elem_of_nil in H|done].
  - intros [H|H]; apply IH.
    + apply elem_of_cons in H as [->|H]; [right|by left].
      rewrite lookup_insert. by rewrite decide_True.
    + right. rewrite lookup_insert. case_decide; [done|]. done.
Qed.

Lemma sid_inj (l : list Stream) (x y : Stream) :
  NoDup (sid <$> l) → x ∈ l → y ∈ l → sid x = sid y → x = y.
Proof.
  induction l as [|z l IH]; intros Hn Hx Hy E; [by apply elem_of_nil in Hx|].
  rewrite fmap_cons in Hn. apply NoDup_cons in Hn as [Hz Hn].
  apply elem_of_cons in Hx as [->|Hx]; apply elem_of_cons in Hy as [->|Hy].
  - done.
  - exfalso. apply Hz. rewrite E. apply list_elem_of_fmap. by exists y.
  - exfalso. apply Hz. rewrite <- E. apply list_elem_of_fmap. by exists x.
  - by apply IH.
Qed.

Lemma dict_values_keys (d : gmap nat (Stream * float)) :
  keyed d → dict_values d = acq_time <$> dict_keys d.
Proof.
  intros Hd. unfold dict_values, dict_keys.
  assert (H : ∀ l : list (nat * (Stream * float)),
             (∀ k x q, (k, (x, q)) ∈ l → d !! k = Some (x, q)) →
             l.*2.*2 = acq_time <$> l.*2.*1).
  { induction l as [|[k [x q]] l IH]; intros Hl; [done|]. simpl.
    pose proof (Hl k x q ltac:(left)) as Hk.
    destruct (Hd _ _ _ Hk) as [_ ->]. f_equal.
    apply IH. intros k' x' q' Hin. apply Hl. by right. }
  apply H. intros k x q. apply elem_of_map_to_list.
Qed.

(** A list that names every stream object once fills the dictionary with
    exactly its objects. *)
Lemma dict_keys_distinct (l : list Stream) :
  NoDup (sid <$> l) →
  dict_keys (foldl (λ d y, <[sid y := (y, acq_time y)]> d) ∅ l) ≡ₚ l.
Proof.
  intros Hn. set (d := foldl _ ∅ l).
  assert (Hk : keyed d) by apply (keyed_new_task l).
  apply NoDup_Permutation.
  - apply (NoDup_fmap_1 sid). rewrite (sid_keys d Hk).
    apply NoDup_fst_map_to_list.
  - by apply (NoDup_fmap_1 sid).
  - intros x. split.
    + intros Hx. pose proof (elem_of_dict_keys d x Hk Hx) as Hl.
      apply times_lookup in Hl as [?|Hl]; [done|].
      by rewrite lookup_empty in Hl.
    + intros Hx. destruct (times_is_Some l ∅ (sid x)) as [[y q] Hl].
      { left. apply list_elem_of_fmap. by exists x. }
      fold d in Hl. destruct (Hk _ _ _ Hl) as [Hs _].
      assert (Hy : y ∈ l).
      { apply times_lookup in Hl as [?|Hl]; [done|].
        by rewrite lookup_empty in Hl. }
      rewrite <- (sid_inj l y x Hn Hy Hx Hs).
      unfold dict_keys. apply list_elem_of_fmap. exists (y, q). split; [done|].
      apply list_elem_of_fmap. exists (sid x, (y, q)). split; [done|].
      by apply elem_of_map_to_list.
Qed.

(** ** The countdown of [expected_time] *)

Lemma order_lookup (streams : list Stream) (x : Stream) :
  x ∈ _streams (new_task streams) →
  _streamTimes (new_task streams) !! sid x = Some (x, acq_time x).
Proof.
  intros Hx. apply elem_of_dict_keys; [apply keyed_new_task|].
  revert Hx. unfold new_task at 1. cbn [_streams].
  by rewrite sorted_desc_perm.
Qed.

Lemma acquired_S (streams : list Stream) (clk : nat → Q) (k : nat) :
  acquired streams clk (Datatypes.S k)
  = (step ExtImage (acquired streams clk k)).2.
Proof.
  unfold acquired, exec. rewrite replicate_S_end, app_comm_cons, foldl_app.
  done.
Qed.

Lemma thread_start_position s :
  _state (fut s) = PENDING → thread_pc (task s) = NotStarted →
  _current_stream (task s) = None →
  expected_time (task (step ExtThreadStart s).2)
    = numpy_sum (dict_values (_streamTimes (task s)))
  ∧ _streamTimes (task (step ExtThreadStart s).2) = _streamTimes (task s)
  ∧ _cancelled (task (step ExtThreadStart s).2) = _cancelled (task s)
  ∧ match _streams (task s) with
    | [] => thread_pc (task (step ExtThreadStart s).2) = Returned
    | x :: rest =>
        thread_pc (task (step ExtThreadStart s).2) = Waiting
        ∧ _current_stream (task (step ExtThreadStart s).2) = Some x
        ∧ todo (task (step ExtThreadStart s).2) = rest
    end.
Proof.
  intros Hp Hpc Hcur. unfold step. run_m. rewrite Hpc.
  unfold _executeTask, set_running_or_notify_cancel,
    base_set_running_or_notify_cancel. run_m. rewrite Hp. simpl.
  rewrite invoke_upd_eq. simpl. unfold run_start. run_m. rewrite Hcur. simpl.
  rewrite set_end_time_eq. simpl. unfold next_stream. run_m.
  destruct (_streams (task s)) as [|x rest] eqn:Ho; simpl.
  - unfold settle. run_m. rewrite set_result_eq. done.
  - unfold settle. run_m. done.
Qed.

Lemma position_start (streams : list Stream) (clk : nat → Q) :
  at_position streams 0 (acquired streams clk 0).
Proof.
  unfold acquired, exec, at_position.
  cbn [replicate foldl take drop fmap list_fmap].
  destruct (thread_start_position (startAcquisition streams clk)
              eq_refl eq_refl eq_refl) as (He & Ht & Hc & Hpos).
  split; [exact He|]. split; [exact Ht|]. split; [exact Hc|]. exact Hpos.
Qed.

Lemma position_step (streams : list Stream) (k : nat) s :
  at_position streams k s →
  at_position streams (Datatypes.S k) (step ExtImage s).2.
Proof.
  unfold at_position. cbv zeta.
  pose proof (order_lookup streams) as Hlook.
  remember (new_task streams) as t0 eqn:Heqt0. clear Heqt0.
  intros (He & Ht & Hc & Hpos).
  destruct (drop k (_streams t0)) as [|x rest] eqn:Hd.
  - (* [run] has returned: nothing listens any more *)
    assert (Hlen : length (_streams t0) ≤ k).
    { destruct (decide (length (_streams t0) ≤ k)) as [|Hn]; [done|].
      apply (f_equal length) in Hd. rewrite length_drop in Hd.
      cbn [length] in Hd. lia. }
    unfold step. run_m. rewrite Hpos. simpl.
    rewrite (take_ge _ (Datatypes.S k)) by lia.
    rewrite (drop_ge _ (Datatypes.S k)) by lia.
    rewrite take_ge in He by lia. done.
  - destruct Hpos as (Hpc & Hcur & Htodo).
    assert (Hk : _streams t0 !! k = Some x).
    { rewrite <- (Nat.add_0_r k), <- lookup_drop, Hd. done. }
    assert (Hl : _streamTimes t0 !! sid x = Some (x, acq_time x)).
    { apply Hlook. by eapply list_elem_of_lookup_2. }
    assert (Hrest : drop (Datatypes.S k) (_streams t0) = rest).
    { rewrite (drop_S _ _ _ Hk) in Hd. by injection Hd. }
    rewrite Hrest, (take_S_r _ _ _ Hk), fmap_app, foldl_app. simpl.
    replace (stream_time t0 x) with (acq_time x)
      by (unfold stream_time; by rewrite Hl).
    unfold step. run_m. rewrite Hpc. run_m. unfold run_resume. run_m.
    rewrite Hc, Hcur, Ht, Hl. simpl.
    rewrite set_end_time_eq. simpl. unfold next_stream. run_m.
    rewrite Htodo. destruct rest as [|y rest']; simpl.
    + unfold settle. run_m. rewrite set_result_eq. simpl.
      by rewrite He, Ht.
    + unfold settle. run_m. by rewrite He, Ht.
Qed.

Lemma position_acquired (streams : list Stream) (clk : nat → Q) (k : nat) :
  at_position streams k (acquired streams clk k).
Proof.
  induction k as [|k IH]; [apply position_start|].
  rewrite acquired_S. by apply position_step.
Qed.

(** C6: the task acquires the stream objects it is given, each once, in
    the order [_streams], and its dictionary holds the estimate of each,
    once. The local [expected_time] of [run] starts at [numpy.sum] of the
    dictionary's values; the arrival of the image of stream [k] takes that
    stream's own estimate off, by one binary64 subtraction, so that after
    [k] images it is the seed less the estimates of the first [k] streams,
    subtracted one after the other; [run] returns after the last one. *)
Theorem expected_time_accounting (streams : list Stream) (clk : nat → Q) :
  let t0 := new_task streams in
  let order := _streams t0 in
  let seed := numpy_sum (dict_values (_streamTimes t0)) in
  let after := λ k, task (acquired streams clk k) in
  NoDup (sid <$> order)
  ∧ (∀ x, x ∈ order → x ∈ streams)
  ∧ (∀ x, x ∈ streams → sid x ∈ sid <$> order)
  ∧ (NoDup (sid <$> streams) → order ≡ₚ streams)
  ∧ dict_values (_streamTimes t0) ≡ₚ acq_time <$> order
  ∧ expected_time (after 0%nat) = seed
  ∧ (∀ k x, order !! k = Some x →
       thread_pc (after k) = Waiting ∧ _current_stream (after k) = Some x
       ∧ expected_time (after (Datatypes.S k))
         = f64_sub (expected_time (after k)) (acq_time x))
  ∧ (∀ k, expected_time (after k)
          = foldl f64_sub seed (acq_time <$> take k order))
  ∧ thread_pc (after (length order)) = Returned.
Proof.
  intros t0 order seed after.
  pose proof (position_acquired streams clk) as Hpos.
  unfold at_position in Hpos. cbv zeta in Hpos.
  fold t0 in Hpos. fold order in Hpos. fold seed in Hpos.
  pose proof (keyed_new_task streams) as Hkd. fold t0 in Hkd.
  assert (Hperm : order ≡ₚ dict_keys (_streamTimes t0)).
  { unfold order, t0, new_task. cbn [_streams]. apply sorted_desc_perm. }
  assert (Hest : ∀ x, x ∈ order → stream_time t0 x = acq_time x).
  { intros x Hx. unfold stream_time, t0.
    by rewrite (order_lookup streams x Hx). }
  split.
  { rewrite Hperm, (sid_keys _ Hkd). apply NoDup_fst_map_to_list. }
  split.
  { intros x Hx. rewrite Hperm in Hx.
    pose proof (elem_of_dict_keys _ x Hkd Hx) as Hl.
    apply times_lookup in Hl as [?|Hl]; [done|].
    by rewrite lookup_empty in Hl. }
  split.
  { intros x Hx. rewrite Hperm, (sid_keys _ Hkd).
    destruct (times_is_Some streams ∅ (sid x)) as [[y q] Hl].
    { left. apply list_elem_of_fmap. by exists x. }
    apply list_elem_of_fmap. exists (sid x, (y, q)). split; [done|].
    by apply elem_of_map_to_list. }
  split.
  { intros Hnd. rewrite Hperm. unfold t0, new_task. cbn [_streamTimes].
    by apply dict_keys_distinct. }
  split.
  { rewrite (dict_values_keys _ Hkd). by apply fmap_Permutation. }
  split; [by destruct (Hpos 0%nat) as (He & _)|].
  split.
  { intros k x Hk.
    destruct (Hpos k) as (He & _ & _ & Hp).
    destruct (Hpos (Datatypes.S k)) as (He' & _).
    rewrite (drop_S _ _ _ Hk) in Hp. destruct Hp as (Hpc & Hcur & _).
    split; [done|]. split; [done|]. unfold after.
    rewrite He', He, (take_S_r _ _ _ Hk), fmap_app, foldl_app. simpl.
    f_equal. apply Hest. by eapply list_elem_of_lookup_2. }
  split.
  { intros k. destruct (Hpos k) as (He & _). unfold after. rewrite He.
    f_equal. apply list_fmap_ext. intros i x Hi. apply Hest.
    apply lookup_take_Some in Hi as [Hi _]. by eapply list_elem_of_lookup_2. }
  destruct (Hpos (length order)) as (_ & _ & _ & Hp).
  by rewrite drop_ge in Hp by lia.
Qed.

(** The example of the specification: estimates 5, 3 and 2, acquired in
    the order A, B, C; the countdown reads 10, 5, 2 and 0. *)
Lemma expected_time_accounting_witness :
  let streams := [stream_C; stream_A; stream_B] in
  let t0 := new_task streams in
  let order := _streams t0 in
  let seed := numpy_sum (dict_values (_streamTimes t0)) in
  let after := λ k, task (acquired streams seconds k) in
  (NoDup (sid <$> order)
   ∧ (∀ x, x ∈ order → x ∈ streams)
   ∧ (∀ x, x ∈ streams → sid x ∈ sid <$> order)
   ∧ (NoDup (sid <$> streams) → order ≡ₚ streams)
   ∧ dict_values (_streamTimes t0) ≡ₚ acq_time <$> order
   ∧ expected_time (after 0%nat) = seed
   ∧ (∀ k x, order !! k = Some x →
        thread_pc (after k) = Waiting ∧ _current_stream (after k) = Some x
        ∧ expected_time (after (Datatypes.S k))
          = f64_sub (expected_time (after k)) (acq_time x))
   ∧ (∀ k, expected_time (after k)
           = foldl f64_sub seed (acq_time <$> take k order))
   ∧ thread_pc (after (length order)) = Returned)
  ∧ name <$> order = ["A"; "B"; "C"]
  ∧ acq_time <$> order = f64_of_Z <$> [5; 3; 2]%Z
  ∧ expected_time <$> (after <$> [0; 1; 2; 3]%nat)
    = f64_of_Z <$> [10; 5; 2; 0]%Z.
Proof.
  split.
  - apply (expected_time_accounting [stream_C; stream_A; stream_B] seconds).
  - repeat split; vm_compute; reflexivity.
Defined.

(** With the estimates 0.1 s and 0.2 s the countdown starts at
    0.30000000000000004 and ends at [2^-55], not at 0. *)
Lemma countdown_residue :
  ¬ countdown_ends_at_zero [stream_D; stream_E] seconds.
Proof. unfold countdown_ends_at_zero. vm_compute. discriminate. Qed.

Example expected_time_tenth_fifth :
  expected_time <$> ((λ k, task (acquired [stream_D; stream_E] seconds k))
                       <$> [0; 1; 2]%nat)
  = [S754_finite false 5404319552844596 (-54);
     S754_finite false 7205759403792795 (-55);
     S754_finite false 4503599627370496 (-107)].
Proof. vm_compute. reflexivity. Qed.

(** ** Calls that overlap *)

Lemma run_resume_halves s :
  run_resume s
  = (let* go := run_wake in if go then run_collect else ret tt) s.
Proof.
  unfold run_resume, run_wake, run_collect. run_m.
  destruct (_cancelled (task s)) eqn:E; [reflexivity|].
  cbv beta. by rewrite E.
Qed.

Lemma run_wake_go s :
  _cancelled (task s) = false → run_wake s = (true, s).
Proof. intros Hc. unfold run_wake. run_m. by rewrite Hc. Qed.

Lemma run_wake_cancelled s :
  _cancelled (task s) = true →
  run_wake s = (false, (modify_task (set_pc (Raised CancelledError)) s).2).
Proof. intros Hc. unfold run_wake. run_m. by rewrite Hc. Qed.

Lemma section_image (c : threads) :
  thread_pc (task (shared c)) = Waiting → resumed c = false →
  listening c = true →
  run_section Image c
  = Some {| shared := (modify_task _image_listener (shared c)).2;
            canceller := canceller c; listening := false;
            notified := true; resumed := false |}.
Proof.
  intros Hpc Hr Hl. unfold run_section, in_wait.
  by rewrite Hpc, Hr, Hl, bool_decide_eq_true_2.
Qed.

Lemma section_wake (c : threads) :
  thread_pc (task (shared c)) = Waiting → resumed c = false →
  notified c = true →
  run_section Wake c
  = Some {| shared := if (run_wake (shared c)).1 then (run_wake (shared c)).2
                      else (settle (run_wake (shared c)).2).2;
            canceller := canceller c; listening := listening c;
            notified := false; resumed := (run_wake (shared c)).1 |}.
Proof.
  intros Hpc Hr Hn. unfold run_section, in_wait.
  rewrite Hpc, Hr, Hn, bool_decide_eq_true_2 by done. cbn [andb negb].
  by destruct (run_wake (shared c)).
Qed.

Lemma section_collect (c : threads) :
  resumed c = true → future_locked c = false →
  run_section Collect c
  = Some {| shared := ((run_collect >> settle) (shared c)).2;
            canceller := canceller c;
            listening :=
              bool_decide
                (thread_pc (task ((run_collect >> settle) (shared c)).2)
                 = Waiting);
            notified := false; resumed := false |}.
Proof. intros Hr Hf. unfold run_section. by rewrite Hr, Hf. Qed.

(** [step ExtImage] is the schedule in which the thread runs on at once
    after the listener. *)
Lemma image_in_sections s :
  thread_pc (task s) = Waiting → _cancelled (task s) = false →
  shared <$> run_sections [Image; Wake; Collect] (waiting s)
  = Some (step ExtImage s).2.
Proof.
  intros Hpc Hc. cbn [run_sections].
  rewrite section_image by done. cbn [waiting shared canceller].
  rewrite section_wake by done.
  cbn [shared canceller listening].
  rewrite run_wake_go by done. cbn [fst snd].
  rewrite section_collect by done. cbn [fmap option_fmap option_map shared].
  unfold step, bind, get_task. cbv beta iota. rewrite Hpc.
  unfold modify_task. cbv beta iota. cbn [snd].
  rewrite run_resume_halves. unfold bind. by rewrite run_wake_go.
Qed.

Lemma cancel_return_eq s
    (f : ProgressiveFuture AcquisitionTask (list DataArray)) :
  ((put_fut f >> _invoke_callbacks >> _invoke_upd_callbacks) s).2
  = after_upd {| fut := f; task := task s; clock := clock s; tick := tick s;
                 reports := reports s;
                 done_log := done_log s ++ _done_callbacks f |}.
Proof.
  unfold bind, put_fut. rewrite invoke_done_eq. cbn [fut task clock tick
    reports done_log]. by rewrite invoke_upd_eq.
Qed.

Lemma section_cancel_call (c : threads) f :
  canceller c = NotCalled → _state (fut (shared c)) = RUNNING →
  task_canceller (fut (shared c)) = Some f →
  run_section CancelCall c
  = Some {| shared := shared c; canceller := BeforeCanceller;
            listening := listening c; notified := notified c;
            resumed := resumed c |}.
Proof. intros Hc Hst Hf. unfold run_section. by rewrite Hc, Hst, Hf. Qed.

Lemma section_cancel_task (c : threads) f :
  canceller c = BeforeCanceller →
  task_canceller (fut (shared c)) = Some f →
  run_section CancelTask c
  = Some {| shared := (modify_task (λ t, fst (f t)) (shared c)).2;
            canceller := AfterCanceller; listening := false;
            notified := true; resumed := resumed c |}.
Proof. intros Hc Hf. unfold run_section. by rewrite Hc, Hf. Qed.

Lemma section_cancel_return (c : threads) :
  canceller c = AfterCanceller →
  run_section CancelReturn c
  = Some {| shared :=
              after_upd
                {| fut := set_state CANCELLED (fut (shared c));
                   task := task (shared c); clock := clock (shared c);
                   tick := tick (shared c); reports := reports (shared c);
                   done_log := done_log (shared c)
                               ++ _done_callbacks (fut (shared c)) |};
            canceller := Answered true; listening := listening c;
            notified := notified c; resumed := resumed c |}.
Proof.
  intros Hc. unfold run_section. rewrite Hc. by rewrite cancel_return_eq.
Qed.

(** The thread's way from the wait on its last stream to the end of
    [_executeTask]. *)
Lemma collect_last s (x : Stream) (est : float) :
  _current_stream (task s) = Some x →
  _streamTimes (task s) !! sid x = Some (x, est) → todo (task s) = [] →
  let data :=
    (λ d, {| payload := payload d; md_description := Some (name x) |})
      <$> raw x in
  let s' := ((run_collect >> settle) s).2 in
  thread_pc (task s') = Returned
  ∧ raw_images (task s') = raw_images (task s) ++ data
  ∧ _state (fut s') = FINISHED
  ∧ _result (fut s') = Some (raw_images (task s) ++ data).
Proof.
  intros Hcur Hl Htodo. cbv zeta. unfold run_collect. run_m.
  rewrite Hcur, Hl. simpl. rewrite set_end_time_eq. simpl.
  unfold next_stream. run_m. rewrite Htodo. simpl.
  unfold settle. run_m. rewrite set_result_eq. simpl. done.
Qed.

(** [step ExtCancel] is the schedule in which the whole of
    [future.cancel()] runs before the thread. *)
Lemma cancel_in_sections s :
  thread_pc (task s) = Waiting → _state (fut s) = RUNNING →
  task_canceller (fut s) = Some task_cancel →
  shared <$> run_sections timely_cancel (waiting s)
  = Some (step ExtCancel s).2.
Proof.
  intros Hpc Hst Hcan. unfold timely_cancel. cbn [run_sections].
  rewrite (section_cancel_call _ task_cancel) by done.
  cbn [waiting shared listening notified resumed].
  rewrite (section_cancel_task _ task_cancel) by done.
  rewrite section_cancel_return by done.
  cbn [shared listening notified resumed].
  rewrite section_wake by done. cbn [shared canceller listening].
  rewrite run_wake_cancelled by done. cbn [fst snd].
  cbn [fmap option_fmap option_map shared]. f_equal.
  unfold step, bind at 1, get_task. cbv beta iota.
  unfold bind at 1. rewrite (cancel_running_eq s task_cancel Hst Hcan).
  unfold bind, get_task. cbv beta iota. cbn [task after_upd fst task_cancel].
  cbn [thread_pc upd_task _cancelled]. rewrite Hpc.
  unfold run_resume, bind, get_task. cbv beta iota.
  cbn [task after_upd fst task_cancel _cancelled upd_task]. done.
Qed.

(** C2: the task waits on the last of its streams, [k] images having
    arrived. When [future.cancel()] gets the lock of the task before the
    thread of the task does, the future ends cancelled and without a
    result. When the image of the stream arrives while [cancel()] is
    about to call the canceller, and the thread gets the lock first,
    [cancel()] still answers [True], and the thread then sets the result:
    the future ends finished, holding the result of the run that nobody
    cancelled. *)
Theorem cancel_races_with_last_image (streams : list Stream)
    (clk : nat → Q) (k : nat) :
  length (_streams (new_task streams)) = Datatypes.S k →
  let s := acquired streams clk k in
  thread_pc (task s) = Waiting ∧ todo (task s) = []
  ∧ (∃ c, run_sections timely_cancel (waiting s) = Some c
          ∧ canceller c = Answered true
          ∧ _state (fut (shared c)) = CANCELLED
          ∧ _result (fut (shared c)) = None)
  ∧ (∃ c, run_sections late_cancel (waiting s) = Some c
          ∧ canceller c = Answered true
          ∧ _state (fut (shared c)) = FINISHED
          ∧ _result (fut (shared c))
            = Some (raw_images (task (acquired streams clk (Datatypes.S k))))
          ∧ _result (fut (shared c))
            = _result (fut (acquired streams clk (Datatypes.S k)))).
Proof.
  intros Hlen s.
  destruct (position_acquired streams clk k) as (_ & Ht & Hc & Hpos).
  fold s in Ht, Hc, Hpos.
  destruct (_streams (new_task streams) !! k) as [x|] eqn:Hk;
    [|apply lookup_ge_None in Hk; lia].
  rewrite (drop_S _ _ _ Hk), drop_ge in Hpos by lia.
  destruct Hpos as (Hpc & Hcur & Htodo).
  assert (Hl : _streamTimes (task s) !! sid x = Some (x, acq_time x)).
  { rewrite Ht. apply order_lookup. by eapply list_elem_of_lookup_2. }
  assert (Hinv : task_inv s).
  { destruct (task_inv_exec (ExtThreadStart :: replicate k ExtImage) _
                (task_inv_start streams clk)) as [H|(_ & _ & H)]; [done|].
    fold (acquired streams clk k) in H. fold s in H. congruence. }
  destruct Hinv as [Hcan Hi]. rewrite Hpc in Hi.
  destruct Hi as (Hst & Hres & _).
  split; [done|]. split; [done|]. split.
  - (* the canceller first *)
    unfold timely_cancel. cbn [run_sections].
    rewrite (section_cancel_call _ task_cancel) by done.
    cbn [waiting shared listening notified resumed].
    rewrite (section_cancel_task _ task_cancel) by done.
    rewrite section_cancel_return by done.
    cbn [shared listening notified resumed].
    rewrite section_wake by done. cbn [shared canceller listening].
    rewrite run_wake_cancelled by done. cbn [fst snd].
    eexists. split; [reflexivity|]. cbn [canceller shared].
    split; [done|]. unfold settle, bind, get_task. cbv beta iota.
    cbn. done.
  - (* the thread first *)
    unfold late_cancel. cbn [run_sections].
    rewrite (section_cancel_call _ task_cancel) by done.
    cbn [waiting shared listening notified resumed].
    rewrite section_image by done. cbn [shared canceller].
    rewrite section_wake by done. cbn [shared canceller listening].
    rewrite run_wake_go by done. cbn [fst snd].
    rewrite (section_cancel_task _ task_cancel) by done.
    cbn [shared resumed].
    rewrite section_cancel_return by done.
    cbn [shared listening notified resumed].
    rewrite section_collect by done. cbn [shared canceller].
    eexists. split; [reflexivity|]. cbn [canceller shared].
    split; [done|].
    rewrite acquired_S. fold s.
    assert (Hstep : (step ExtImage s).2
                    = ((run_collect >> settle)
                         (modify_task _image_listener s).2).2).
    { pose proof (image_in_sections s Hpc Hc) as E. cbn [run_sections] in E.
      rewrite section_image in E by done. cbn [waiting shared canceller] in E.
      rewrite section_wake in E by done.
      cbn [shared canceller listening] in E.
      rewrite run_wake_go in E by done. cbn [fst snd] in E.
      rewrite section_collect in E by done.
      cbn [fmap option_fmap option_map shared] in E. by injection E. }
    rewrite Hstep.
    match goal with |- context [(run_collect >> settle) ?s4] =>
      destruct (collect_last s4 x (acq_time x)) as (_ & _ & Hfin & Hr);
        [done|done|done|] end.
    destruct (collect_last (modify_task _image_listener s).2 x (acq_time x))
      as (_ & Himgs & _ & Hr'); [done|done|done|].
    split; [exact Hfin|]. rewrite Hr, Hr', Himgs. done.
Qed.

Lemma cancel_races_with_last_image_witness :
  let s := acquired [stream_A; stream_B; stream_C] seconds 2 in
  thread_pc (task s) = Waiting ∧ todo (task s) = []
  ∧ (∃ c, run_sections timely_cancel (waiting s) = Some c
          ∧ canceller c = Answered true
          ∧ _state (fut (shared c)) = CANCELLED
          ∧ _result (fut (shared c)) = None)
  ∧ (∃ c, run_sections late_cancel (waiting s) = Some c
          ∧ canceller c = Answered true
          ∧ _state (fut (shared c)) = FINISHED
          ∧ _result (fut (shared c))
            = Some (raw_images
                      (task (acquired [stream_A; stream_B; stream_C]
                               seconds 3)))
          ∧ _result (fut (shared c))
            = _result (fut (acquired [stream_A; stream_B; stream_C]
                              seconds 3))).
Proof.
  apply (cancel_races_with_last_image [stream_A; stream_B; stream_C]
           seconds 2).
  vm_compute. reflexivity.
Defined.

(** The same schedule on the streams A, B and C: the future ends
    finished, with the images of the three streams. *)
Example late_cancel_A_B_C :
  let s := acquired [stream_A; stream_B; stream_C] seconds 2 in
  name <$> _current_stream (task s) = Some "C"%string
  ∧ option_map
      (λ c, (canceller c, _state (fut (shared c)),
             option_map (map payload) (_result (fut (shared c)))))
      (run_sections late_cancel (waiting s))
    = Some (Answered true, FINISHED, Some [11; 22; 33]%nat).
Proof. split; vm_compute; reflexivity. Qed.

(** The same overlap while the task waits on B, with C still to come:
    the future ends cancelled and without result, but the thread first
    starts stream C, and ends only once C has published an image. *)
Example late_cancel_on_B :
  let s := acquired [stream_A; stream_B; stream_C] seconds 1 in
  name <$> _current_stream (task s) = Some "B"%string
  ∧ option_map
      (λ c, (canceller c, _state (fut (shared c)), _result (fut (shared c)),
             thread_pc (task (shared c)),
             drop 6 (stream_log (task (shared c)))))
      (run_sections late_cancel (waiting s))
    = Some (Answered true, CANCELLED, None, Waiting,
            [Unsubscribe 2; SetActive 2 false;
             Unsubscribe 2; SetActive 2 false;
             Subscribe 3; SetActive 3 true])
  ∧ option_map
      (λ c, (_state (fut (shared c)), _result (fut (shared c)),
             thread_pc (task (shared c))))
      (run_sections (late_cancel ++ [Image; Wake]) (waiting s))
    = Some (CANCELLED, None, Raised CancelledError).
Proof. repeat split; vm_compute; reflexivity. Qed.

End TaskFacts.

(* ===================================================================== *)
(** * Properties of the calibration                                       *)
(* ===================================================================== *)

Module DelphiFacts.

Import AcqMng Delphi.

(** C7: the canceller of the conversion update answers false, and does
    nothing, when the task has finished; otherwise it flags the task
    cancelled, calls [cancel()] on the futures of hole detection, offset
    alignment and rotation/scaling, in that order and whatever each
    answers, waits on the completion event with a timeout of 10 s, and
    answers true whether or not the event arrived. *)
Theorem cancel_update_conversion (st : fstate) (env : cancel_env) :
  _CancelUpdateConversion st env =
    (if bool_decide (st = FINISHED) then (false, FINISHED, [])
     else (true, CANCELLED,
           [SubCancel HoleDetectionF (hole_detection_cancel env);
            SubCancel AlignOffsetF (align_offset_cancel env);
            SubCancel RotationScalingF (rotation_scaling_cancel env);
            DoneWait 10 (done_in_time env)]))
  ∧ (∀ env', (_CancelUpdateConversion st env').1.1
             = (_CancelUpdateConversion st env).1.1)
  ∧ (st ≠ FINISHED ↔ (_CancelUpdateConversion st env).1.1 = true).
Proof.
  destruct st; simpl; (split; [done|]); (split; [done|]);
    split; intros; congruence.
Qed.

(** ** Step counts *)

Section StepCount.
Local Open Scope R_scope.

Lemma max_steps_R : INR MAX_STEPS = 10.
Proof. unfold MAX_STEPS. simpl. Lra.lra. Qed.

Lemma err_margin_pos : 0 < ERR_MARGIN_R.
Proof. unfold ERR_MARGIN_R. Lra.lra. Qed.

Lemma ln2_pos : 0 < ln 2.
Proof. rewrite <- ln_1. apply ln_increasing; Lra.lra. Qed.

Lemma py_min_Rmin (a b : R) : py_min a b = Rmin a b.
Proof.
  unfold py_min, Rmin. destruct (Rlt_dec b a), (Rle_dec a b); Lra.lra.
Qed.

Lemma estimate_some (et d : R) :
  0 < d → estimate et (Some d) = Ret (estimate_steps d * (et + 2)).
Proof.
  intros Hd. unfold estimate, math_log, estimate_steps, log2.
  pose proof err_margin_pos as He.
  assert (Hq : 0 < d / ERR_MARGIN_R) by (by apply Rdiv_lt_0_compat).
  destruct (Rlt_dec 0 (d / ERR_MARGIN_R)); [|done].
  destruct (Rlt_dec 0 2); [|Lra.lra].
  by rewrite py_min_Rmin.
Qed.

Lemma log2_pow (x : R) : 0 < x → Rpower 2 (log2 x) = x.
Proof.
  intros Hx. unfold Rpower, log2. pose proof ln2_pos.
  replace (ln x / ln 2 * ln 2) with (ln x) by (field; Lra.lra).
  by apply exp_ln.
Qed.

Lemma ln_1024 : ln 1024 = 10 * ln 2.
Proof.
  replace 1024 with (2 ^ 10) by Lra.lra.
  rewrite ln_pow by Lra.lra. simpl. Lra.lra.
Qed.

Lemma log2_8 : log2 8 = 3.
Proof.
  unfold log2. pose proof ln2_pos.
  replace 8 with (2 ^ 3) by Lra.lra.
  rewrite ln_pow by Lra.lra. simpl. field. Lra.lra.
Qed.

Lemma estimate_steps_8 : estimate_steps (8 * ERR_MARGIN_R) = 3.
Proof.
  unfold estimate_steps. pose proof err_margin_pos.
  replace (8 * ERR_MARGIN_R / ERR_MARGIN_R) with 8 by (field; Lra.lra).
  rewrite log2_8, max_steps_R. apply Rmin_left. Lra.lra.
Qed.

Lemma estimate_steps_far (d : R) :
  1024 * ERR_MARGIN_R <= d → estimate_steps d = 10.
Proof.
  intros Hd. unfold estimate_steps. rewrite max_steps_R.
  pose proof err_margin_pos as He. pose proof ln2_pos as H2.
  apply Rmin_right. unfold log2.
  assert (Hq : 1024 <= d / ERR_MARGIN_R).
  { apply (Rmult_le_reg_r ERR_MARGIN_R); [done|].
    replace (d / ERR_MARGIN_R * ERR_MARGIN_R) with d by (field; Lra.lra).
    Lra.lra. }
  assert (Hln : ln 1024 <= ln (d / ERR_MARGIN_R)).
  { destruct Hq as [Hlt|<-]; [|Lra.lra].
    left. apply ln_increasing; Lra.lra. }
  rewrite ln_1024 in Hln. apply (Rmult_le_reg_r (ln 2)); [done|].
  replace (ln (d / ERR_MARGIN_R) / ln 2 * ln 2)
    with (ln (d / ERR_MARGIN_R)) by (field; Lra.lra).
  Lra.lra.
Qed.

(** C9: for every exposure time and every positive distance the three
    estimators return [min(log2(dist / ERR_MARGIN), MAX_STEPS) * (et + 2)],
    where [log2] is the logarithm to base 2; the step count never exceeds
    [MAX_STEPS = 10], is 3 at eight times the error margin, so that
    [estimateOffsetTime(et, 8 * ERR_MARGIN) = 3 * (et + 2)], and is 10 for
    every distance from 1024 error margins on; with no distance given
    the step count is [MAX_STEPS]. Logarithms are exact. *)
Theorem step_count_estimate (et d far : R) :
  0 < d → 1024 * ERR_MARGIN_R <= far →
  estimateOffsetTime et (Some d) = Ret (estimate_steps d * (et + 2))
  ∧ estimateHoleDetectionTime et (Some d) = Ret (estimate_steps d * (et + 2))
  ∧ estimateRotationAndScalingTime et (Some d)
    = Ret (estimate_steps d * (et + 2))
  ∧ Rpower 2 (log2 (d / ERR_MARGIN_R)) = d / ERR_MARGIN_R
  ∧ estimate_steps d <= INR MAX_STEPS
  ∧ INR MAX_STEPS = 10
  ∧ estimate_steps (8 * ERR_MARGIN_R) = 3
  ∧ estimateOffsetTime et (Some (8 * ERR_MARGIN_R)) = Ret (3 * (et + 2))
  ∧ estimateHoleDetectionTime et (Some (8 * ERR_MARGIN_R)) = Ret (3 * (et + 2))
  ∧ estimate_steps far = 10
  ∧ estimateOffsetTime et (Some far) = Ret (10 * (et + 2))
  ∧ estimateHoleDetectionTime et (Some far) = Ret (10 * (et + 2))
  ∧ estimateOffsetTime et None = Ret (10 * (et + 2))
  ∧ estimateHoleDetectionTime et None = Ret (10 * (et + 2)).
Proof.
  intros Hd Hfar. pose proof err_margin_pos as He.
  assert (H8 : 0 < 8 * ERR_MARGIN_R) by Lra.lra.
  assert (Hf : 0 < far) by Lra.lra.
  unfold estimateOffsetTime, estimateHoleDetectionTime,
    estimateRotationAndScalingTime.
  rewrite !(estimate_some et d Hd), !(estimate_some et _ H8),
    !(estimate_some et far Hf), estimate_steps_8,
    (estimate_steps_far far Hfar).
  repeat split; try done.
  - apply log2_pow. by apply Rdiv_lt_0_compat.
  - unfold estimate_steps. apply Rmin_r.
  - apply max_steps_R.
  - unfold estimate. by rewrite max_steps_R.
  - unfold estimate. by rewrite max_steps_R.
Qed.

Lemma step_count_estimate_witness :
  estimateOffsetTime 1 (Some 1) = Ret (estimate_steps 1 * (1 + 2))
  ∧ estimateHoleDetectionTime 1 (Some 1) = Ret (estimate_steps 1 * (1 + 2))
  ∧ estimateRotationAndScalingTime 1 (Some 1)
    = Ret (estimate_steps 1 * (1 + 2))
  ∧ Rpower 2 (log2 (1 / ERR_MARGIN_R)) = 1 / ERR_MARGIN_R
  ∧ estimate_steps 1 <= INR MAX_STEPS
  ∧ INR MAX_STEPS = 10
  ∧ estimate_steps (8 * ERR_MARGIN_R) = 3
  ∧ estimateOffsetTime 1 (Some (8 * ERR_MARGIN_R)) = Ret (3 * (1 + 2))
  ∧ estimateHoleDetectionTime 1 (Some (8 * ERR_MARGIN_R)) = Ret (3 * (1 + 2))
  ∧ estimate_steps 1 = 10
  ∧ estimateOffsetTime 1 (Some 1) = Ret (10 * (1 + 2))
  ∧ estimateHoleDetectionTime 1 (Some 1) = Ret (10 * (1 + 2))
  ∧ estimateOffsetTime 1 None = Ret (10 * (1 + 2))
  ∧ estimateHoleDetectionTime 1 None = Ret (10 * (1 + 2)).
Proof.
  apply (step_count_estimate 1 1 1).
  - Lra.lra.
  - unfold ERR_MARGIN_R. Lra.lra.
Defined.

End StepCount.

(** ** Hole detection and the table of expected positions *)

Section Holes.
Context {S : Type} `{Actuator S}.
Implicit Types (w : @world S) (o : store).
Local Open Scope Q_scope.
Local Arguments is_cancelled : simpl never.

Lemma new_events_app w w' (evs : list hd_event) :
  trace w' = trace w ++ evs → new_events w w' = evs.
Proof. intros E. unfold new_events. rewrite E. apply drop_app_length. Qed.

Lemma abs_moves_app (a b : list hd_event) :
  abs_moves (a ++ b) = abs_moves a ++ abs_moves b.
Proof. apply omap_app. Qed.

Lemma is_cancelled_frame w :
  objects (is_cancelled w).2 = objects w
  ∧ trace (is_cancelled w).2 = trace w.
Proof. unfold is_cancelled. cbn. by rewrite app_nil_r. Qed.

(** Centring on a hole leaves the dictionaries alone and makes no
    absolute move. *)
Lemma center_frame (remaining : nat) (et : Q) (tab : option (Q * Q)) w :
  objects (center_on_hole remaining et tab w).2 = objects w
  ∧ ∃ evs, trace (center_on_hole remaining et tab w).2 = trace w ++ evs
           ∧ abs_moves evs = [].
Proof.
  revert tab w. induction remaining as [|r IH]; intros tab w;
    cbn [center_on_hole].
  - destruct (is_cancelled_frame w) as [Ho Ht].
    destruct (is_cancelled w) as [c w0]. simpl in *.
    destruct c; simpl; (split; [done|]); exists []; by rewrite app_nil_r.
  - destruct (is_cancelled_frame w) as [Ho Ht].
    destruct (is_cancelled w) as [c w0]. simpl in *.
    destruct c; simpl; [split; [done|]; exists []; by rewrite app_nil_r|].
    destruct (hole_center (images w0 (taken w0))) as [hc|]; simpl;
      [|split; [done|]; exists [GetImage]; by rewrite Ht].
    match goal with |- context [close_enough ?t] =>
      destruct (close_enough t); simpl end;
      [split; [done|]; exists [GetImage]; by rewrite Ht|].
    match goal with |- context [center_on_hole r et ?t ?w1] =>
      destruct (IH t w1) as (Ho1 & evs & Ht1 & Hm) end.
    split; [by rewrite Ho1|].
    eexists. rewrite Ht1. simpl. rewrite Ht, <- !(assoc_L (++)).
    split; [reflexivity|]. rewrite !abs_moves_app, Hm. done.
Qed.

Lemma read_after_write (tuple : list nat) (h h' : nat) (k k' : string)
    (v : Q) o o' :
  NoDup tuple → h ≠ h' → write_hole tuple h k v o = Some o' →
  read_hole tuple h' k' o' = read_hole tuple h' k' o.
Proof.
  intros Hnd Hne. unfold write_hole, read_hole.
  destruct (tuple !! h) as [l|] eqn:Hl; simpl; [|done].
  destruct (o !! l) as [d|] eqn:Hd; simpl; [|done].
  intros [= <-]. destruct (tuple !! h') as [l'|] eqn:Hl'; simpl; [|done].
  rewrite lookup_insert_ne; [done|].
  intros <-. apply Hne. by apply (NoDup_lookup tuple h h' l).
Qed.

Lemma expected_holes_nodup : NoDup EXPECTED_HOLES.
Proof. compute_done. Qed.

Lemma expected_after_write (h h' : nat) (k : string) (v : Q) o o' :
  h ≠ h' → write_hole EXPECTED_HOLES h k v o = Some o' →
  expected_position o' h' = expected_position o h'.
Proof.
  intros Hne Hw. unfold expected_position.
  by rewrite !(read_after_write _ _ _ _ _ _ _ _ expected_holes_nodup Hne Hw).
Qed.

Lemma expected_positions_other (h : nat) (holes : list nat) o o' :
  h ∉ holes → (∀ h', h ≠ h' → expected_position o' h' = expected_position o h') →
  expected_positions o' holes = expected_positions o holes.
Proof.
  intros Hnot Hsame.
  induction holes as [|h' holes IH]; [done|]. simpl.
  apply not_elem_of_cons in Hnot as [Hne Hnot].
  by rewrite (Hsame h' Hne), (IH Hnot).
Qed.

(** The absolute moves of the loop over the holes go to the positions the
    table gave for them when the loop started. *)
Lemma detect_moves (holes : list nat) (et : Q) (tab : option (Q * Q)) w :
  NoDup holes →
  ∃ evs, trace (detect_holes holes EXPECTED_HOLES et tab w).2 = trace w ++ evs
         ∧ abs_moves evs `prefix_of` expected_positions (objects w) holes.
Proof.
  revert tab w. induction holes as [|hole rest IH]; intros tab w Hnd;
    cbn [detect_holes].
  { exists []. rewrite app_nil_r. split; [done|]. apply prefix_nil. }
  apply NoDup_cons in Hnd as [Hnot Hnd].
  destruct (is_cancelled_frame w) as [Ho Ht].
  destruct (is_cancelled w) as [c w0]. cbn [fst snd] in *.
  cbn [expected_positions]. rewrite <- Ho, <- Ht. clear Ho Ht w.
  destruct c.
  { exists []. rewrite app_nil_r. split; [done|]. apply prefix_nil. }
  unfold expected_position at 1. cbv zeta. cbn [objects upd_world].
  destruct (read_hole EXPECTED_HOLES hole "x" (objects w0)) as [x|] eqn:Hx;
    cbn [mbind option_bind];
    [|exists []; cbn [snd trace upd_world]; rewrite !app_nil_r;
      split; [done|apply prefix_nil]].
  destruct (read_hole EXPECTED_HOLES hole "y" (objects w0)) as [y|] eqn:Hy;
    cbn [mbind option_bind];
    [|exists []; cbn [snd trace upd_world]; rewrite !app_nil_r;
      split; [done|apply prefix_nil]].
  match goal with |- context [center_on_hole MAX_STEPS et tab ?wa] =>
    destruct (center_frame MAX_STEPS et tab wa) as (Hoc & cevs & Htc & Hmc);
    destruct (center_on_hole MAX_STEPS et tab wa) as [res wb] end.
  cbn [fst snd objects trace upd_world] in Hoc, Htc.
  rewrite app_nil_r in Htc.
  assert (Hone : ∀ l, abs_moves ([MoveAbs (x, y)] ++ cevs) `prefix_of` (x, y) :: l).
  { intros l. rewrite abs_moves_app, Hmc. cbn. apply prefix_cons, prefix_nil. }
  destruct res as [[tab'|]|e]; cbn [fst snd];
    try (exists ([MoveAbs (x, y)] ++ cevs);
         rewrite Htc, <- (assoc_L (++)); split; [done|apply Hone]).
  destruct (write_hole EXPECTED_HOLES hole "x" _ (objects wb))
    as [o1|] eqn:Hw1;
    [|cbn [snd]; exists ([MoveAbs (x, y)] ++ cevs);
      rewrite Htc, <- (assoc_L (++)); split; [done|apply Hone]].
  destruct (write_hole EXPECTED_HOLES hole "y" _ o1) as [o2|] eqn:Hw2;
    [|cbn [snd]; exists ([MoveAbs (x, y)] ++ cevs);
      rewrite Htc, <- (assoc_L (++)); split; [done|apply Hone]].
  match goal with |- context [detect_holes rest _ et ?t ?wc] =>
    destruct (IH t wc Hnd) as (evs & Hte & Hpre) end.
  cbn [objects trace upd_world] in Hte, Hpre.
  exists (([MoveAbs (x, y)] ++ cevs) ++ evs).
  rewrite Hte, app_nil_r, Htc, <- !(assoc_L (++)). split; [done|].
  rewrite (assoc_L (++)), abs_moves_app, abs_moves_app, Hmc. cbn.
  apply prefix_cons.
  rewrite (expected_positions_other hole rest (objects w0) o2 Hnot) in Hpre;
    [done|].
  intros h' Hne.
  rewrite (expected_after_write _ _ _ _ _ _ Hne Hw2),
    (expected_after_write _ _ _ _ _ _ Hne Hw1). by rewrite Hoc.
Qed.

Lemma finally_frame {A} (r : result A) w :
  objects (finally_ r w).2 = objects w ∧ trace (finally_ r w).2 = trace w.
Proof.
  unfold finally_. destruct (is_cancelled_frame w) as [Ho Ht].
  destruct (is_cancelled w) as [c w0]. cbn [fst snd] in *.
  destruct c; cbn [snd objects trace upd_world]; [done|].
  by rewrite app_nil_r.
Qed.

Lemma finally_ret {A} (r : result A) (a : A) w w' :
  finally_ r w = (Ret a, w') → r = Ret a.
Proof.
  unfold finally_. destruct (is_cancelled w) as [c w0].
  destruct c; [done|]. by intros [= -> _].
Qed.

(** ** What a run stores *)

Lemma is_cancelled_same w :
  objects (is_cancelled w).2 = objects w
  ∧ trace (is_cancelled w).2 = trace w
  ∧ sem_stage (is_cancelled w).2 = sem_stage w
  ∧ images (is_cancelled w).2 = images w
  ∧ taken (is_cancelled w).2 = taken w.
Proof. unfold is_cancelled. cbn. by rewrite app_nil_r. Qed.

Lemma replay_app (a b : list hd_event) (st : S) :
  replay (a ++ b) st = replay b (replay a st).
Proof. apply foldl_app. Qed.

Lemma images_got_app (a b : list hd_event) :
  images_got (a ++ b) = images_got a ++ images_got b.
Proof. apply omap_app. Qed.

(** Centring on a hole: the stage is where the relative moves of the
    trace have taken it, and the offset handed on is the one of the last
    image taken, or the one handed in when no image was taken. *)
Lemma center_found (remaining : nat) (et : Q) (tab : option (Q * Q)) w :
  ∃ evs,
    trace (center_on_hole remaining et tab w).2 = trace w ++ evs
    ∧ abs_moves evs = []
    ∧ sem_stage (center_on_hole remaining et tab w).2
      = replay evs (sem_stage w)
    ∧ objects (center_on_hole remaining et tab w).2 = objects w
    ∧ images (center_on_hole remaining et tab w).2 = images w
    ∧ taken (center_on_hole remaining et tab w).2
      = (taken w + length (images_got evs))%nat
    ∧ ∀ t, (center_on_hole remaining et tab w).1 = Ret t →
        (remaining ≠ 0%nat → (0 < length (images_got evs))%nat)
        ∧ t = match length (images_got evs) with
              | O => tab
              | Datatypes.S n => hole_offset (images w (taken w + n))
              end.
Proof.
  revert tab w. induction remaining as [|r IH]; intros tab w;
    cbn [center_on_hole].
  - destruct (is_cancelled_same w) as (Ho & Ht & Hs & Hi & Hk).
    destruct (is_cancelled w) as [c w0]. cbn [fst snd] in *.
    exists []. rewrite app_nil_r, Nat.add_0_r.
    destruct c; cbn [fst snd]; (do 6 (split; [done|])); intros t Hr;
      [done|]. injection Hr as <-. done.
  - destruct (is_cancelled_same w) as (Ho & Ht & Hs & Hi & Hk).
    destruct (is_cancelled w) as [c w0]. cbn [fst snd] in *.
    destruct c; cbn [fst snd].
    { exists []. rewrite app_nil_r, Nat.add_0_r.
      by do 6 (split; [done|]). }
    destruct (hole_center (images w0 (taken w0))) as [hc|] eqn:Hhc;
      cbn [fst snd trace sem_stage objects images taken upd_world].
    2:{ exists [GetImage]. rewrite Ht, Hs, Ho, Hi, Hk. cbn.
        do 5 (split; [done|]). split; [lia|]. done. }
    match goal with |- context [close_enough ?t] =>
      set (tab' := t); destruct (close_enough tab') eqn:Hclose end;
      cbn [fst snd trace sem_stage objects images taken upd_world].
    { exists [GetImage]. rewrite Ht, Hs, Ho, Hi, Hk. cbn.
      do 5 (split; [done|]). split; [lia|].
      intros t Hr. injection Hr as <-. split; [intros _; lia|].
      unfold hole_offset. rewrite Nat.add_0_r, <- Hi, <- Hk, Hhc. done. }
    match goal with |- context [center_on_hole r et ?t ?w1] =>
      destruct (IH t w1) as (evs & Ht1 & Hm & Hs1 & Ho1 & Hi1 & Hk1 & Hret);
      set (res := center_on_hole r et t w1) in *
    end.
    cbn [trace sem_stage objects images taken upd_world] in *.
    exists ([GetImage] ++ [MoveRel tab'; SetEndTime et tab'] ++ evs).
    rewrite Ht1, Hs1, Ho1, Hi1, Hk1, Ht, Hs, Ho, Hi, Hk.
    rewrite <- !(assoc_L (++)).
    split; [done|]. split; [by rewrite !abs_moves_app, Hm|].
    split; [by rewrite !replay_app|]. split; [done|]. split; [done|].
    rewrite !images_got_app. change (images_got [GetImage]) with [()].
    change (images_got [MoveRel tab'; SetEndTime et tab']) with (@nil unit).
    cbn [length app].
    split; [lia|].
    intros t Hr. destruct (Hret t Hr) as [_ ->]. split; [intros _; lia|].
    destruct (length (images_got evs)) as [|n] eqn:Hn.
    + unfold hole_offset. rewrite Nat.add_0_r, <- Hi, <- Hk, Hhc. done.
    + rewrite Hi, Hk. do 2 f_equal. lia.
Qed.

Lemma write_both (h : nat) (vx vy : Q) o o1 o2 :
  write_hole EXPECTED_HOLES h "x" vx o = Some o1 →
  write_hole EXPECTED_HOLES h "y" vy o1 = Some o2 →
  expected_position o2 h = Some (vx, vy).
Proof.
  unfold write_hole, expected_position, read_hole.
  destruct (EXPECTED_HOLES !! h) as [l|]; [|done]. cbn.
  destruct (o !! l) as [d|]; [|done]. cbn. intros [= <-].
  rewrite lookup_insert, decide_True by done. cbn. intros [= <-].
  rewrite lookup_insert, decide_True by done. cbn.
  rewrite !lookup_insert.
  rewrite (decide_False (P:=("y" = "x"))) by (intros [=]).
  by rewrite !decide_True.
Qed.

(** One turn of the loop over the holes that goes on to the next: the
    stage went to the position the table gave, then where centring took
    it, and the table now gives for the hole the position of the stage
    plus the offset of the last image. *)
Lemma detect_cons_ret (hole : nat) (rest : list nat) (et : Q)
    (tab : option (Q * Q)) w wf :
  detect_holes (hole :: rest) EXPECTED_HOLES et tab w = (Ret tt, wf) →
  ∃ (p : Q * Q) (cevs : list hd_event) (t : Q * Q) wm,
    expected_position (objects w) hole = Some p
    ∧ trace wm = trace w ++ MoveAbs p :: cevs
    ∧ abs_moves cevs = []
    ∧ sem_stage wm = replay (MoveAbs p :: cevs) (sem_stage w)
    ∧ images wm = images w
    ∧ taken wm = (taken w + length (images_got cevs))%nat
    ∧ (0 < length (images_got cevs))%nat
    ∧ hole_offset (images w (taken wm - 1)) = Some t
    ∧ expected_position (objects wm) hole
      = Some (position_plus (sem_stage wm) t)
    ∧ (∀ h', hole ≠ h' →
         expected_position (objects wm) h' = expected_position (objects w) h')
    ∧ detect_holes rest EXPECTED_HOLES et (Some t) wm = (Ret tt, wf).
Proof.
  cbn [detect_holes].
  destruct (is_cancelled_same w) as (Ho & Ht & Hs & Hi & Hk).
  destruct (is_cancelled w) as [c w0]. cbn [fst snd] in *.
  destruct c; [done|]. cbv zeta. cbn [objects upd_world].
  unfold expected_position at 1. rewrite <- !Ho.
  destruct (read_hole EXPECTED_HOLES hole "x" (objects w0)) as [x|] eqn:Hx;
    [|done].
  destruct (read_hole EXPECTED_HOLES hole "y" (objects w0)) as [y|] eqn:Hy;
    [|done].
  cbn [mbind option_bind].
  match goal with |- context [center_on_hole MAX_STEPS et tab ?wa] =>
    destruct (center_found MAX_STEPS et tab wa)
      as (cevs & Htc & Hmc & Hsc & Hoc & Hic & Hkc & Hret);
    destruct (center_on_hole MAX_STEPS et tab wa) as [res wb] end.
  cbn [fst snd objects trace sem_stage images taken upd_world] in *.
  destruct res as [[t|]|e]; [|done|done].
  destruct (Hret _ eq_refl) as [Hpos Ht']. specialize (Hpos ltac:(done)).
  destruct (write_hole EXPECTED_HOLES hole "x" _ (objects wb))
    as [o1|] eqn:Hw1; [|done].
  destruct (write_hole EXPECTED_HOLES hole "y" _ o1) as [o2|] eqn:Hw2;
    [|done].
  intros Hrest.
  match type of Hrest with detect_holes _ _ _ _ ?wm = _ =>
    exists (x, y), cevs, t, wm end.
  split; [done|]. cbn [trace sem_stage images taken objects upd_world].
  repeat match goal with |- _ ∧ _ => split end.
  - by rewrite Htc, Ht, !app_nil_r, <- (assoc_L (++)).
  - done.
  - by rewrite Hsc, Hs.
  - by rewrite Hic.
  - by rewrite Hkc, Hk.
  - done.
  - destruct (length (images_got cevs)) as [|n]; [lia|].
    rewrite Ht', Hi, Hkc, Hk. do 2 f_equal. lia.
  - by rewrite (write_both _ _ _ _ _ _ Hw1 Hw2).
  - intros h' Hne.
    rewrite (expected_after_write _ _ _ _ _ _ Hne Hw2),
      (expected_after_write _ _ _ _ _ _ Hne Hw1). by rewrite Hoc.
  - exact Hrest.
Qed.

Lemma finally_same {A} (r : result A) w :
  objects (finally_ r w).2 = objects w ∧ trace (finally_ r w).2 = trace w
  ∧ sem_stage (finally_ r w).2 = sem_stage w.
Proof.
  unfold finally_.
  destruct (is_cancelled_same w) as (Ho & Ht & Hs & _).
  destruct (is_cancelled w) as [c w0]. cbn [fst snd] in *.
  destruct c; cbn [snd objects trace sem_stage upd_world]; [done|].
  by rewrite app_nil_r.
Qed.

Lemma expected_position_reads o (h : nat) (p : Q * Q) :
  expected_position o h = Some p →
  read_hole EXPECTED_HOLES h "x" o = Some (fst p)
  ∧ read_hole EXPECTED_HOLES h "y" o = Some (snd p).
Proof.
  unfold expected_position.
  destruct (read_hole EXPECTED_HOLES h "x" o) as [x|]; [|done].
  destruct (read_hole EXPECTED_HOLES h "y" o) as [y|]; [|done].
  by intros [= <-].
Qed.

(** C10: [holes_found] is the tuple [EXPECTED_HOLES] itself. A run of
    hole detection that returns has moved, for either hole, to the
    position the table gave when the run started, and centred from
    there; what it returns for a hole is the position of the stage at the
    end of that centring plus the offset of the hole in the last image
    taken for it, and that is what the table of expected positions gives
    for the hole once the run is over. So the table has changed as soon
    as one found position is another point than the one the table gave;
    and whatever a later run on that table does, its absolute moves go,
    in order, to the found positions. *)
Theorem hole_detection_rewrites_table w w1 (first_hole second_hole : Q * Q) :
  _DoHoleDetection w = (Ret (first_hole, second_hole), w1) →
  ∃ (p0 p1 : Q * Q) (c0 c1 : list hd_event) (t0 t1 : Q * Q),
    let n0 := length (images_got c0) in
    let n1 := length (images_got c1) in
    expected_position (objects w) 0 = Some p0
    ∧ expected_position (objects w) 1 = Some p1
    ∧ new_events w w1 = (MoveAbs p0 :: c0) ++ MoveAbs p1 :: c1
    ∧ abs_moves c0 = [] ∧ abs_moves c1 = []
    ∧ (0 < n0)%nat ∧ (0 < n1)%nat
    ∧ hole_offset (images w (taken w + n0 - 1)) = Some t0
    ∧ hole_offset (images w (taken w + n0 + n1 - 1)) = Some t1
    ∧ first_hole
      = position_plus (replay (MoveAbs p0 :: c0) (sem_stage w)) t0
    ∧ second_hole
      = position_plus
          (replay ((MoveAbs p0 :: c0) ++ MoveAbs p1 :: c1) (sem_stage w)) t1
    ∧ expected_position (objects w1) 0 = Some first_hole
    ∧ expected_position (objects w1) 1 = Some second_hole
    ∧ (¬ same_point first_hole p0 ∨ ¬ same_point second_hole p1 →
       objects w1 ≠ objects w)
    ∧ ∀ w2, objects w2 = objects w1 →
            abs_moves (new_events w2 (_DoHoleDetection w2).2)
              `prefix_of` [first_hole; second_hole].
Proof.
  intros Hrun.
  assert (Hfound : ∃ (p0 p1 : Q * Q) (c0 c1 : list hd_event) (t0 t1 : Q * Q),
    expected_position (objects w) 0 = Some p0
    ∧ expected_position (objects w) 1 = Some p1
    ∧ new_events w w1 = (MoveAbs p0 :: c0) ++ MoveAbs p1 :: c1
    ∧ abs_moves c0 = [] ∧ abs_moves c1 = []
    ∧ (0 < length (images_got c0))%nat ∧ (0 < length (images_got c1))%nat
    ∧ hole_offset (images w (taken w + length (images_got c0) - 1)) = Some t0
    ∧ hole_offset (images w (taken w + length (images_got c0)
                             + length (images_got c1) - 1)) = Some t1
    ∧ first_hole
      = position_plus (replay (MoveAbs p0 :: c0) (sem_stage w)) t0
    ∧ second_hole
      = position_plus
          (replay ((MoveAbs p0 :: c0) ++ MoveAbs p1 :: c1) (sem_stage w)) t1
    ∧ expected_position (objects w1) 0 = Some first_hole
    ∧ expected_position (objects w1) 1 = Some second_hole).
  { revert Hrun. unfold _DoHoleDetection. cbv zeta.
    change (seq 0 NUMBER_OF_HOLES) with [0; 1]%nat.
    match goal with |- context [detect_holes ?hs ?hf ?et ?t ?wi] =>
      set (w0 := wi);
      destruct (detect_holes hs hf et t w0) as [[[]|e] wd] eqn:Hd end;
      [|intros Hf; by apply finally_ret in Hf].
    apply detect_cons_ret in Hd
      as (p0 & c0 & t0 & wa & Hp0 & Hta & Hma & Hsa & Hia & Hka & Hna & Hoa
          & Hea & Hoth & Hd).
    apply detect_cons_ret in Hd
      as (p1 & c1 & t1 & wb & Hp1 & Htb & Hmb & Hsb & Hib & Hkb & Hnb & Hob
          & Heb & Hoth' & Hd).
    cbn [detect_holes] in Hd. injection Hd as <-.
    rewrite (Hoth 1%nat) in Hp1 by done.
    pose proof (Hoth' 0%nat ltac:(done)) as Hkeep. rewrite Hea in Hkeep.
    cbn [objects trace sem_stage images taken upd_world w0] in *.
    rewrite app_nil_r in Hta.
    destruct (expected_position_reads _ _ _ Hkeep) as [-> ->].
    destruct (expected_position_reads _ _ _ Heb) as [-> ->].
    intros Hf. pose proof (finally_ret _ _ _ _ Hf) as [= <- <-].
    match type of Hf with finally_ ?r _ = _ =>
      destruct (finally_same r wb) as (Ho & Ht & _) end.
    rewrite Hf in Ho, Ht. cbn [snd] in Ho, Ht.
    exists p0, p1, c0, c1, t0, t1.
    split; [done|]. split; [done|].
    split.
    { apply new_events_app. rewrite Ht, Htb, Hta.
      by rewrite <- !(assoc_L (++)). }
    split; [done|]. split; [done|]. split; [done|]. split; [done|].
    split; [by rewrite <- Hoa, Hka|].
    split; [by rewrite <- Hob, Hia, Hkb, Hka|].
    rewrite replay_app, <- Hsa, <- Hsb.
    split; [done|]. split; [done|]. by rewrite Ho, Hkeep, Heb. }
  destruct Hfound as (p0 & p1 & c0 & c1 & t0 & t1 & Hp0 & Hp1 & Hev & Hm0
                      & Hm1 & Hn0 & Hn1 & Ho0 & Ho1 & Hf0 & Hf1 & H0 & H1).
  exists p0, p1, c0, c1, t0, t1. cbv zeta.
  do 13 (split; [done|]).
  split.
  { intros Hne Heq. rewrite Heq, Hp0 in H0. rewrite Heq, Hp1 in H1.
    injection H0 as <-. injection H1 as <-.
    destruct Hne as [Hne|Hne]; apply Hne; by split. }
  intros w2 Ho2. unfold _DoHoleDetection. cbv zeta.
  match goal with |- context [detect_holes ?hs ?hf ?et ?t ?w0] =>
    destruct (detect_moves hs et t w0) as (evs & Ht & Hpre);
      [compute_done|];
    destruct (detect_holes hs hf et t w0) as [r wd] end.
  cbn [snd objects trace upd_world expected_positions seq NUMBER_OF_HOLES]
    in Ht, Hpre.
  rewrite Ho2, H0, H1, app_nil_r in *.
  assert (Hnew : ∀ {A} (r' : result A),
             new_events w2 (finally_ r' wd).2 = evs).
  { intros A r'. apply new_events_app.
    destruct (finally_frame r' wd) as [_ ->]. done. }
  destruct r as [[]|e]; [|by rewrite Hnew].
  destruct (read_hole EXPECTED_HOLES 0 "x" (objects wd));
    [|by rewrite Hnew].
  destruct (read_hole EXPECTED_HOLES 0 "y" (objects wd));
    [|by rewrite Hnew].
  destruct (read_hole EXPECTED_HOLES 1 "x" (objects wd));
    [|by rewrite Hnew].
  destruct (read_hole EXPECTED_HOLES 1 "y" (objects wd));
    by rewrite Hnew.
Qed.

End Holes.

Lemma hole_detection_rewrites_table_witness :
  let w := demo_world configured_holes in
  let w1 := (_DoHoleDetection w).2 in
  let first_hole : Q * Q :=
    (400000000 # 4000000000000, 44000000000000 # 4000000000000000) in
  let second_hole : Q * Q := (0 # 2000000, -22000000 # 2000000000) in
  ∃ (p0 p1 : Q * Q) (c0 c1 : list hd_event) (t0 t1 : Q * Q),
    let n0 := length (images_got c0) in
    let n1 := length (images_got c1) in
    expected_position (objects w) 0 = Some p0
    ∧ expected_position (objects w) 1 = Some p1
    ∧ new_events w w1 = (MoveAbs p0 :: c0) ++ MoveAbs p1 :: c1
    ∧ abs_moves c0 = [] ∧ abs_moves c1 = []
    ∧ (0 < n0)%nat ∧ (0 < n1)%nat
    ∧ hole_offset (images w (taken w + n0 - 1)) = Some t0
    ∧ hole_offset (images w (taken w + n0 + n1 - 1)) = Some t1
    ∧ first_hole
      = position_plus (replay (MoveAbs p0 :: c0) (sem_stage w)) t0
    ∧ second_hole
      = position_plus
          (replay ((MoveAbs p0 :: c0) ++ MoveAbs p1 :: c1) (sem_stage w)) t1
    ∧ expected_position (objects w1) 0 = Some first_hole
    ∧ expected_position (objects w1) 1 = Some second_hole
    ∧ (¬ same_point first_hole p0 ∨ ¬ same_point second_hole p1 →
       objects w1 ≠ objects w)
    ∧ ∀ w2 : @world (Q * Q), objects w2 = objects w1 →
            abs_moves (new_events w2 (_DoHoleDetection w2).2)
              `prefix_of` [first_hole; second_hole].
Proof.
  apply (hole_detection_rewrites_table (demo_world configured_holes)).
  vm_compute. reflexivity.
Defined.

(** On the ideal stage: the first run finds the first hole 0.1 mm off
    the configured position and leaves a changed table; the second run
    then starts from the found position, not from the configured
    [(0, 11e-3)]. *)
Example second_run_moves_to_found :
  let w1 := (_DoHoleDetection (demo_world configured_holes)).2 in
  expected_position configured_holes 0 = Some (0%Q, 11 # 1000)
  ∧ head (abs_moves (trace (_DoHoleDetection
                              (demo_world configured_holes)).2))
    = Some (0%Q, 11 # 1000)
  ∧ objects w1 ≠ configured_holes
  ∧ head (abs_moves (trace (_DoHoleDetection (demo_world (objects w1))).2))
    = Some (400000000 # 4000000000000, 44000000000000 # 4000000000000000)
  ∧ ¬ (400000000 # 4000000000000 == 0)%Q.
Proof.
  cbv zeta. split; [vm_compute; reflexivity|].
  split; [vm_compute; reflexivity|]. split.
  { intros E. apply (f_equal (λ o, expected_position o 0)) in E.
    vm_compute in E. discriminate. }
  split; [vm_compute; reflexivity|]. by vm_compute.
Qed.

End DelphiFacts.

(* ===================================================================== *)
(** * Properties of the camera settings                                   *)
(* ===================================================================== *)

Module PVCamSettingsFacts.

Import PVCam PVCamSettings.
Local Open Scope Z_scope.

Lemma land_15 (x : Z) : Z.land x 15 = x mod 16.
Proof. change 15 with (Z.ones 4). by rewrite Z.land_ones. Qed.

Lemma land_255 (x : Z) : Z.land x 255 = x mod 256.
Proof. change 255 with (Z.ones 8). by rewrite Z.land_ones. Qed.

Lemma int2version_parts_eq (raw : Z) :
  _int2version_parts raw
  = [(raw / 256) mod 256; (raw / 16) mod 16; raw mod 16].
Proof.
  unfold _int2version_parts. cbv zeta.
  rewrite !land_15, land_255, Z.shiftr_shiftr, !Z.shiftr_div_pow2 by lia.
  done.
Qed.

(** X1: [_int2version] splits a 16-bit raw value into a major version below
    256 and a minor and a trivial version below 16, from which the raw
    value is recovered as [major * 256 + minor * 16 + trivial]; so two
    16-bit values with the same version parts are equal. Bits above the
    sixteenth are dropped. *)
Theorem int2version_lossless (raw other : Z) :
  0 ≤ raw < 65536 → 0 ≤ other < 65536 →
  (∃ major minor trivial,
      _int2version_parts raw = [major; minor; trivial]
      ∧ 0 ≤ major < 256 ∧ 0 ≤ minor < 16 ∧ 0 ≤ trivial < 16
      ∧ raw = major * 256 + minor * 16 + trivial
      ∧ _int2version raw
        = String.concat "." [pretty major; pretty minor; pretty trivial])
  ∧ (_int2version_parts other = _int2version_parts raw → other = raw)
  ∧ _int2version_parts (raw + 65536 * other) = _int2version_parts raw.
Proof.
  intros Hr Ho. rewrite !int2version_parts_eq. split; [|split].
  - exists ((raw / 256) mod 256), ((raw / 16) mod 16), (raw mod 16).
    split; [done|]. unfold _int2version. rewrite int2version_parts_eq.
    repeat split; try (apply Z.mod_pos_bound; lia); try done.
    Z.div_mod_to_equations. lia.
  - intros [= H1 H2 H3]. revert H1 H2 H3. Z.div_mod_to_equations. lia.
  - f_equal; [|f_equal; [|f_equal]]; Z.div_mod_to_equations; lia.
Qed.

Lemma int2version_lossless_witness :
  (∃ major minor trivial,
      _int2version_parts 0x0234 = [major; minor; trivial]
      ∧ 0 ≤ major < 256 ∧ 0 ≤ minor < 16 ∧ 0 ≤ trivial < 16
      ∧ 0x0234 = major * 256 + minor * 16 + trivial
      ∧ _int2version 0x0234
        = String.concat "." [pretty major; pretty minor; pretty trivial])
  ∧ (_int2version_parts 7 = _int2version_parts 0x0234 → 7 = 0x0234)
  ∧ _int2version_parts (0x0234 + 65536 * 7) = _int2version_parts 0x0234.
Proof.
  apply (int2version_lossless 0x0234 7).
  - lia.
  - lia.
Defined.

Example int2version_2_3_4 : _int2version 0x0234 = "2.3.4".
Proof. reflexivity. Qed.

(** ** Resolution and region of interest *)

Lemma floordiv_pos (a b : Z) : 0 < b → floordiv a b = Val (a / b).
Proof. intros Hb. unfold floordiv. case_decide; [lia|done]. Qed.

Lemma ceildiv_pos (a b : Z) : 0 < b → ceildiv a b = Val (- ((- a) / b)).
Proof. intros Hb. unfold ceildiv. case_decide; [lia|done]. Qed.

Lemma resolutionFitter_pos (c : camera) (req : Z * Z) :
  0 < (_binning c).1 → 0 < (_binning c).2 →
  resolutionFitter c req
  = Val (Z.max (- ((- (resolution_min c).1) / (_binning c).1))
               (Z.min req.1 ((_shape c).1 / (_binning c).1)),
         Z.max (- ((- (resolution_min c).1) / (_binning c).1))
               (Z.min req.2 ((_shape c).2 / (_binning c).2))).
Proof.
  intros H0 H1. unfold resolutionFitter.
  by rewrite !floordiv_pos, !ceildiv_pos by done.
Qed.

(** X2: [resolutionFitter], for positive binnings and a minimal width (in
    super-pixels) [mn] that fits in both the width [mx0] and the height
    [mx1] of the binned sensor: every request gets a size with both
    components between [mn] and the binned sensor size, fitting that size
    again returns it, and a request already within those bounds is
    returned as it is. *)
Theorem resolutionFitter_fits (c : camera) (req ok : Z * Z) :
  let mn := - ((- (resolution_min c).1) / (_binning c).1) in
  let mx0 := (_shape c).1 / (_binning c).1 in
  let mx1 := (_shape c).2 / (_binning c).2 in
  0 < (_binning c).1 → 0 < (_binning c).2 → mn ≤ mx0 → mn ≤ mx1 →
  mn ≤ ok.1 ≤ mx0 → mn ≤ ok.2 ≤ mx1 →
  resolutionFitter c ok = Val ok
  ∧ ∃ size, resolutionFitter c req = Val size
            ∧ mn ≤ size.1 ≤ mx0 ∧ mn ≤ size.2 ≤ mx1
            ∧ resolutionFitter c size = Val size.
Proof.
  intros mn mx0 mx1 H0 H1 Hm0 Hm1 Hok0 Hok1.
  rewrite !resolutionFitter_pos by done. fold mn mx0 mx1. split.
  - destruct ok as [a b]. simpl in *. f_equal. f_equal; lia.
  - eexists. split; [reflexivity|]. rewrite resolutionFitter_pos by done.
    fold mn mx0 mx1. simpl. repeat split; try lia. f_equal. f_equal; lia.
Qed.

Lemma resolutionFitter_fits_witness :
  resolutionFitter demo_camera (100, 50) = Val (100, 50)
  ∧ ∃ size, resolutionFitter demo_camera (5000, 0) = Val size
            ∧ 1 ≤ size.1 ≤ 512 ∧ 1 ≤ size.2 ≤ 128
            ∧ resolutionFitter demo_camera size = Val size.
Proof.
  apply (resolutionFitter_fits demo_camera (5000, 0) (100, 50)).
  - reflexivity.
  - reflexivity.
  - vm_compute. discriminate.
  - vm_compute. discriminate.
  - vm_compute. split; discriminate.
  - vm_compute. split; discriminate.
Defined.

(** One axis of the region [_storeSize] computes. *)
Lemma store_axis (w b s : Z) :
  0 < b → 1 ≤ s → s ≤ w / b →
  let l := (w / b - s) / 2 in
  0 ≤ l * b ∧ l * b ≤ (l + s) * b - 1 ∧ (l + s) * b - 1 < w
  ∧ ((l + s) * b - 1 - l * b + 1) / b = s
  ∧ (l + s) * b - 1 - l * b + 1 = s * b
  ∧ 0 ≤ w - 1 - ((l + s) * b - 1) - l * b < 2 * b.
Proof.
  intros Hb Hs Hsw l.
  assert (Hl : 0 ≤ l ∧ 2 * l ≤ w / b - s ∧ w / b - s ≤ 2 * l + 1).
  { unfold l. Z.div_mod_to_equations. lia. }
  assert (Hq : (w / b) * b ≤ w ∧ w < (w / b) * b + b).
  { Z.div_mod_to_equations. nia. }
  replace ((l + s) * b - 1 - l * b + 1) with (s * b) by lia.
  rewrite Z.div_mul by lia. repeat split; try nia.
Qed.

Lemma storeSize_readback (c c' : camera) (size : Z * Z) :
  0 < (_binning c).1 → 0 < (_binning c).2 →
  _storeSize c size = Val c' →
  c' = with_rect (_image_rect c') c ∧ region_size c' = Val size.
Proof.
  intros H0 H1. unfold _storeSize.
  rewrite !floordiv_pos by done. simpl.
  case_bool_decide as Ha; [|done]. intros [= <-].
  destruct c as [[w h] mr [b0 b1] rect e r g p m1 m2 m3 m4 m5].
  destruct size as [sw sh]. simpl in *. split; [done|].
  destruct (store_axis w b0 sw H0) as (_ & _ & _ & E0 & _); [lia|lia|].
  destruct (store_axis h b1 sh H1) as (_ & _ & _ & E1 & _); [lia|lia|].
  unfold region_size. simpl. rewrite !floordiv_pos by done. simpl.
  by rewrite E0, E1.
Qed.

(** X3: [_storeSize] with positive binning, when its assertion holds: the
    region lies inside the sensor, spans exactly [size] super-pixels in
    each direction, is centred up to less than two super-pixels (the
    right margin is the left one plus less than twice the binning), and
    the size [_update_settings] computes back from it is [size];
    nothing but the region changes. *)
Theorem storeSize_region (c c' : camera) (size : Z * Z) :
  0 < (_binning c).1 → 0 < (_binning c).2 →
  _storeSize c size = Val c' →
  c' = with_rect (_image_rect c') c
  ∧ region_size c' = Val size
  ∧ (let '(s1, s2, p1, p2) := _image_rect c' in
     0 ≤ s1 ∧ s1 ≤ s2 ∧ s2 < (_shape c).1
     ∧ 0 ≤ p1 ∧ p1 ≤ p2 ∧ p2 < (_shape c).2
     ∧ s2 - s1 + 1 = size.1 * (_binning c).1
     ∧ p2 - p1 + 1 = size.2 * (_binning c).2
     ∧ 0 ≤ ((_shape c).1 - 1 - s2) - s1 < 2 * (_binning c).1
     ∧ 0 ≤ ((_shape c).2 - 1 - p2) - p1 < 2 * (_binning c).2).
Proof.
  intros H0 H1 Hs.
  destruct (storeSize_readback c c' size H0 H1 Hs) as [Hc Hr].
  split; [done|]. split; [done|].
  revert Hs. unfold _storeSize. rewrite !floordiv_pos by done. simpl.
  case_bool_decide as Ha; [|done]. intros [= <-]. simpl.
  destruct (store_axis (_shape c).1 (_binning c).1 size.1 H0)
    as (? & ? & ? & _ & ? & ? & ?); [lia|lia|].
  destruct (store_axis (_shape c).2 (_binning c).2 size.2 H1)
    as (? & ? & ? & _ & ? & ? & ?); [lia|lia|].
  repeat split; lia.
Qed.

Lemma storeSize_region_witness :
  with_rect (412, 611, 78, 177) demo_camera
  = with_rect (_image_rect (with_rect (412, 611, 78, 177) demo_camera))
              demo_camera
  ∧ region_size (with_rect (412, 611, 78, 177) demo_camera) = Val (100, 50)
  ∧ (let '(s1, s2, p1, p2) :=
       _image_rect (with_rect (412, 611, 78, 177) demo_camera) in
     0 ≤ s1 ∧ s1 ≤ s2 ∧ s2 < (_shape demo_camera).1
     ∧ 0 ≤ p1 ∧ p1 ≤ p2 ∧ p2 < (_shape demo_camera).2
     ∧ s2 - s1 + 1 = (100, 50).1 * (_binning demo_camera).1
     ∧ p2 - p1 + 1 = (100, 50).2 * (_binning demo_camera).2
     ∧ 0 ≤ ((_shape demo_camera).1 - 1 - s2) - s1
       < 2 * (_binning demo_camera).1
     ∧ 0 ≤ ((_shape demo_camera).2 - 1 - p2) - p1
       < 2 * (_binning demo_camera).2).
Proof.
  apply (storeSize_region demo_camera
           (with_rect (412, 611, 78, 177) demo_camera) (100, 50)).
  - reflexivity.
  - reflexivity.
  - reflexivity.
Defined.

(** X4: [_setResolution] under the same conditions on the sensor, with a
    minimal width of at least one super-pixel: whatever is requested,
    the assertion of [_storeSize] holds, and the region stored gives back
    the resolution that the setter returns. *)
Theorem setResolution_accepts (c : camera) (req : Z * Z) :
  let mn := - ((- (resolution_min c).1) / (_binning c).1) in
  0 < (_binning c).1 → 0 < (_binning c).2 →
  1 ≤ mn → mn ≤ (_shape c).1 / (_binning c).1 →
  mn ≤ (_shape c).2 / (_binning c).2 →
  ∃ new_res c', _setResolution c req = Val (new_res, c')
                ∧ resolutionFitter c req = Val new_res
                ∧ region_size c' = Val new_res
                ∧ _binning c' = _binning c.
Proof.
  intros mn H0 H1 Hmn Hm0 Hm1. unfold _setResolution.
  rewrite resolutionFitter_pos by done. fold mn. simpl.
  destruct (_storeSize c _) as [c'|e] eqn:Hs.
  - destruct (storeSize_readback c c' _ H0 H1 Hs) as (Hc & Hr).
    do 2 eexists. split; [reflexivity|]. split; [done|]. split; [done|].
    by rewrite Hc.
  - exfalso. revert Hs. unfold _storeSize.
    rewrite !floordiv_pos by done. simpl.
    case_bool_decide as Ha; [done|]. exfalso. apply Ha. lia.
Qed.

Lemma setResolution_accepts_witness :
  ∃ new_res c', _setResolution demo_camera (5000, 0) = Val (new_res, c')
                ∧ resolutionFitter demo_camera (5000, 0) = Val new_res
                ∧ region_size c' = Val new_res
                ∧ _binning c' = _binning demo_camera.
Proof.
  apply (setResolution_accepts demo_camera (5000, 0)).
  - reflexivity.
  - reflexivity.
  - vm_compute. discriminate.
  - vm_compute. discriminate.
  - vm_compute. discriminate.
Defined.

(** ** Committing the settings *)

Section CommitFacts.
Variable rate_index gain_index : Q → Z.

Lemma differs_same (q : Q) : differs (Some q) q = false.
Proof. unfold differs. by rewrite Qeq_bool_refl. Qed.

Lemma need_update_committed (c : camera) :
  _prev_settings c
  = (Some (image_settings c), Some (_exposure_time c),
     Some (_readout_rate c), Some (_gain c)) →
  _need_update_settings c = false.
Proof.
  intros E. unfold _need_update_settings. rewrite E, !differs_same.
  by rewrite bool_decide_eq_true_2.
Qed.

(** [_update_settings] never touches the settings themselves. *)
Lemma update_settings_frame (c : camera) (env : commit_env) :
  let c' := (_update_settings rate_index gain_index c env).1.1 in
  _shape c' = _shape c ∧ _binning c' = _binning c
  ∧ _image_rect c' = _image_rect c ∧ _exposure_time c' = _exposure_time c
  ∧ _readout_rate c' = _readout_rate c ∧ _gain c' = _gain c.
Proof.
  unfold _update_settings.
  destruct (_prev_settings c) as [[[pi pe] pr] pg].
  destruct (differs pr (_readout_rate c)); cbn;
    [destruct (set_speed_ok env); cbn; [|done];
     destruct (Qeq_bool (_readout_rate c) 0); cbn; [done|];
     destruct (bit_depth env); cbn; [|done]|];
    repeat match goal with
           | |- context [differs ?a ?b] => destruct (differs a b); cbn
           | |- context [set_gain_ok env] => destruct (set_gain_ok env); cbn
           | |- context [region_size ?x] => destruct (region_size x); cbn
           end; done.
Qed.

(** X5: A commit that succeeds: the exposure time and the size it returns
    are the camera's, the settings are as they were, nothing needs
    updating any more, and a second commit writes nothing to the
    hardware and changes nothing, whatever the hardware would answer. *)
Theorem update_settings_commits (c c' : camera) (env env' : commit_env)
    (ws : list hw_write) (exposure : Q) (size : Z * Z) :
  _update_settings rate_index gain_index c env = (c', ws, Val (exposure, size)) →
  _need_update_settings c' = false
  ∧ exposure = _exposure_time c ∧ region_size c = Val size
  ∧ image_settings c' = image_settings c
  ∧ _readout_rate c' = _readout_rate c ∧ _gain c' = _gain c
  ∧ _update_settings rate_index gain_index c' env'
    = (c', [], Val (exposure, size)).
Proof.
  intros Hu.
  pose proof (update_settings_frame c env) as Hf. rewrite Hu in Hf.
  cbn in Hf. destruct Hf as (Hs & Hb & Hr & He & Hrr & Hg).
  assert (Hprev : _prev_settings c'
                  = (Some (image_settings c'), Some (_exposure_time c'),
                     Some (_readout_rate c'), Some (_gain c'))
                  ∧ exposure = _exposure_time c ∧ region_size c' = Val size
                  ∧ md_binning c' = Some (_binning c').1
                  ∧ md_exp_time c' = Some (_exposure_time c')).
  { revert Hu. unfold _update_settings.
    destruct (_prev_settings c) as [[[pi pe] pr] pg].
    destruct (differs pr (_readout_rate c)); cbn;
      [destruct (set_speed_ok env); cbn; [|done];
       destruct (Qeq_bool (_readout_rate c) 0); cbn; [done|];
       destruct (bit_depth env); cbn; [|done]|];
      repeat match goal with
             | |- context [differs ?a ?b] => destruct (differs a b); cbn
             | |- context [set_gain_ok env] => destruct (set_gain_ok env); cbn
             end; try done;
      match goal with
      | |- context [region_size ?x] =>
          destruct (region_size x) as [sz|] eqn:Hsz; cbn; [|done]
      end; intros [= <- <- <- <-]; cbn; done. }
  destruct Hprev as (Hp & Hexp & Hsz & Hmb & Hme).
  split; [by apply need_update_committed|]. split; [done|].
  assert (Hrs : region_size c = Val size).
  { revert Hsz. unfold region_size. by rewrite Hr, Hb. }
  split; [done|]. split; [unfold image_settings; by rewrite Hb, Hr|].
  split; [done|]. split; [done|].
  unfold _update_settings. rewrite Hp, !differs_same. cbn.
  rewrite Hsz. cbn. rewrite Hexp, <- He. do 2 f_equal.
  destruct c'. cbn in *. by rewrite Hp, Hmb, Hme.
Qed.

(** X6: which writes a commit makes: none when neither the readout rate nor
    the gain differs from what was sent last; after a change of readout
    rate a successful commit sets the speed and then the gain as well,
    whether or not the gain changed; and a commit that fails leaves
    [_prev_settings], and so the need for an update, as they were. *)
Theorem update_settings_writes (c c' : camera) (env : commit_env)
    (ws : list hw_write) (r : res (Q * (Z * Z))) :
  _update_settings rate_index gain_index c env = (c', ws, r) →
  (differs (_prev_settings c).1.2 (_readout_rate c) = false →
   differs (_prev_settings c).2 (_gain c) = false → ws = [])
  ∧ (differs (_prev_settings c).1.2 (_readout_rate c) = true →
     (∃ v, r = Val v) →
     ws = [SetSpeedIndex (rate_index (_readout_rate c)); GetBitDepth;
           SetGainIndex (gain_index (_gain c))])
  ∧ ((∃ e, r = Err e) →
     _prev_settings c' = _prev_settings c
     ∧ _need_update_settings c' = _need_update_settings c).
Proof.
  intros Hu.
  pose proof (update_settings_frame c env) as Hf. rewrite Hu in Hf.
  cbn in Hf. destruct Hf as (Hs & Hb & Hr & He & Hrr & Hg).
  assert (Hneed : _prev_settings c' = _prev_settings c →
                  _need_update_settings c' = _need_update_settings c).
  { intros E. unfold _need_update_settings, image_settings.
    by rewrite E, Hb, Hr, He, Hrr, Hg. }
  revert Hu Hneed. unfold _update_settings.
  destruct (_prev_settings c) as [[[pi pe] pr] pg] eqn:Hp. cbn [fst snd].
  destruct (differs pr (_readout_rate c)) eqn:Hdr; cbn;
    [destruct (set_speed_ok env); cbn;
     [destruct (Qeq_bool (_readout_rate c) 0); cbn;
      [|destruct (bit_depth env); cbn]|]|];
    repeat match goal with
           | |- context [differs ?a ?b] =>
               let E := fresh "Hd" in destruct (differs a b) eqn:E; cbn
           | |- context [set_gain_ok env] => destruct (set_gain_ok env); cbn
           | |- context [region_size ?x] => destruct (region_size x); cbn
           end;
    intros [= <- <- <-] Hneed; cbn in *;
    (split; [intros; done || congruence|]);
    (split; [intros ? [v ?]; done || congruence|]);
    intros [? ?]; try done; try congruence; split; auto.
Qed.

Lemma update_settings_prev (c c' : camera) (env : commit_env)
    (ws : list hw_write) (exposure : Q) (size : Z * Z) :
  _update_settings rate_index gain_index c env = (c', ws, Val (exposure, size)) →
  _prev_settings c'
  = (Some (image_settings c'), Some (_exposure_time c'),
     Some (_readout_rate c'), Some (_gain c'))
  ∧ region_size c' = Val size.
Proof.
  unfold _update_settings.
  destruct (_prev_settings c) as [[[pi pe] pr] pg].
  destruct (differs pr (_readout_rate c)); cbn;
    [destruct (set_speed_ok env); cbn; [|done];
     destruct (Qeq_bool (_readout_rate c) 0); cbn; [done|];
     destruct (bit_depth env); cbn; [|done]|];
    repeat match goal with
           | |- context [differs ?a ?b] => destruct (differs a b); cbn
           | |- context [set_gain_ok env] => destruct (set_gain_ok env); cbn
           end; try done;
    match goal with
    | |- context [region_size ?x] =>
        destruct (region_size x) as [sz|] eqn:Hsz; cbn; [|done]
    end; intros [= <- <- <- <-]; cbn; done.
Qed.

(** X7: after a commit the setters only store their value, and the next
    commit sends what has changed: a new gain is written alone, whatever
    the hardware answers; a new readout rate is written and the gain,
    though unchanged, is sent again after it; a new exposure time asks
    for a commit that writes nothing to the hardware and returns the new
    time. A value equal to the committed one asks for nothing. *)
Theorem setters_need_commit (c c' : camera) (env env' : commit_env)
    (ws : list hw_write) (exposure : Q) (size : Z * Z) (v : Q) :
  _update_settings rate_index gain_index c env = (c', ws, Val (exposure, size)) →
  (_need_update_settings (_setGain c' v) = negb (Qeq_bool (_gain c') v)
   ∧ (_update_settings rate_index gain_index (_setGain c' v) env').1.2
     = (if Qeq_bool (_gain c') v then [] else [SetGainIndex (gain_index v)]))
  ∧ (_need_update_settings (_setReadoutRate c' v)
     = negb (Qeq_bool (_readout_rate c') v)
     ∧ (Qeq_bool (_readout_rate c') v = false →
        ∀ r, (_update_settings rate_index gain_index
                (_setReadoutRate c' v) env').2 = Val r →
        (_update_settings rate_index gain_index
           (_setReadoutRate c' v) env').1.2
        = [SetSpeedIndex (rate_index v); GetBitDepth;
           SetGainIndex (gain_index (_gain c'))]))
  ∧ (if Qlt_le_dec 0 v then
       ∃ c'', _setExposureTime c' v = Val c''
         ∧ _need_update_settings c''
           = negb (Qeq_bool (_exposure_time c') v)
         ∧ (_update_settings rate_index gain_index c'' env').1.2 = []
         ∧ (_update_settings rate_index gain_index c'' env').2
           = Val (v, size)
     else _setExposureTime c' v = Err AssertionError).
Proof.
  intros Hu. destruct (update_settings_prev c c' env ws exposure size Hu)
    as [Hp Hsz].
  assert (Himg : bool_decide (Some (image_settings c')
                              = Some (image_settings c')) = true)
    by (by apply bool_decide_eq_true).
  assert (Hreg : ∀ c2, _image_rect c2 = _image_rect c' →
                       _binning c2 = _binning c' → region_size c2 = Val size).
  { intros c2 E1 E2. unfold region_size in *. by rewrite E1, E2. }
  split; [|split].
  - split.
    + unfold _need_update_settings, _setGain, image_settings in *. cbn.
      rewrite Hp. cbn. unfold image_settings.
      rewrite Himg, ?differs_same, ?Qeq_bool_refl. done.
    + assert (E : ∃ c3 r, _update_settings rate_index gain_index
                            (_setGain c' v) env'
                          = (c3, if Qeq_bool (_gain c') v then []
                                 else [SetGainIndex (gain_index v)], r)).
      { unfold _update_settings, _setGain. cbn. rewrite Hp. cbn.
        rewrite ?differs_same, ?Qeq_bool_refl. cbn.
        destruct (Qeq_bool (_gain c') v); cbn.
        - rewrite Hreg by done. by do 2 eexists.
        - destruct (set_gain_ok env'); cbn; [|by do 2 eexists].
          rewrite Hreg by done. by do 2 eexists. }
      destruct E as (c3 & r & ->). done.
  - split.
    + unfold _need_update_settings, _setReadoutRate, image_settings in *. cbn.
      rewrite Hp. cbn. unfold image_settings.
      rewrite Himg, ?differs_same, ?Qeq_bool_refl. cbn. by rewrite ?orb_false_r.
    + intros Hne r.
      assert (E : (∃ c3 e, _update_settings rate_index gain_index
                            (_setReadoutRate c' v) env' = (c3, e.1, Err e.2))
                  ∨ ∃ c3 r, _update_settings rate_index gain_index
                              (_setReadoutRate c' v) env'
                            = (c3, [SetSpeedIndex (rate_index v); GetBitDepth;
                                    SetGainIndex (gain_index (_gain c'))], r)).
      { unfold _update_settings, _setReadoutRate. cbn. rewrite Hp. cbn.
        rewrite ?Hne, ?differs_same, ?Qeq_bool_refl. cbn.
        destruct (set_speed_ok env'); cbn;
          [|left; eexists;
            by exists ([SetSpeedIndex (rate_index v)], PVCamErr)].
        destruct (Qeq_bool v 0); cbn;
          [left; eexists; by exists ([SetSpeedIndex (rate_index v)],
                                     ZeroDivisionError)|].
        destruct (bit_depth env'); cbn;
          [|left; eexists; by exists ([SetSpeedIndex (rate_index v);
                                       GetBitDepth], PVCamErr)].
        destruct (set_gain_ok env'); cbn;
          [|left; eexists;
            by exists ([SetSpeedIndex (rate_index v); GetBitDepth;
                        SetGainIndex (gain_index (_gain c'))], PVCamErr)].
        right. rewrite Hreg by done. by do 2 eexists. }
      destruct E as [(c3 & e & ->)|(c3 & r' & ->)]; [done|done].
  - unfold _setExposureTime. destruct (Qlt_le_dec 0 v); [|done].
    eexists. split; [reflexivity|]. split.
    + unfold _need_update_settings, image_settings in *. cbn.
      rewrite Hp. cbn. unfold image_settings.
      rewrite Himg, ?differs_same, ?Qeq_bool_refl. cbn. by rewrite ?orb_false_r.
    + match goal with |- context [_update_settings _ _ ?c2 env'] =>
        assert (E : ∃ c3, _update_settings rate_index gain_index c2 env'
                          = (c3, [], Val (v, size))) end.
      { unfold _update_settings. cbn. rewrite Hp. cbn.
        repeat (rewrite Qeq_bool_refl; cbn).
        rewrite Hreg by done. by eexists. }
      destruct E as (c3 & ->). done.
Qed.

End CommitFacts.

Lemma update_settings_commits_witness :
  let '(c', ws, r) :=
    _update_settings (λ _, 1) (λ _, 2) demo_camera all_ok in
  _need_update_settings c' = false
  ∧ 1%Q = _exposure_time demo_camera
  ∧ region_size demo_camera = Val (512, 128)
  ∧ image_settings c' = image_settings demo_camera
  ∧ _readout_rate c' = _readout_rate demo_camera
  ∧ _gain c' = _gain demo_camera
  ∧ _update_settings (λ _, 1) (λ _, 2) c'
      {| set_speed_ok := false; bit_depth := PVCamError;
         set_gain_ok := false |}
    = (c', [], Val (1%Q, (512, 128))).
Proof.
  apply (update_settings_commits (λ _, 1) (λ _, 2) demo_camera _ all_ok
           {| set_speed_ok := false; bit_depth := PVCamError;
              set_gain_ok := false |}
           [SetSpeedIndex 1; GetBitDepth; SetGainIndex 2]).
  reflexivity.
Defined.

Lemma update_settings_writes_witness :
  (_update_settings (λ _, 1) (λ _, 2) demo_camera all_ok).1.2
  = [SetSpeedIndex 1; GetBitDepth; SetGainIndex 2].
Proof.
  destruct (update_settings_writes (λ _, 1) (λ _, 2) demo_camera
              (_update_settings (λ _, 1) (λ _, 2) demo_camera all_ok).1.1
              all_ok
              (_update_settings (λ _, 1) (λ _, 2) demo_camera all_ok).1.2
              (_update_settings (λ _, 1) (λ _, 2) demo_camera all_ok).2)
    as (_ & H & _); [reflexivity|].
  apply H; [reflexivity|]. eexists. reflexivity.
Defined.

Lemma setters_need_commit_witness :
  _need_update_settings
    (_setGain (_update_settings (λ _, 1) (λ _, 2) demo_camera all_ok).1.1 4)
  = true
  ∧ (_update_settings (λ _, 1) (λ _, 2)
       (_setGain (_update_settings (λ _, 1) (λ _, 2) demo_camera all_ok).1.1 4)
       all_ok).1.2
    = [SetGainIndex 2].
Proof.
  destruct (setters_need_commit (λ _, 1) (λ _, 2) demo_camera
              (_update_settings (λ _, 1) (λ _, 2) demo_camera all_ok).1.1
              all_ok all_ok
              [SetSpeedIndex 1; GetBitDepth; SetGainIndex 2] 1
              (512, 128) 4 eq_refl) as ((H1 & H2) & _).
  split; [exact H1|exact H2].
Defined.

End PVCamSettingsFacts.

(* ===================================================================== *)
(** * Further properties of the acquisition thread                        *)
(* ===================================================================== *)

Module PVCamTraceFacts.

Import PVCam PVCamTrace PVCamFacts.

Lemma exposures_app (a b : list event) :
  exposures (a ++ b) = exposures a + exposures b.
Proof. unfold exposures. by rewrite filter_app, length_app. Qed.

Lemma in_loop_app (a b : list event) :
  in_loop (a ++ b) = in_loop a && in_loop b.
Proof. apply forallb_app. Qed.

Lemma run_calls_facts (plan : list setup_call) (f : option setup_call) :
  deliveries (run_calls plan f).1 = 0 ∧ exposures (run_calls plan f).1 = 0
  ∧ in_loop (run_calls plan f).1 = true.
Proof.
  induction plan as [|c plan IH]; simpl; [done|].
  case_bool_decide; [done|]. destruct (run_calls plan f) as [evs r].
  simpl in *. by rewrite deliveries_cons.
Qed.

Lemma rearm_facts (st : loop_state) (e : iter_env) :
  deliveries (rearm st e).1.1 = 0 ∧ exposures (rearm st e).1.1 = 0
  ∧ in_loop (rearm st e).1.1 = true
  ∧ retries (rearm st e).1.2 = retries st
  ∧ ((rearm st e).2 = false → need_reinit (rearm st e).1.2 = false)
  ∧ head (rearm st e).1.1 = Some (CheckStatus (pre_status e)).
Proof.
  unfold rearm.
  set (plan := (if truthy (cbuffer st) then _ else _) ++ _).
  destruct (run_calls_facts plan (setup_fault e)) as (Hd1 & He1 & Hl1).
  destruct (run_calls_facts [GetReadout] (setup_fault e)) as (Hd2 & He2 & Hl2).
  destruct (run_calls plan (setup_fault e)) as [evs1 r1].
  destruct (run_calls [GetReadout] (setup_fault e)) as [evs2 r2].
  simpl in Hd1, He1, Hl1, Hd2, He2, Hl2.
  set (pre := match pre_status e with Ok s => _ | PVCamError => _ end).
  assert (Hpre : deliveries pre = 0 ∧ exposures pre = 0 ∧ in_loop pre = true
                  ∧ ∀ l, head (pre ++ l) = Some (CheckStatus (pre_status e))).
  { unfold pre. destruct (pre_status e) as [s|]; [|done].
    by destruct (in_progress s), (pre_abort_ok e). }
  destruct Hpre as (Hd0 & He0 & Hl0 & Hh).
  destruct r1; [|destruct r2]; cbn [fst snd];
    rewrite ?deliveries_app, ?exposures_app, ?in_loop_app,
      ?Hd0, ?Hd1, ?Hd2, ?He0, ?He1, ?He2, ?Hl0, ?Hl1, ?Hl2, ?Hh;
    done.
Qed.

Lemma poll_facts (tk : list (bool * hw status)) (s : status) :
  exposures (poll s tk).1 = 0 ∧ in_loop (poll s tk).1 = true.
Proof.
  revert s. induction tk as [|[b r] tk IH]; intros s; simpl.
  - by destruct (in_progress s).
  - destruct (in_progress s); [|done].
    destruct b; [done|]. destruct r as [s'|]; [|done].
    specialize (IH s'). destruct (poll s' tk) as [evs res]. done.
Qed.

Lemma exposures_cons (ev : event) (l : list event) :
  exposures (ev :: l) = (if bool_decide (ev = StartSeq) then 1 else 0) + exposures l.
Proof.
  unfold exposures. rewrite filter_cons.
  case_bool_decide; destruct (decide (ev = StartSeq)); simpl; congruence.
Qed.

Lemma on_fault_facts (st : loop_state) :
  exposures (on_fault st).1.1 = 0
  ∧ deliveries (on_fault st).1.1 = 0
  ∧ in_loop (on_fault st).1.1 = true
  ∧ ((on_fault st).2 = Continue →
     retries (on_fault st).1.2 = Datatypes.S (retries st)
     ∧ need_reinit (on_fault st).1.2 = true).
Proof. unfold on_fault. by case_bool_decide. Qed.

(** The part of a turn from [pl_exp_start_seq] on: one exposure, at most
    one frame; when the loop goes on, either a frame was delivered and
    the retry counter is 0, or none was and the counter went up by one
    with re-arming forced. *)
Lemma expose_facts (st : loop_state) (e : iter_env) :
  exposures (expose st e).1.1 = 1
  ∧ deliveries (expose st e).1.1 ≤ 1
  ∧ in_loop (expose st e).1.1 = true
  ∧ head (expose st e).1.1 = Some StartSeq
  ∧ ((expose st e).2 = Continue →
       (deliveries (expose st e).1.1 = 1 ∧ retries (expose st e).1.2 = 0
        ∧ need_reinit (expose st e).1.2 = need_reinit st)
       ∨ (deliveries (expose st e).1.1 = 0
          ∧ retries (expose st e).1.2 = Datatypes.S (retries st)
          ∧ need_reinit (expose st e).1.2 = true)).
Proof.
  unfold expose.
  destruct (start_ok e); cbn [negb]; [|vm_compute; repeat split; done || lia].
  destruct (stop_in_sleep e); [vm_compute; repeat split; done || lia|].
  destruct (on_fault_facts st) as (Hfe & Hfd & Hfl & Hfc).
  destruct (on_fault st) as [[fevs fst'] ffl]. cbn [fst snd] in *.
  assert (Hfault : ∀ hd, exposures hd = 1 → deliveries hd = 0 →
            in_loop hd = true → head hd = Some StartSeq →
            exposures (hd ++ fevs) = 1 ∧ deliveries (hd ++ fevs) ≤ 1
            ∧ in_loop (hd ++ fevs) = true ∧ head (hd ++ fevs) = Some StartSeq
            ∧ (ffl = Continue →
               (deliveries (hd ++ fevs) = 1 ∧ retries fst' = 0
                ∧ need_reinit fst' = need_reinit st)
               ∨ (deliveries (hd ++ fevs) = 0
                  ∧ retries fst' = Datatypes.S (retries st)
                  ∧ need_reinit fst' = true))).
  { intros hd H1 H2 H3 H4.
    rewrite exposures_app, deliveries_app, in_loop_app, H1, H2, H3, Hfe, Hfd, Hfl.
    repeat split; try done; try lia.
    - by destruct hd.
    - intros Hc. right. split; [done|by apply Hfc]. }
  destruct (first_status e) as [s|].
  - destruct (poll_facts (ticks e) s) as [Hpe Hpl].
    pose proof (poll_no_delivery (ticks e) s) as Hpd.
    destruct (poll s (ticks e)) as [pevs res]. cbn [fst snd] in *.
    set (hd := [StartSeq; Wait80 false; CheckStatus (Ok s)] ++ pevs).
    assert (Hhd : exposures hd = 1 ∧ deliveries hd = 0 ∧ in_loop hd = true
                  ∧ head hd = Some StartSeq).
    { unfold hd. by rewrite exposures_app, deliveries_app, in_loop_app, Hpe, Hpd, Hpl. }
    destruct Hhd as (H1 & H2 & H3 & H4).
    destruct res as [s'| | |]; [case_bool_decide| | |]; cbn [fst snd];
      try by apply Hfault.
    + rewrite exposures_app, deliveries_app, in_loop_app, H1, H2, H3.
      repeat split; try done. intros _. by left.
    + rewrite H1, H2, H3. repeat split; done || lia.
  - cbn [fst snd]. by apply (Hfault [StartSeq; Wait80 false; CheckStatus PVCamError]).
Qed.

Lemma poll_no_setup (tk : list (bool * hw status)) (s : status) :
  no_setup (poll s tk).1 = true.
Proof.
  revert s. induction tk as [|[b r] tk IH]; intros s; simpl.
  - by destruct (in_progress s).
  - destruct (in_progress s); [|done].
    destruct b; [done|]. destruct r as [s'|]; [|done].
    specialize (IH s'). destruct (poll s' tk) as [evs res]. done.
Qed.

Lemma no_setup_app (a b : list event) :
  no_setup (a ++ b) = no_setup a && no_setup b.
Proof. apply forallb_app. Qed.

(** From [pl_exp_start_seq] on, nothing is re-armed and the buffer is
    kept. *)
Lemma expose_no_setup (st : loop_state) (e : iter_env) :
  no_setup (expose st e).1.1 = true ∧ cbuffer (expose st e).1.2 = cbuffer st.
Proof.
  unfold expose.
  destruct (start_ok e); cbn [negb]; [|done].
  destruct (stop_in_sleep e); [done|].
  assert (Hf : no_setup (on_fault st).1.1 = true
               ∧ cbuffer (on_fault st).1.2 = cbuffer st).
  { unfold on_fault. by case_bool_decide. }
  destruct (on_fault st) as [[fevs fst'] ffl]. cbn [fst snd] in *.
  destruct Hf as [Hf1 Hf2].
  destruct (first_status e) as [s|]; [|done].
  pose proof (poll_no_setup (ticks e) s) as Hp.
  destruct (poll s (ticks e)) as [pevs res]. cbn [fst snd] in *.
  destruct res as [s'| | |]; [case_bool_decide| | |]; cbn [fst snd];
    rewrite ?no_setup_app, ?Hp, ?Hf1; done.
Qed.

Lemma turn_facts (st : loop_state) (e : iter_env) :
  exposures (turn st e).1.1 ≤ 1
  ∧ deliveries (turn st e).1.1 ≤ exposures (turn st e).1.1
  ∧ in_loop (turn st e).1.1 = true
  ∧ ((turn st e).2 = Continue →
     exposures (turn st e).1.1 = 1
     ∧ ((deliveries (turn st e).1.1 = 1 ∧ retries (turn st e).1.2 = 0
         ∧ need_reinit (turn st e).1.2 = false)
        ∨ (deliveries (turn st e).1.1 = 0
           ∧ retries (turn st e).1.2 = Datatypes.S (retries st)
           ∧ need_reinit (turn st e).1.2 = true))).
Proof.
  unfold turn. destruct (stop_at_head e); [cbn; repeat split; done || lia|].
  destruct (need_reinit st || need_update e) eqn:Hn.
  - destruct (rearm_facts st e) as (Hd & He & Hl & Hr & Hi & _).
    destruct (rearm st e) as [[evs st1] raised]. cbn [fst snd] in *.
    destruct raised; cbn [fst snd]; [rewrite Hd, He; by repeat split; try lia|].
    destruct (expose_facts st1 e) as (He2 & Hd2 & Hl2 & _ & Hc).
    destruct (expose st1 e) as [[evs2 st2] fl]. cbn [fst snd] in *.
    rewrite exposures_app, deliveries_app, in_loop_app, Hd, He, Hl, He2, Hl2.
    specialize (Hi eq_refl).
    split; [lia|]. split; [lia|]. split; [done|].
    intros Hfl. split; [done|].
    destruct (Hc Hfl) as [(? & ? & ?)|(? & ? & ?)].
    + left. repeat split; try done. congruence.
    + right. repeat split; try done. congruence.
  - apply orb_false_iff in Hn as [Hn _].
    destruct (expose_facts st e) as (He2 & Hd2 & Hl2 & _ & Hc).
    rewrite He2. split; [lia|]. split; [lia|]. split; [done|].
    intros Hfl. split; [done|].
    destruct (Hc Hfl) as [(? & ? & ?)|(? & ? & ?)].
    + left. repeat split; try done. congruence.
    + by right.
Qed.

Lemma loop_facts (st : loop_state) (envs : list iter_env) :
  exposures (loop st envs).1.1 ≤ length envs
  ∧ deliveries (loop st envs).1.1 ≤ exposures (loop st envs).1.1
  ∧ in_loop (loop st envs).1.1 = true.
Proof.
  revert st. induction envs as [|e envs IH]; intros st; simpl; [done|].
  destruct (turn_facts st e) as (He & Hd & Hl & _).
  destruct (turn st e) as [[evs st'] fl]. cbn [fst snd] in *.
  destruct fl; cbn [fst snd]; try (repeat split; done || lia).
  destruct (IH st') as (He' & Hd' & Hl').
  destruct (loop st' envs) as [[evs' st''] out]. cbn [fst snd] in *.
  rewrite exposures_app, deliveries_app, in_loop_app, Hl, Hl'.
  repeat split; done || lia.
Qed.

Lemma occurrences_app (ev : event) (a b : list event) :
  occurrences ev (a ++ b) = occurrences ev a + occurrences ev b.
Proof. unfold occurrences. by rewrite filter_app, length_app. Qed.

Lemma in_loop_occurrences (ev : event) (tr : list event) :
  in_loop tr = true → ending_event ev = true → occurrences ev tr = 0.
Proof.
  intros Hl Hev. induction tr as [|x tr IH]; [done|].
  simpl in Hl. apply andb_true_iff in Hl as [Hx Hl].
  unfold occurrences in *. rewrite filter_cons.
  destruct (decide (x = ev)) as [->|]; [|by apply IH].
  by rewrite Hev in Hx.
Qed.

Lemma teardown_exposures (cb : option nat) (t : teardown_env) :
  exposures (teardown cb t) = 0.
Proof.
  unfold teardown.
  destruct (td_status t) as [s|]; [destruct (in_progress s), (td_abort_ok t)|];
    destruct (truthy cb), (td_finish_ok t), (td_uninit_ok t); done.
Qed.

(** The [finally] block ends with the release of the lock and the reset
    of the stop flag, done once each. *)
Lemma teardown_release (cb : option nat) (t : teardown_env) :
  occurrences LockRelease (teardown cb t) = 1
  ∧ occurrences StopClear (teardown cb t) = 1
  ∧ ∃ body, teardown cb t = body ++ [LockRelease; StopClear].
Proof.
  unfold teardown. split; [|split].
  - destruct (td_status t) as [s|]; [destruct (in_progress s), (td_abort_ok t)|];
      destruct (truthy cb), (td_finish_ok t), (td_uninit_ok t); done.
  - destruct (td_status t) as [s|]; [destruct (in_progress s), (td_abort_ok t)|];
      destruct (truthy cb), (td_finish_ok t), (td_uninit_ok t); done.
  - eexists. rewrite !app_assoc. reflexivity.
Qed.

(** X8: after every turn that lets the loop go on, exactly one exposure was
    started and either one frame was delivered, the retry counter is 0
    and the next turn need not re-arm, or no frame was delivered, the
    counter went up by one and the next turn re-arms the sequence. *)
Theorem turn_delivers_or_retries (st : loop_state) (e : iter_env) :
  (turn st e).2 = Continue →
  exposures (turn st e).1.1 = 1
  ∧ ((deliveries (turn st e).1.1 = 1 ∧ retries (turn st e).1.2 = 0
      ∧ need_reinit (turn st e).1.2 = false)
     ∨ (deliveries (turn st e).1.1 = 0
        ∧ retries (turn st e).1.2 = Datatypes.S (retries st)
        ∧ need_reinit (turn st e).1.2 = true)).
Proof. intros Hc. by apply turn_facts. Qed.

Lemma turn_delivers_or_retries_witness :
  (turn init_state timeout_turn).2 = Continue
  ∧ exposures (turn init_state timeout_turn).1.1 = 1
  ∧ ((deliveries (turn init_state timeout_turn).1.1 = 1
      ∧ retries (turn init_state timeout_turn).1.2 = 0
      ∧ need_reinit (turn init_state timeout_turn).1.2 = false)
     ∨ (deliveries (turn init_state timeout_turn).1.1 = 0
        ∧ retries (turn init_state timeout_turn).1.2 = 1
        ∧ need_reinit (turn init_state timeout_turn).1.2 = true)).
Proof.
  split; [reflexivity|].
  apply (turn_delivers_or_retries init_state timeout_turn). reflexivity.
Defined.

(** X9: whatever the hardware answers, the thread hands out at most one frame
    per exposure started and starts at most one exposure per turn of the
    loop; the [finally] block starts none and delivers none, whatever
    buffer it finds, so that the run counts the exposures and the frames
    of its loop. *)
Theorem frames_bounded_by_exposures (envs : list iter_env) (t : teardown_env) :
  deliveries (_acquire_thread_run envs t).1.1
    ≤ exposures (_acquire_thread_run envs t).1.1
  ∧ exposures (_acquire_thread_run envs t).1.1 ≤ length envs
  ∧ (∀ cb, exposures (teardown cb t) = 0 ∧ deliveries (teardown cb t) = 0)
  ∧ exposures (_acquire_thread_run envs t).1.1
    = exposures (loop init_state envs).1.1
  ∧ deliveries (_acquire_thread_run envs t).1.1
    = deliveries (loop init_state envs).1.1.
Proof.
  split_and!; [| |intros cb; split;
                  [apply teardown_exposures|apply teardown_no_delivery]| |];
    unfold _acquire_thread_run;
    destruct (loop_facts init_state envs) as (He & Hd & _);
    destruct (loop init_state envs) as [[evs st] out]; cbn [fst snd] in *;
    pose proof (teardown_exposures (cbuffer st) t) as Hte;
    pose proof (teardown_no_delivery (cbuffer st) t) as Htd;
    destruct out; cbn [fst snd];
    rewrite ?exposures_app, ?deliveries_app, ?Hte, ?Htd;
    rewrite ?exposures_cons, ?deliveries_cons; simpl; lia.
Qed.

(** X10: the lock of the driver is held as long as the loop turns, and once
    the loop is left, on a stop request or on an exception, the thread
    releases it exactly once and clears the stop flag, as its last two
    actions, after [pl_exp_uninit_seq]. *)
Theorem lock_released_at_end (envs : list iter_env) (t : teardown_env) :
  match (_acquire_thread_run envs t).2 with
  | Running =>
      occurrences LockRelease (_acquire_thread_run envs t).1.1 = 0
      ∧ occurrences StopClear (_acquire_thread_run envs t).1.1 = 0
  | _ =>
      occurrences LockRelease (_acquire_thread_run envs t).1.1 = 1
      ∧ occurrences StopClear (_acquire_thread_run envs t).1.1 = 1
      ∧ Call UninitSeq ∈ (_acquire_thread_run envs t).1.1
      ∧ ∃ body, (_acquire_thread_run envs t).1.1
                = body ++ [LockRelease; StopClear]
  end.
Proof.
  unfold _acquire_thread_run.
  destruct (loop_facts init_state envs) as (_ & _ & Hl).
  destruct (loop init_state envs) as [[evs st] out]. cbn [fst snd] in *.
  pose proof (in_loop_occurrences LockRelease evs Hl eq_refl) as H1.
  pose proof (in_loop_occurrences StopClear evs Hl eq_refl) as H2.
  destruct (teardown_release (cbuffer st) t) as (H3 & H4 & body & Hb).
  destruct (teardown_calls (cbuffer st) t) as (Hu & _).
  destruct out; cbn [fst snd]; [done| |].
  - rewrite !occurrences_app, H1, H2, H3, H4. repeat split; try done.
    + apply elem_of_app. by right.
    + exists (evs ++ body). by rewrite Hb, app_assoc.
  - rewrite !occurrences_app, H1, H2, H3, H4. repeat split; try done.
    + apply elem_of_app. right. apply elem_of_app. by right.
    + exists (evs ++ [LogUnexpected] ++ body). by rewrite Hb, <- !app_assoc.
Qed.


Lemma run_calls_setup (plan : list setup_call) (f : option setup_call) :
  plan ≠ [] → no_setup (run_calls plan f).1 = false.
Proof.
  destruct plan as [|c plan]; [done|]. intros _. simpl.
  case_bool_decide; [done|]. by destruct (run_calls plan f).
Qed.

Lemma rearm_setup (st : loop_state) (e : iter_env) :
  no_setup (rearm st e).1.1 = false.
Proof.
  unfold rearm.
  set (plan := (if truthy (cbuffer st) then _ else _) ++ _).
  assert (Hp : plan ≠ []) by (unfold plan; by destruct (truthy (cbuffer st))).
  pose proof (run_calls_setup plan (setup_fault e) Hp) as Hs.
  destruct (run_calls plan (setup_fault e)) as [evs1 r1].
  destruct (run_calls [GetReadout] (setup_fault e)) as [evs2 r2].
  cbn [fst snd] in *.
  destruct r1; [|destruct r2]; cbn [fst snd];
    rewrite !no_setup_app, Hs; by rewrite ?andb_false_r.
Qed.

(** X11: setup calls are made, and a buffer allocated, in exactly the turns
    that find [need_reinit] set or the settings changed; such a turn
    begins by reading the exposure status, any other turn begins with
    [pl_exp_start_seq] and keeps the buffer. *)
Theorem rearm_only_when_needed (st : loop_state) (e : iter_env) :
  stop_at_head e = false →
  no_setup (turn st e).1.1 = negb (need_reinit st || need_update e)
  ∧ head (turn st e).1.1
    = Some (if need_reinit st || need_update e
            then CheckStatus (pre_status e) else StartSeq)
  ∧ (need_reinit st || need_update e = false →
     cbuffer (turn st e).1.2 = cbuffer st).
Proof.
  intros Hh. unfold turn. rewrite Hh.
  destruct (need_reinit st || need_update e) eqn:Hn.
  - pose proof (rearm_setup st e) as Hs.
    destruct (rearm_facts st e) as (_ & _ & _ & _ & _ & Hhd).
    destruct (rearm st e) as [[evs st1] raised]. cbn [fst snd] in *.
    destruct raised; cbn [fst snd]; [done|].
    destruct (expose st1 e) as [[evs2 st2] fl]. cbn [fst snd].
    rewrite no_setup_app, Hs. split; [done|]. split; [|done].
    destruct evs; [done|]. done.
  - destruct (expose_no_setup st e) as [H1 H2].
    destruct (expose_facts st e) as (_ & _ & _ & H3 & _).
    done.
Qed.

Lemma rearm_only_when_needed_witness :
  stop_at_head good_turn = false
  ∧ no_setup (turn (turn init_state good_turn).1.2 good_turn).1.1 = true
  ∧ head (turn (turn init_state good_turn).1.2 good_turn).1.1 = Some StartSeq.
Proof.
  split; [reflexivity|].
  pose proof (rearm_only_when_needed (turn init_state good_turn).1.2 good_turn
                eq_refl) as (H1 & H2 & _).
  split; [exact H1|exact H2].
Defined.

Lemma loop_after_successes (pre : list iter_env) (st : loop_state) :
  forallb success pre = true →
  ∃ tr st', loop st pre = (tr, st', Running)
            ∧ deliveries tr = length pre
            ∧ exposures tr = length pre
            ∧ (pre = [] ∧ st' = st
               ∨ retries st' = 0 ∧ need_reinit st' = false).
Proof.
  revert st. induction pre as [|e pre IH]; intros st Hs; simpl in *.
  - exists [], st. repeat split; try done. by left.
  - apply andb_true_iff in Hs as [He Hs].
    destruct (turn_success st e He) as (evs & st1 & Ht & Hd & Hr).
    destruct (turn_facts st e) as (_ & _ & _ & Hc).
    rewrite Ht in Hc. cbn [fst snd] in Hc.
    destruct (Hc eq_refl) as (Hx & [(_ & _ & Hn)|(Hd0 & _)]);
      [|rewrite deliveries_app, Hd in Hd0; done].
    rewrite Ht.
    destruct (IH st1 Hs) as (tr & st' & -> & Hd' & He' & Hst).
    do 2 eexists. split; [reflexivity|].
    rewrite deliveries_app, exposures_app, deliveries_app, Hd, Hd', Hx, He'.
    repeat split; try done. right.
    destruct Hst as [[_ ->]|[? ?]]; done.
Qed.

Lemma run_calls_raises (plan : list setup_call) (c : setup_call) :
  (run_calls plan (Some c)).2 = bool_decide (c ∈ plan).
Proof.
  induction plan as [|d plan IH]; simpl; [done|].
  destruct (decide (Some c = Some d)) as [Hd|Hd].
  - rewrite bool_decide_eq_true_2 by done.
    injection Hd as ->. simpl. symmetry. apply bool_decide_eq_true.
    by left.
  - rewrite bool_decide_eq_false_2 by done.
    destruct (run_calls plan (Some c)) as [evs r]. simpl in *. rewrite IH.
    apply bool_decide_ext. rewrite elem_of_cons. split; [tauto|].
    intros [->|?]; [done|tauto].
Qed.

Lemma rearm_raises (st : loop_state) (e : iter_env) (c : setup_call) :
  setup_fault e = Some c → c ∈ arming_calls → (rearm st e).2 = true.
Proof.
  intros Hf Hc. unfold rearm. rewrite Hf.
  set (plan := (if truthy (cbuffer st) then _ else _) ++ _).
  pose proof (run_calls_raises plan c) as H1.
  pose proof (run_calls_raises [GetReadout] c) as H2.
  destruct (run_calls plan (Some c)) as [evs1 r1].
  destruct (run_calls [GetReadout] (Some c)) as [evs2 r2].
  cbn [fst snd] in *.
  destruct r1; [done|]. destruct r2; [done|]. exfalso.
  symmetry in H1, H2. apply bool_decide_eq_false in H1, H2.
  unfold arming_calls in Hc.
  assert (c ∈ plan ∨ c ∈ [GetReadout]) as [?|?]; [|done|done].
  clear H1 H2. unfold plan.
  repeat (apply elem_of_cons in Hc as [->|Hc]);
    [left|left|left|left|right|by apply elem_of_nil in Hc];
    rewrite ?elem_of_app, ?elem_of_cons; tauto.
Qed.

(** A turn in which an SDK call raises outside the polling phase. *)
Lemma turn_outside_fault (st : loop_state) (e : iter_env) (c : setup_call) :
  stop_at_head e = false →
  (setup_fault e = Some c ∧ c ∈ arming_calls
   ∧ need_reinit st || need_update e = true)
  ∨ (setup_fault e = None ∧ start_ok e = false) →
  (turn st e).2 = Raise ∧ deliveries (turn st e).1.1 = 0
  ∧ retries (turn st e).1.2 = retries st.
Proof.
  intros Hh H. unfold turn. rewrite Hh.
  destruct H as [(Hf & Hc & Hn)|[Hf Hs]].
  - rewrite Hn. pose proof (rearm_raises st e c Hf Hc) as Hr.
    destruct (rearm_facts st e) as (Hd & _ & _ & Hrt & _).
    destruct (rearm st e) as [[evs st1] raised]. cbn [fst snd] in *.
    by rewrite Hr.
  - assert (He : ∀ st0, expose st0 e = ([StartSeq], st0, Raise)).
    { intros st0. unfold expose. by rewrite Hs. }
    destruct (need_reinit st || need_update e).
    + destruct (rearm_no_fault st e Hf) as (evs & -> & Hd & _).
      rewrite He. cbn [fst snd]. by rewrite deliveries_app, Hd.
    + by rewrite He.
Qed.

(** X12: A [PVCamError] raised by one of the calls that re-arm the sequence or
    by [pl_exp_start_seq] is not retried: after any number of good
    frames it ends the thread at once with the retry counter still at 0,
    no further frame is delivered and the answers that would have
    followed are never asked for. *)
Theorem sdk_fault_outside_poll_fatal (pre rest : list iter_env) (e : iter_env)
    (c : setup_call) (t : teardown_env) :
  forallb success pre = true →
  stop_at_head e = false →
  (setup_fault e = Some c ∧ c ∈ arming_calls
   ∧ (pre = [] ∨ need_update e = true))
  ∨ (setup_fault e = None ∧ start_ok e = false) →
  (_acquire_thread_run (pre ++ e :: rest) t).2 = Fatal
  ∧ deliveries (_acquire_thread_run (pre ++ e :: rest) t).1.1 = length pre
  ∧ retries (_acquire_thread_run (pre ++ e :: rest) t).1.2 = 0
  ∧ _acquire_thread_run (pre ++ e :: rest) t
    = _acquire_thread_run (pre ++ [e]) t.
Proof.
  intros Hs Hh Hf.
  destruct (loop_after_successes pre init_state Hs)
    as (tr & st' & Hl & Hd & _ & Hst).
  assert (Hr0 : retries st' = 0) by (destruct Hst as [[_ ->]|[? _]]; done).
  destruct (turn_outside_fault st' e c Hh) as (Hfl & Hd0 & Hr).
  { destruct Hf as [(? & ? & Hn)|?]; [left|by right].
    repeat split; try done.
    destruct Hn as [->| ->]; [|by rewrite orb_true_r].
    destruct Hst as [[_ ->]|[_ ?]]; [done|]. simpl in Hl.
    by injection Hl as _ <-. }
  assert (Hloop : ∀ l, loop init_state (pre ++ e :: l)
            = (tr ++ (turn st' e).1.1, (turn st' e).1.2, Fatal)).
  { intros l. rewrite (loop_app _ _ _ _ _ Hl). simpl.
    destruct (turn st' e) as [[evs st''] fl]. cbn [fst snd] in *.
    by rewrite Hfl. }
  unfold _acquire_thread_run. rewrite (Hloop rest), (Hloop []).
  cbn [fst snd]. repeat split; try done; try lia.
  rewrite !deliveries_app, Hd, Hd0, teardown_no_delivery.
  rewrite deliveries_cons. simpl. lia.
Qed.

Lemma sdk_fault_outside_poll_fatal_witness :
  (_acquire_thread_run ([] ++ dead_camera_turn :: [good_turn]) quiet_teardown).2
    = Fatal
  ∧ deliveries (_acquire_thread_run ([] ++ dead_camera_turn :: [good_turn])
                  quiet_teardown).1.1 = 0.
Proof.
  pose proof (sdk_fault_outside_poll_fatal [] [good_turn] dead_camera_turn
                GetTemp quiet_teardown eq_refl eq_refl) as H.
  destruct H as (H1 & H2 & _).
  - left. split; [reflexivity|]. split; [|by left].
    unfold arming_calls. apply elem_of_cons. by left.
  - split; [exact H1|exact H2].
Defined.

Lemma expose_callback_raises (st : loop_state) (e : iter_env) :
  callback_raises e = true →
  ∃ head, deliveries head = 0
          ∧ expose st e =
              (head ++ [Callback],
               {| need_reinit := need_reinit st; retries := 0;
                  cbuffer := cbuffer st |}, Raise).
Proof.
  unfold callback_raises. intros Hs. apply andb_true_iff in Hs as [Hs Hcb].
  apply andb_true_iff in Hs as [Hr Hp]. apply negb_true_iff in Hcb.
  apply reaches_poll_true in Hr as (_ & _ & Hstart & Hsleep).
  unfold poll_phase in Hp. unfold expose. rewrite Hstart, Hsleep, Hcb. simpl.
  destruct (first_status e) as [s|]; [|done].
  pose proof (poll_no_delivery (ticks e) s) as Hd.
  destruct (poll s (ticks e)) as [pevs res]. simpl in *.
  destruct res as [s'| | |]; try done.
  rewrite Hp. exists ([StartSeq; Wait80 false; CheckStatus (Ok s)] ++ pevs).
  split; [|reflexivity]. by rewrite deliveries_app, Hd.
Qed.

(** X13: an exception raised by the callback ends the thread: the frame that
    was being handed over is the last one, the exception is logged and
    the [finally] block runs right after, and the retry counter, reset
    just before the callback, is 0. *)
Theorem callback_exception_ends_thread (pre rest : list iter_env)
    (e : iter_env) (t : teardown_env) :
  forallb success pre = true →
  callback_raises e = true →
  (_acquire_thread_run (pre ++ e :: rest) t).2 = Fatal
  ∧ deliveries (_acquire_thread_run (pre ++ e :: rest) t).1.1
    = Datatypes.S (length pre)
  ∧ retries (_acquire_thread_run (pre ++ e :: rest) t).1.2 = 0
  ∧ ∃ body,
      (_acquire_thread_run (pre ++ e :: rest) t).1.1
      = body ++ [Callback; LogUnexpected]
        ++ teardown (cbuffer (_acquire_thread_run (pre ++ e :: rest) t).1.2) t.
Proof.
  intros Hs He.
  destruct (loop_after_successes pre init_state Hs)
    as (tr & st' & Hl & Hd & _ & _).
  assert (Hsetup : stop_at_head e = false ∧ setup_fault e = None).
  { unfold callback_raises in He. apply andb_true_iff in He as [He _].
    apply andb_true_iff in He as [Hr _].
    apply reaches_poll_true in Hr. tauto. }
  destruct Hsetup as [Hh Hf].
  assert (Ht : ∃ evs st1, turn st' e = (evs ++ [Callback], st1, Raise)
                          ∧ deliveries evs = 0 ∧ retries st1 = 0).
  { unfold turn. rewrite Hh. destruct (need_reinit st' || need_update e).
    - destruct (rearm_no_fault st' e Hf) as (evs & -> & Hd0 & _).
      destruct (expose_callback_raises
                  {| need_reinit := false; retries := retries st';
                     cbuffer := _allocate_buffer (blength e) |} e He)
        as (hd & Hd' & ->).
      exists (evs ++ hd). eexists. rewrite <- (assoc_L (++)).
      split; [reflexivity|]. by rewrite deliveries_app, Hd0, Hd'.
    - destruct (expose_callback_raises st' e He) as (hd & Hd' & ->).
      by do 2 eexists. }
  destruct Ht as (evs & st1 & Ht & Hd1 & Hr1).
  unfold _acquire_thread_run. rewrite (loop_app _ _ _ _ _ Hl). simpl.
  rewrite Ht. cbn [fst snd].
  split; [done|]. split; [|split; [done|]].
  - rewrite !deliveries_app, !deliveries_cons, Hd, Hd1, teardown_no_delivery.
    repeat case_bool_decide; try done. change (deliveries []) with 0. lia.
  - exists (tr ++ evs). by rewrite <- !app_assoc.
Qed.

Lemma callback_exception_ends_thread_witness :
  forallb success [good_turn] = true
  ∧ callback_raises bad_callback_turn = true
  ∧ (_acquire_thread_run ([good_turn] ++ bad_callback_turn :: [good_turn])
       quiet_teardown).2 = Fatal
  ∧ deliveries
      (_acquire_thread_run ([good_turn] ++ bad_callback_turn :: [good_turn])
         quiet_teardown).1.1 = 2.
Proof.
  split; [reflexivity|]. split; [reflexivity|].
  pose proof (callback_exception_ends_thread [good_turn] [good_turn]
                bad_callback_turn quiet_teardown eq_refl eq_refl)
    as (H1 & H2 & _).
  split; [exact H1|exact H2].
Defined.


End PVCamTraceFacts.


(* ===================================================================== *)
(** * Further properties of the future                                    *)
(* ===================================================================== *)

Module FutureMoreFacts.

Import AcqMng AcqMngMore FutureFacts.
Local Open Scope Q_scope.

Section Generic.
Context {T V : Type}.
Implicit Types (s : sys T V) (f : ProgressiveFuture T V).

Lemma reports_for_Forall (P : report → Prop) f (clk : nat → Q) (t0 : nat)
    (fns : list nat) :
  (∀ t fn, (t0 ≤ t)%nat → P (report_of f (clk t) fn)) →
  Forall P (reports_for f clk t0 fns).
Proof.
  revert t0. induction fns as [|fn fns IH]; intros t0 H; simpl.
  - constructor.
  - constructor; [by apply H|]. apply IH. intros t fn' Ht. apply H. lia.
Qed.

Lemma reports_for_length f (clk : nat → Q) (t0 : nat) (fns : list nat) :
  length (reports_for f clk t0 fns) = length fns.
Proof. revert t0. induction fns; intros t0; simpl; [done|]. by f_equal. Qed.

Lemma reports_for_callbacks f (clk : nat → Q) (t0 : nat) (fns : list nat) :
  rp_callback <$> reports_for f clk t0 fns = fns.
Proof. revert t0. induction fns; intros t0; simpl; [done|]. by f_equal. Qed.

(** X14: A second [cancel()] changes nothing and answers like the first; the
    answer is False exactly on a finished future and on a running one
    without canceller, which are left untouched, and after the answer
    True the future is over without being FINISHED. *)
Theorem cancel_twice s :
  cancel (cancel s).2 = ((cancel s).1, (cancel s).2)
  ∧ ((cancel s).1 = false ↔
       _state (fut s) = FINISHED
       ∨ (_state (fut s) = RUNNING ∧ task_canceller (fut s) = None))
  ∧ ((cancel s).1 = false → (cancel s).2 = s)
  ∧ ((cancel s).1 = true →
       done (fut (cancel s).2) = true
       ∧ _state (fut (cancel s).2) ≠ FINISHED
       ∧ _result (fut (cancel s).2) = _result (fut s)).
Proof.
  destruct (_state (fut s)) eqn:Hst.
  - rewrite (cancel_pending_eq s Hst). cbn [fst snd].
    rewrite cancel_over_eq by done. cbn.
    repeat split; try done. intros [?|[? _]]; done.
  - destruct (task_canceller (fut s)) as [c|] eqn:Hc.
    + rewrite (cancel_running_eq s c Hst Hc). cbn [fst snd].
      rewrite cancel_over_eq by done. cbn.
      repeat split; try done. intros [?|[_ ?]]; done.
    + assert (E : cancel s = (false, s)).
      { unfold cancel, bind, get_fut. by rewrite Hst, Hc. }
      rewrite E. cbn [fst snd]. rewrite E.
      repeat split; try done. intros _. by right.
  - rewrite (cancel_over_eq s) by congruence. rewrite Hst. cbn [fst snd].
    rewrite (cancel_over_eq s) by congruence. rewrite Hst. cbn.
    repeat split; try done; try congruence.
    + intros [?|[? _]]; done.
    + unfold done. by rewrite Hst.
  - rewrite (cancel_over_eq s) by congruence. rewrite Hst. cbn [fst snd].
    rewrite (cancel_over_eq s) by congruence. rewrite Hst. cbn.
    repeat split; try done; try congruence.
    + intros [?|[? _]]; done.
    + unfold done. by rewrite Hst.
  - rewrite (cancel_over_eq s) by congruence. rewrite Hst. cbn [fst snd].
    rewrite (cancel_over_eq s) by congruence. rewrite Hst. cbn.
    repeat split; try done. intros _. by left.
Qed.

(** X15: when the executor starts a pending future, the start time and also
    the end time are set to the time read, so that every subscriber is
    told, in the running state, that nothing is left; on a cancelled
    future only the start time is overwritten and the state becomes
    CANCELLED_AND_NOTIFIED; in any other state nothing happens. *)
Theorem set_running_times s :
  monotone (clock s) →
  let r := set_running_or_notify_cancel s in
  match _state (fut s) with
  | PENDING =>
      r.1 = Some true ∧ _state (fut r.2) = RUNNING
      ∧ _start_time (fut r.2) = clock s (tick s)
      ∧ _end_time (fut r.2) = clock s (tick s)
      ∧ rp_callback <$> since s r.2 = _upd_callbacks (fut s)
      ∧ Forall (λ rp, rp_state rp = RUNNING ∧ rp_left rp == 0
                      ∧ 0 <= rp_past rp) (since s r.2)
  | CANCELLED =>
      r.1 = Some false ∧ _state (fut r.2) = CANCELLED_AND_NOTIFIED
      ∧ _start_time (fut r.2) = clock s (tick s)
      ∧ _end_time (fut r.2) = _end_time (fut s)
      ∧ since s r.2
        = final_report (fut r.2) <$> _upd_callbacks (fut s)
  | _ => r = (None, s)
  end.
Proof.
  intros Hm. simpl.
  unfold set_running_or_notify_cancel, bind,
    base_set_running_or_notify_cancel, bind, get_fut.
  destruct (_state (fut s)) eqn:Hst; try done.
  - unfold put_fut, ret, time_time. simpl. rewrite invoke_upd_eq.
    unfold after_upd, since. cbn [fst snd fut reports].
    rewrite drop_app_length.
    repeat split; try done.
    + apply reports_for_callbacks.
    + apply reports_for_Forall. intros t fn Ht.
      unfold report_of, progress. simpl. simpl in Ht.
      pose proof (Hm (tick s) t ltac:(lia)) as Hle.
      split; [done|]. split; [|Lqa.lra].
      unfold clamp_left. destruct (Qle_bool 0 _) eqn:E; [|done].
      apply Qle_bool_iff in E. Lqa.lra.
  - unfold put_fut, ret, time_time. simpl. rewrite invoke_upd_eq.
    unfold after_upd, since. cbn [fst snd fut reports].
    rewrite drop_app_length.
    repeat split; try done.
    simpl. generalize (Datatypes.S (tick s)).
    induction (_upd_callbacks (fut s)) as [|fn fns IH]; intros t0; simpl;
      [done|]. by rewrite IH.
Qed.

Lemma perform_frame (acts : list action) s :
  _upd_callbacks (fut (perform acts s)) = _upd_callbacks (fut s)
  ∧ ∃ new, reports (perform acts s) = reports s ++ new.
Proof.
  revert s. induction acts as [|a acts IH]; intros s; simpl.
  - split; [done|]. exists []. by rewrite app_nil_r.
  - destruct (IH (act a s).2) as (Hc & new & Hn).
    fold (perform acts (act a s).2). rewrite Hc, Hn.
    assert (Ha : _upd_callbacks (fut (act a s).2) = _upd_callbacks (fut s)
                 ∧ ∃ r1, reports (act a s).2 = reports s ++ r1).
    { destruct a as [val|]; simpl.
      - rewrite set_end_time_eq. simpl. split; [done|]. by eexists.
      - unfold bind, set_running_or_notify_cancel, bind,
          base_set_running_or_notify_cancel, bind, get_fut.
        destruct (_state (fut s)); unfold put_fut, ret, time_time; simpl;
          rewrite ?invoke_upd_eq; simpl;
          (split; [done|]); try (by eexists);
          exists []; by rewrite app_nil_r. }
    destruct Ha as (-> & r1 & ->). split; [done|].
    exists (r1 ++ new). by rewrite (assoc_L (++)).
Qed.

Lemma calls_to_app (fn : nat) (a b : list report) :
  calls_to fn (a ++ b) = calls_to fn a ++ calls_to fn b.
Proof. apply filter_app. Qed.

Lemma calls_to_final f (clk : nat → Q) (t0 : nat) (fn : nat)
    (fns : list nat) :
  still_open (_state f) = false → fn ∈ fns →
  last (calls_to fn (reports_for f clk t0 fns)) = Some (final_report f fn).
Proof.
  intros Hst. revert t0.
  assert (Hr : ∀ t g, report_of f (clk t) g = final_report f g).
  { intros t g. unfold report_of, final_report, progress.
    by destruct (_state f). }
  induction fns as [|g fns IH]; intros t0 Hin; [by apply elem_of_nil in Hin|].
  simpl. unfold calls_to in *. rewrite filter_cons. rewrite Hr.
  destruct (decide (fn ∈ fns)) as [Hf|Hf].
  - specialize (IH (Datatypes.S t0) Hf).
    destruct (decide (rp_callback (final_report f g) = fn)); [|done].
    rewrite last_cons, IH. done.
  - apply elem_of_cons in Hin as [->|?]; [|done].
    rewrite decide_True by done.
    assert (E : filter (λ r, rp_callback r = g)
                  (reports_for f clk (Datatypes.S t0) fns) = []).
    { clear IH. generalize (Datatypes.S t0).
      induction fns as [|h fns IH]; intros t1; [done|]. simpl.
      rewrite filter_cons. rewrite decide_False.
      - apply IH. intros ?. apply Hf. by right.
      - simpl. intros ->. apply Hf. by left. }
    by rewrite E.
Qed.

(** X16: A subscriber is always told the end of the task: added to a future
    that is CANCELLED or FINISHED, it is called at once, and only then,
    with the duration of the task and 0 s left, and it is not stored;
    added in any other state it is not called but stored last, and
    whatever the executor does to the times afterwards, the last call it
    has received once [set_result] returns states FINISHED, the duration
    of the task and 0 s left. *)
Theorem subscriber_called_at_end s (fn : nat) (acts : list action) (v : V) :
  let s1 := (add_update_callback fn s).2 in
  let s3 := (set_result v (perform acts s1)).2 in
  if still_open (_state (fut s)) then
    since s s1 = []
    ∧ _upd_callbacks (fut s1) = _upd_callbacks (fut s) ++ [fn]
    ∧ _state (fut s3) = FINISHED
    ∧ last (calls_to fn (since s s3)) = Some (final_report (fut s3) fn)
  else
    since s s1 = [final_report (fut s) fn] ∧ fut s1 = fut s.
Proof.
  simpl. unfold add_update_callback, bind, get_fut.
  assert (Hr : still_open (_state (fut s)) = false →
               report_of (fut s) (clock s (tick s)) fn
               = final_report (fut s) fn).
  { intros H. unfold report_of, final_report, progress.
    by destruct (_state (fut s)). }
  assert (Hopen : ∀ s1 : sys T V,
            reports s1 = reports s →
            _upd_callbacks (fut s1) = _upd_callbacks (fut s) ++ [fn] →
            since s s1 = []
            ∧ _upd_callbacks (fut s1) = _upd_callbacks (fut s) ++ [fn]
            ∧ _state (fut (set_result v (perform acts s1)).2) = FINISHED
            ∧ last (calls_to fn (since s (set_result v (perform acts s1)).2))
              = Some (final_report
                        (fut (set_result v (perform acts s1)).2) fn)).
  { intros s1 Hrep Hcb.
    split; [unfold since at 1; by rewrite Hrep, drop_all|]. split; [done|].
    destruct (perform_frame acts s1) as (Hc & new & Hn).
    rewrite set_result_eq. unfold after_upd, since. simpl.
    split; [done|].
    rewrite Hn, Hrep, <- (assoc_L (++)).
    rewrite drop_app_length, calls_to_app.
    rewrite Hc, Hcb.
    set (f := with_end _ _).
    assert (Hl : last (calls_to fn (reports_for f (clock (perform acts s1))
                     (Datatypes.S (tick (perform acts s1)))
                     (_upd_callbacks (fut s) ++ [fn])))
                 = Some (final_report f fn)).
    { apply calls_to_final; [done|]. apply elem_of_app. right. by left. }
    destruct (calls_to fn (reports_for f _ _ _)) as [|x l] eqn:E; [done|].
    rewrite last_app, Hl. done. }
  destruct (_state (fut s)) eqn:Hst; cbn [still_open];
    try (apply Hopen; done).
  - rewrite report_update_eq. unfold since. cbn [snd fut reports].
    rewrite drop_app_length. by rewrite Hr.
  - rewrite report_update_eq. unfold since. cbn [snd fut reports].
    rewrite drop_app_length. by rewrite Hr.
Qed.

End Generic.

Lemma set_running_times_witness :
  monotone seconds
  ∧ (set_running_or_notify_cancel pending_seconds).1 = Some true
  ∧ _end_time (fut (set_running_or_notify_cancel pending_seconds).2)
    = seconds 0.
Proof.
  split; [exact seconds_monotone|].
  pose proof (set_running_times pending_seconds seconds_monotone) as H.
  destruct H as (H1 & _ & _ & H4 & _).
  split; [exact H1|exact H4].
Defined.


End FutureMoreFacts.


(* ===================================================================== *)
(** * Further properties of the acquisition task                          *)
(* ===================================================================== *)

Module TaskMoreFacts.

Import AcqMng AcqMngMore FutureFacts FutureMoreFacts TaskFacts.
Local Open Scope Q_scope.

Lemma exec_app (a b : list ext) s : exec (a ++ b) s = exec b (exec a s).
Proof. unfold exec. by rewrite foldl_app. Qed.

(** Subscribers added while the future is pending are stored in order. *)
Lemma exec_subscribe (subs : list nat) s :
  _state (fut s) = PENDING →
  exec (ExtAddCallback <$> subs) s
  = subscribed (_upd_callbacks (fut s) ++ subs) s.
Proof.
  revert s. induction subs as [|fn subs IH]; intros s Hp.
  - simpl. rewrite app_nil_r. by destruct s as [[] ? ? ? ? ?].
  - change (exec (ExtAddCallback <$> fn :: subs) s)
      with (exec (ExtAddCallback <$> subs) (step (ExtAddCallback fn) s).2).
    assert (E : (step (ExtAddCallback fn) s).2
                = subscribed (_upd_callbacks (fut s) ++ [fn]) s).
    { unfold step. run_m. unfold add_update_callback. run_m. by rewrite Hp. }
    rewrite E, IH by done.
    unfold subscribed. simpl. by rewrite <- (assoc_L (++)).
Qed.

(** Once the future is CANCELLED_AND_NOTIFIED and the thread has given
    up, nothing moves any more. *)
Lemma never_run_step (e : ext) s :
  never_run s →
  never_run (step e s).2
  ∧ task (step e s).2 = task s
  ∧ reports (step e s).2 = reports s
  ∧ _result (fut (step e s).2) = _result (fut s).
Proof.
  intros [Hst Hpc]. unfold never_run.
  destruct e as [| | | |fn]; unfold step; run_m; rewrite ?Hpc; simpl.
  - done.
  - done.
  - rewrite cancel_over_eq by congruence. simpl. by rewrite Hpc.
  - done.
  - unfold add_update_callback. run_m. by rewrite Hst.
Qed.

Lemma never_run_exec (evs : list ext) s :
  never_run s →
  never_run (exec evs s)
  ∧ task (exec evs s) = task s
  ∧ reports (exec evs s) = reports s
  ∧ _result (fut (exec evs s)) = _result (fut s).
Proof.
  revert s. induction evs as [|e evs IH]; intros s Hs; [done|].
  change (exec (e :: evs) s) with (exec evs (step e s).2).
  destruct (never_run_step e s Hs) as (H1 & H2 & H3 & H4).
  destruct (IH _ H1) as (H5 & H6 & H7 & H8).
  split; [done|]. split; [congruence|]. split; congruence.
Qed.

(** X17: A [cancel()] that comes before the thread of the task has started:
    the thread gives up without touching any stream and no result is
    set; every subscriber of that moment is called twice with 0 s left,
    once by [cancel] and once by the thread; whatever happens later,
    nobody is called any more, not even a subscriber added afterwards. *)
Theorem cancel_before_start (streams : list Stream) (clk : nat → Q)
    (subs : list nat) (evs : list ext) :
  let s := exec ((ExtAddCallback <$> subs)
                 ++ ExtCancel :: ExtThreadStart :: evs)
                (startAcquisition streams clk) in
  _state (fut s) = CANCELLED_AND_NOTIFIED
  ∧ _result (fut s) = None
  ∧ thread_pc (task s) = NotRun
  ∧ stream_log (task s) = []
  ∧ rp_callback <$> reports s = subs ++ subs
  ∧ Forall (λ r, rp_left r = 0) (reports s).
Proof.
  cbv zeta. rewrite exec_app, exec_subscribe by done.
  change (ExtCancel :: ExtThreadStart :: evs)
    with ([ExtCancel; ExtThreadStart] ++ evs).
  rewrite exec_app.
  set (s0 := subscribed _ _).
  assert (H1 : never_run (exec [ExtCancel; ExtThreadStart] s0)
               ∧ _result (fut (exec [ExtCancel; ExtThreadStart] s0)) = None
               ∧ stream_log (task (exec [ExtCancel; ExtThreadStart] s0)) = []
               ∧ rp_callback <$> reports (exec [ExtCancel; ExtThreadStart] s0)
                 = subs ++ subs
               ∧ Forall (λ r, rp_left r = 0)
                   (reports (exec [ExtCancel; ExtThreadStart] s0))).
  { cbn [exec foldl].
    assert (Hc : (step ExtCancel s0).2
                 = after_upd
                     {| fut := set_state CANCELLED (fut s0); task := task s0;
                        clock := clock s0; tick := tick s0;
                        reports := reports s0;
                        done_log := done_log s0 ++ _done_callbacks (fut s0) |}).
    { unfold step. run_m. by rewrite (cancel_pending_eq s0 eq_refl). }
    rewrite Hc. clear Hc.
    unfold step. run_m.
    unfold _executeTask, set_running_or_notify_cancel,
      base_set_running_or_notify_cancel. run_m.
    rewrite invoke_upd_eq. unfold after_upd. simpl.
    split; [done|]. split; [done|]. split; [done|].
    rewrite fmap_app, !reports_for_callbacks. split; [done|].
    apply Forall_app. split; apply reports_for_Forall; by intros. }
  destruct H1 as (Hn & Hr & Hl & Hcb & Hleft).
  destruct (never_run_exec evs _ Hn) as ([? ?] & Ht & Hrep & Hres).
  rewrite Hrep. repeat split; congruence.
Qed.

Lemma thread_start_progress s :
  _state (fut s) = PENDING → thread_pc (task s) = NotStarted →
  _current_stream (task s) = None → _result (fut s) = None →
  task_canceller (fut (step ExtThreadStart s).2) = task_canceller (fut s)
  ∧ raw_images (task (step ExtThreadStart s).2) = []
  ∧ stream_log (task (step ExtThreadStart s).2)
    = stream_log (task s)
      ++ match _streams (task s) with
         | [] => []
         | x :: _ => started_on x
         end
  ∧ match _streams (task s) with
    | [] => _state (fut (step ExtThreadStart s).2) = FINISHED
            ∧ _result (fut (step ExtThreadStart s).2) = Some []
    | _ :: _ => _state (fut (step ExtThreadStart s).2) = RUNNING
                ∧ _result (fut (step ExtThreadStart s).2) = None
    end.
Proof.
  intros Hp Hpc Hcur Hres. unfold step. run_m. rewrite Hpc.
  unfold _executeTask, set_running_or_notify_cancel,
    base_set_running_or_notify_cancel. run_m. rewrite Hp. simpl.
  rewrite invoke_upd_eq. simpl. unfold run_start. run_m. rewrite Hcur. simpl.
  rewrite set_end_time_eq. simpl. unfold next_stream. run_m.
  destruct (_streams (task s)) as [|x rest] eqn:Ho; simpl.
  - unfold settle. run_m. rewrite set_result_eq. simpl.
    by rewrite !app_nil_r.
  - unfold settle. run_m. by rewrite !app_nil_r.
Qed.

Lemma progress_start (streams : list Stream) (clk : nat → Q) :
  progress_inv streams 0 (acquired streams clk 0).
Proof.
  unfold progress_inv. cbv zeta. split; [apply position_start|].
  unfold acquired, exec. cbn [replicate foldl take fmap list_fmap concat].
  destruct (thread_start_progress (startAcquisition streams clk)
              eq_refl eq_refl eq_refl eq_refl) as (Hc & Hr & Hl & Hst).
  split; [exact Hc|]. split; [exact Hr|].
  change (_streams (task (startAcquisition streams clk)))
    with (_streams (new_task streams)) in *.
  destruct (_streams (new_task streams)) as [|x rest]; simpl in *.
  - by rewrite Hl.
  - by rewrite Hl.
Qed.

Lemma progress_step (streams : list Stream) (k : nat) s :
  progress_inv streams k s →
  progress_inv streams (Datatypes.S k) (step ExtImage s).2.
Proof.
  unfold progress_inv. cbv zeta.
  intros (Hpos & Hcan & Hraw & Hlog & Hst).
  split; [by apply position_step|].
  revert Hpos Hraw Hlog Hst. unfold at_position. cbv zeta.
  pose proof (order_lookup streams) as Hlook.
  remember (new_task streams) as t0 eqn:Heqt0. clear Heqt0.
  intros (He & Ht & Hc & Hpos) Hraw Hlog Hst.
  destruct (drop k (_streams t0)) as [|x rest] eqn:Hd.
  - assert (Hlen : length (_streams t0) ≤ k).
    { destruct (decide (length (_streams t0) ≤ k)) as [|Hn]; [done|].
      apply (f_equal length) in Hd. rewrite length_drop in Hd.
      cbn [length] in Hd. lia. }
    assert (E : (step ExtImage s).2 = s).
    { unfold step. run_m. by rewrite Hpos. }
    rewrite E. rewrite (take_ge _ (Datatypes.S k)) by lia.
    rewrite take_ge in Hraw, Hlog by lia.
    rewrite (lookup_ge_None_2 _ (Datatypes.S k)) by lia.
    rewrite (lookup_ge_None_2 _ k) in Hlog by lia.
    rewrite decide_False in Hst by lia. rewrite decide_False by lia.
    done.
  - destruct Hpos as (Hpc & Hcur & Htodo).
    assert (Hk : _streams t0 !! k = Some x).
    { rewrite <- (Nat.add_0_r k), <- lookup_drop, Hd. done. }
    assert (Hl : _streamTimes t0 !! sid x = Some (x, acq_time x)).
    { apply Hlook. by eapply list_elem_of_lookup_2. }
    assert (Hrest : drop (Datatypes.S k) (_streams t0) = rest).
    { rewrite (drop_S _ _ _ Hk) in Hd. by injection Hd. }
    assert (Hlt : (k < length (_streams t0))%nat).
    { by eapply lookup_lt_Some. }
    assert (Hnext : _streams t0 !! Datatypes.S k = head rest).
    { rewrite <- Hrest, <- (Nat.add_0_r (Datatypes.S k)), <- lookup_drop.
      rewrite Nat.add_0_r.
      by destruct (drop (Datatypes.S k) (_streams t0)). }
    rewrite decide_True in Hst by done. destruct Hst as [Hrun Hres].
    rewrite Hk in Hlog.
    rewrite (take_S_r _ _ _ Hk), !fmap_app, !concat_app, Hnext.
    cbn [fmap list_fmap concat]. rewrite !app_nil_r.
    unfold step. run_m. rewrite Hpc. run_m. unfold run_resume. run_m.
    rewrite Hc, Hcur, Ht, Hl. simpl.
    rewrite set_end_time_eq. simpl. unfold next_stream. run_m.
    rewrite Htodo.
    assert (Hall : rest = [] → take (Datatypes.S k) (_streams t0) = _streams t0).
    { intros ->. rewrite <- (take_drop (Datatypes.S k) (_streams t0)) at 2.
      by rewrite Hrest, app_nil_r. }
    destruct rest as [|y rest']; simpl.
    + unfold settle. run_m. rewrite set_result_eq. simpl.
      split; [done|]. rewrite Hraw, Hlog.
      split; [by unfold tagged|].
      split; [rewrite ?Hcur; unfold started_on, stopped_on; simpl;
              by rewrite ?app_nil_r, <- ?(assoc_L (++))|].
      assert (Hn : length (_streams t0) = Datatypes.S k).
      { apply (f_equal length) in Hrest. rewrite length_drop in Hrest.
        simpl in Hrest. lia. }
      rewrite decide_False by lia. split; [done|].
      rewrite <- (Hall eq_refl) at 2.
      rewrite (take_S_r _ _ _ Hk), fmap_app, concat_app. simpl.
      by rewrite app_nil_r.
    + unfold settle. run_m.
      split; [done|]. rewrite Hraw, Hlog.
      split; [by unfold tagged|].
      split; [rewrite ?Hcur; unfold started_on, stopped_on; simpl;
              by rewrite ?app_nil_r, <- ?(assoc_L (++))|].
      assert (Hn : (Datatypes.S k < length (_streams t0))%nat).
      { apply (f_equal length) in Hrest. rewrite length_drop in Hrest.
        simpl in Hrest. lia. }
      by rewrite decide_True by lia.
Qed.

Lemma progress_acquired (streams : list Stream) (clk : nat → Q) (k : nat) :
  progress_inv streams k (acquired streams clk k).
Proof.
  induction k as [|k IH]; [apply progress_start|].
  rewrite acquired_S. by apply progress_step.
Qed.

(** X18: the streams are acquired one after the other, in the order the task
    has chosen: once the thread has started and [k] images have come,
    the first [k] streams have each been subscribed to and activated,
    then unsubscribed from and deactivated on their image, and only the
    next one is active; [raw_images] holds their data in that order,
    each with the name of its stream as description; the future is
    RUNNING without result until the last image, and then FINISHED with
    all the data as result. *)
Theorem acquisition_sequence (streams : list Stream) (clk : nat → Q)
    (k : nat) :
  let order := _streams (new_task streams) in
  let s := acquired streams clk k in
  raw_images (task s) = concat (tagged <$> take k order)
  ∧ stream_log (task s)
    = concat ((λ x, started_on x ++ stopped_on x) <$> take k order)
      ++ match order !! k with
         | Some x => started_on x
         | None => []
         end
  ∧ if decide (k < length order)%nat
    then _state (fut s) = RUNNING ∧ _result (fut s) = None
    else _state (fut s) = FINISHED
         ∧ _result (fut s) = Some (concat (tagged <$> order)).
Proof.
  cbv zeta. destruct (progress_acquired streams clk k) as (_ & _ & H).
  exact H.
Qed.


Lemma insert_desc_sorted {A} (key : A → nat) (x : A) (l : list A) :
  StronglySorted (λ a b, (key b ≤ key a)%nat) l →
  StronglySorted (λ a b, (key b ≤ key a)%nat) (insert_desc key x l).
Proof.
  induction 1 as [|y l Hs IH Hy]; simpl.
  - by repeat constructor.
  - destruct (key x <? key y)%nat eqn:E.
    + apply Nat.ltb_lt in E. constructor; [done|].
      rewrite insert_desc_perm. constructor; [lia|done].
    + apply Nat.ltb_ge in E. constructor; [by constructor|].
      constructor; [done|].
      eapply Forall_impl; [exact Hy|]. simpl. intros z Hz. lia.
Qed.

Lemma sorted_desc_sorted {A} (key : A → nat) (l : list A) :
  StronglySorted (λ a b, (key b ≤ key a)%nat) (sorted_desc key l).
Proof.
  induction l as [|x l IH]; simpl; [constructor|].
  by apply insert_desc_sorted.
Qed.

(** X19: the task acquires every stream object it is given exactly once, also
    when the list names it several times, and nothing else, by
    non-increasing weight: fluorescence first, then the other optical
    streams, then the electron streams. *)
Theorem acquisition_order (streams : list Stream) :
  let order := _streams (new_task streams) in
  StronglySorted by_weight order
  ∧ NoDup (sid <$> order)
  ∧ (∀ x, x ∈ order → x ∈ streams)
  ∧ (∀ x, x ∈ streams → sid x ∈ sid <$> order).
Proof.
  cbv zeta. unfold new_task. cbn [_streams].
  set (d := foldl _ ∅ streams).
  assert (Hk : keyed d) by apply (keyed_new_task streams).
  split; [apply sorted_desc_sorted|].
  split; [|split].
  - rewrite sorted_desc_perm, (sid_keys d Hk). apply NoDup_fst_map_to_list.
  - intros x Hx. rewrite sorted_desc_perm in Hx.
    pose proof (elem_of_dict_keys d x Hk Hx) as Hl.
    apply times_lookup in Hl as [?|Hl]; [done|].
    by rewrite lookup_empty in Hl.
  - intros x Hx. rewrite sorted_desc_perm, (sid_keys d Hk).
    destruct (times_is_Some streams ∅ (sid x)) as [[y q] Hl].
    { left. apply list_elem_of_fmap. by exists x. }
    apply list_elem_of_fmap. exists (sid x, (y, q)). split; [done|].
    by apply elem_of_map_to_list.
Qed.

Example acquisition_order_example :
  sid <$> _streams (new_task [stream_C; stream_A; stream_B; stream_A])
  = [1; 2; 3]%nat.
Proof. vm_compute. reflexivity. Qed.

Lemma NoDup_sid_filter (P : Stream → Prop) `{∀ x, Decision (P x)}
    (l : list Stream) :
  NoDup (sid <$> l) → NoDup (sid <$> filter P l).
Proof.
  induction l as [|z l IH]; [done|]. rewrite fmap_cons.
  intros [Hz Hn]%NoDup_cons. rewrite filter_cons.
  destruct (decide (P z)); [|by apply IH].
  rewrite fmap_cons. apply NoDup_cons. split; [|by apply IH].
  intros Hin. apply Hz. apply list_elem_of_fmap in Hin as (y & -> & Hy).
  apply list_elem_of_fmap. exists y. split; [done|].
  by apply list_elem_of_filter in Hy as [_ ?].
Qed.

Lemma filter_iff_in (P Q : Stream → Prop) `{∀ x, Decision (P x)}
    `{∀ x, Decision (Q x)} (l : list Stream) :
  (∀ x, x ∈ l → P x ↔ Q x) → filter P l = filter Q l.
Proof.
  induction l as [|z l IH]; intros Hpq; [done|].
  rewrite !filter_cons.
  rewrite IH by (intros x Hx; apply Hpq; by right).
  destruct (decide (P z)) as [Hp|Hp], (decide (Q z)) as [Hq|Hq]; try done.
  - exfalso. apply Hq. apply Hpq; [by left|done].
  - exfalso. apply Hp. apply Hpq; [by left|done].
Qed.

Lemma filter_all_in (P : Stream → Prop) `{∀ x, Decision (P x)}
    (l : list Stream) :
  (∀ x, x ∈ l → P x) → filter P l = l.
Proof.
  induction l as [|z l IH]; intros Hp; [done|].
  rewrite filter_cons, decide_True by (apply Hp; by left).
  f_equal. apply IH. intros x Hx. apply Hp. by right.
Qed.

Lemma list_remove_filter (x : Stream) (l : list Stream) :
  NoDup (sid <$> l) → sid x ∈ sid <$> l →
  list_remove x l = Some (filter (λ y, sid y ≠ sid x) l).
Proof.
  induction l as [|z l IH]; [intros _ H; by apply elem_of_nil in H|].
  rewrite fmap_cons. intros [Hz Hn]%NoDup_cons Hin. simpl.
  rewrite filter_cons. destruct (decide (sid z = sid x)) as [E|E].
  - rewrite decide_False by (intros ?; done). f_equal. symmetry.
    apply filter_all_in. intros y Hy Hs. apply Hz. rewrite E, <- Hs.
    apply list_elem_of_fmap. by exists y.
  - rewrite decide_True by done.
    apply elem_of_cons in Hin as [?|Hin]; [congruence|].
    by rewrite IH.
Qed.

Lemma list_remove_app (x : Stream) (a b : list Stream) :
  sid x ∈ sid <$> a →
  list_remove x (a ++ b) = (λ a', a' ++ b) <$> list_remove x a.
Proof.
  induction a as [|z a IH]; [intros H; by apply elem_of_nil in H|].
  rewrite fmap_cons. intros Hin. simpl.
  destruct (decide (sid z = sid x)); [done|].
  apply elem_of_cons in Hin as [?|Hin]; [congruence|].
  rewrite IH by done. by destruct (list_remove x a).
Qed.


Section MergeFacts.

Context `{SC : StreamClasses}.


Lemma merge_fold (semcl : Stream) (q A mdss : list Stream) :
  NoDup (sid <$> A) → sid semcl ∉ sid <$> A → sid semcl ∉ sid <$> mdss →
  (∀ s, s ∈ q → s ∈ A) → NoDup (sid <$> q) →
  (∀ s, s ∈ q → sid (mds_of semcl s) ≠ sid semcl) →
  foldl (merge_spec semcl) (Some (A ++ mdss)) q
  = Some (filter (λ y, sid y ∉ sid <$> q) A ++ mdss ++ (mds_of semcl <$> q)).
Proof.
  revert A mdss. induction q as [|s q IH]; intros A mdss HnA HA Hm Hq Hnq Hf.
  - simpl. rewrite app_nil_r. f_equal. f_equal. symmetry.
    apply filter_all_in. intros x _ H. by apply elem_of_nil in H.
  - rewrite fmap_cons in Hnq. apply NoDup_cons in Hnq as [Hs Hnq].
    assert (HsA : sid s ∈ sid <$> A).
    { apply list_elem_of_fmap. exists s. split; [done|]. apply Hq. by left. }
    cbn [foldl merge_spec].
    rewrite list_remove_app, list_remove_filter by done. cbn [fmap option_fmap option_map].
    set (A' := filter (λ y, sid y ≠ sid s) A).
    assert (HA' : sid semcl ∉ sid <$> A').
    { intros Hin. apply HA. apply list_elem_of_fmap in Hin as (y & -> & Hy).
      apply list_elem_of_fmap. exists y. split; [done|].
      by apply list_elem_of_filter in Hy as [_ ?]. }
    unfold list_in. rewrite bool_decide_eq_false_2.
    2:{ rewrite fmap_app, elem_of_app. tauto. }
    rewrite <- (assoc_L (++)). rewrite IH.
    + f_equal. rewrite <- !(assoc_L (++)). cbn [fmap list_fmap app]. f_equal.
      unfold A'. rewrite list_filter_filter. apply filter_iff_in.
      intros x _. rewrite elem_of_cons. tauto.
    + by apply NoDup_sid_filter.
    + done.
    + rewrite fmap_app, elem_of_app. intros [?|H]; [done|].
      cbn in H. apply list_elem_of_singleton in H.
      by apply (Hf s); [left|].
    + intros s' Hs'. apply list_elem_of_filter. split; [|apply Hq; by right].
      intros E. apply Hs. rewrite <- E. apply list_elem_of_fmap. by exists s'.
    + done.
    + intros s' Hs'. apply Hf. by right.
Qed.

(** X21: [_mergeStreams] leaves the list as it is when it has no electron
    stream named "SEM CL" or no spectrum stream. Otherwise, on a list of
    distinct objects, it replaces every spectrum stream by a stream that
    pairs it with the first SEM CL stream, named after both, removes
    that SEM CL stream, keeps the other streams in their order and puts
    the new streams last, in the order of the spectrum streams. *)
Theorem merge_pairs (streams : list Stream) :
  match filter (λ s, is_semcl s = true) streams, filter (λ s, isinstance_Spectrum s = true) streams with
  | [], _ | _, [] => _mergeStreams streams = Some streams
  | semcl :: _, _ :: _ =>
      NoDup (sid <$> streams) →
      isinstance_Spectrum semcl = false →
      (∀ s, s ∈ streams → sid (mds_of semcl s) ≠ sid semcl) →
      _mergeStreams streams
      = Some (filter (λ y, isinstance_Spectrum y = false
                           ∧ sid y ≠ sid semcl) streams
              ++ (mds_of semcl <$> filter (λ s, isinstance_Spectrum s = true) streams))
  end.
Proof.
  unfold _mergeStreams. cbv zeta.
  destruct (filter (λ s, is_semcl s = true) streams) as [|semcl others] eqn:Hc; [done|].
  destruct (filter (λ s, isinstance_Spectrum s = true) streams) as [|s q] eqn:Hq; [done|].
  intros Hn Hns Hf.
  assert (Hsemcl : semcl ∈ streams).
  { assert (H : semcl ∈ filter (λ s, is_semcl s = true) streams) by (rewrite Hc; by left).
    by apply list_elem_of_filter in H as [_ ?]. }
  assert (Hspecs : ∀ x, x ∈ s :: q ↔ isinstance_Spectrum x = true ∧ x ∈ streams).
  { intros x. by rewrite <- Hq, list_elem_of_filter. }
  assert (Hnq : NoDup (sid <$> s :: q)).
  { rewrite <- Hq. by apply NoDup_sid_filter. }
  assert (Hne : ∀ x, x ∈ s :: q → sid x ≠ sid semcl).
  { intros x Hx E. apply Hspecs in Hx as [Hx1 Hx2].
    rewrite (sid_inj streams x semcl Hn Hx2 Hsemcl E) in Hx1. congruence. }
  assert (Hs : s ∈ streams) by (apply Hspecs; by left).
  rewrite fmap_cons in Hnq. apply NoDup_cons in Hnq as [Hsq Hnq].
  cbn [foldl merge_spec].
  rewrite list_remove_filter; [|done|apply list_elem_of_fmap; by exists s].
  set (A0 := filter (λ y, sid y ≠ sid s) streams).
  assert (Hin0 : sid semcl ∈ sid <$> A0).
  { apply list_elem_of_fmap. exists semcl. split; [done|].
    apply list_elem_of_filter. split; [|done].
    intros E. by apply (Hne s); [left|]. }
  unfold list_in. rewrite bool_decide_eq_true_2 by done.
  rewrite list_remove_filter; [|by apply NoDup_sid_filter|done].
  set (A1 := filter (λ y, sid y ≠ sid semcl) A0).
  rewrite (merge_fold semcl q A1 [mds_of semcl s]).
  - f_equal. f_equal.
    unfold A1, A0. rewrite !list_filter_filter. apply filter_iff_in.
    intros x Hx. split.
    + intros [[Hxq Hxc] Hxs]. split; [|done].
      destruct (isinstance_Spectrum x) eqn:Ex; [|done]. exfalso.
      assert (Hin : x ∈ s :: q) by (by apply Hspecs).
      apply elem_of_cons in Hin as [->|Hin]; [done|].
      apply Hxq. apply list_elem_of_fmap. by exists x.
    + intros [Hx1 Hx2]. split; [split; [|done]|].
      * intros Hin. apply list_elem_of_fmap in Hin as (y & E & Hy).
        assert (Hy' : y ∈ s :: q) by (by right).
        apply Hspecs in Hy' as [Hy1 Hy2].
        rewrite (sid_inj streams x y Hn Hx Hy2 E) in Hx1. congruence.
      * intros E. rewrite (sid_inj streams x s Hn Hx Hs E) in Hx1.
        assert (Hs' : s ∈ s :: q) by (by left).
        apply Hspecs in Hs' as [? _]. congruence.
  - unfold A1, A0. by do 2 apply NoDup_sid_filter.
  - intros Hin. apply list_elem_of_fmap in Hin as (y & E & Hy).
    by apply list_elem_of_filter in Hy as [? _].
  - cbn. intros H. apply list_elem_of_singleton in H. by apply (Hf s).
  - intros s' Hs'. assert (Hs2 : s' ∈ s :: q) by (by right).
    apply list_elem_of_filter. split; [by apply Hne|].
    apply list_elem_of_filter. split; [|by apply Hspecs].
    intros E. apply Hsq. rewrite <- E. apply list_elem_of_fmap. by exists s'.
  - done.
  - intros s' Hs'. apply Hf. apply Hspecs. by right.
Qed.

End MergeFacts.


(** With the estimates 0.1 s, 0.2 s and 0.3 s the order matters: added
    as 0.3, 0.2, 0.1 they give 0.6, added as 0.1, 0.2, 0.3 they give
    0.6000000000000001, and the countdown of the task starts from one of
    the two whatever the order of the list. *)
Example estimate_differs_from_seed :
  @estimateTime demo_classes [stream_D; stream_E; stream_F]
  ≠ @estimateTime demo_classes [stream_F; stream_E; stream_D]
  ∧ expected_time (task (acquired [stream_D; stream_E; stream_F] seconds 0))
    = expected_time (task (acquired [stream_F; stream_E; stream_D] seconds 0)).
Proof. split; [vm_compute; discriminate|vm_compute; reflexivity]. Qed.

Lemma merge_pairs_witness :
  @_mergeStreams demo_classes [stream_CL; stream_A; stream_S]
  = Some ([stream_A] ++ [demo_mds "SEM CL - Spectrum" stream_CL stream_S]).
Proof.
  apply (@merge_pairs demo_classes [stream_CL; stream_A; stream_S]).
  - compute_done.
  - reflexivity.
  - intros s _. simpl. lia.
Defined.


End TaskMoreFacts.


(* ===================================================================== *)
(** * Further properties of hole detection                                *)
(* ===================================================================== *)

Module DelphiMoreFacts.

Import AcqMng Delphi DelphiMore DelphiFacts.

Section Runs.
Context {S : Type} `{Actuator S}.
Implicit Types (w : @world S) (o : store).
Local Open Scope Q_scope.

Lemma rel_moves_app (a b : list hd_event) :
  rel_moves (a ++ b) = rel_moves a ++ rel_moves b.
Proof. apply omap_app. Qed.

Lemma cancelled_at_read_mono w (k k' : nat) :
  (k ≤ k')%nat → cancelled_at_read w k = true → cancelled_at_read w k' = true.
Proof.
  unfold cancelled_at_read. intros Hk. destruct (cancel_at w); [|done].
  rewrite !bool_decide_eq_true. lia.
Qed.

(** The centring loop: it reads the state at least once and keeps it,
    ends on [CancelledError] only when its last reading found the task
    cancelled, does nothing when the first one does, and otherwise
    takes at most [remaining] images and makes at most as many moves. *)
Lemma center_inv (remaining : nat) (et : Q) (tab : option (Q * Q)) w :
  cancel_at (center_on_hole remaining et tab w).2 = cancel_at w
  ∧ _hole_detection_state (center_on_hole remaining et tab w).2
    = _hole_detection_state w
  ∧ images (center_on_hole remaining et tab w).2 = images w
  ∧ (reads w < reads (center_on_hole remaining et tab w).2)%nat
  ∧ ((center_on_hole remaining et tab w).1 = Exc Cancelled →
     cancelled_at_read w (reads (center_on_hole remaining et tab w).2 - 1)
     = true)
  ∧ (cancelled_at_read w (reads w) = true →
     (center_on_hole remaining et tab w).1 = Exc Cancelled
     ∧ trace (center_on_hole remaining et tab w).2 = trace w
     ∧ taken (center_on_hole remaining et tab w).2 = taken w
     ∧ sem_stage (center_on_hole remaining et tab w).2 = sem_stage w)
  ∧ ∃ evs, trace (center_on_hole remaining et tab w).2 = trace w ++ evs
      ∧ (length (rel_moves evs) ≤ remaining)%nat
      ∧ (length (images_got evs) ≤ remaining)%nat
      ∧ (length (rel_moves evs) ≤ length (images_got evs))%nat
      ∧ taken (center_on_hole remaining et tab w).2
        = (taken w + length (images_got evs))%nat.
Proof.
  revert tab w. induction remaining as [|r IH]; intros tab w;
    cbn [center_on_hole]; unfold is_cancelled;
    fold (cancelled_at_read w (reads w));
    destruct (cancelled_at_read w (reads w)) eqn:Hc; cbn.
  - rewrite Nat.sub_0_r, app_nil_r. repeat split; try done; try lia.
    exists []. rewrite app_nil_r. cbn. repeat split; try done; lia.
  - rewrite app_nil_r. repeat split; try done; try lia.
    exists []. rewrite app_nil_r. cbn. repeat split; try done; lia.
  - rewrite Nat.sub_0_r, app_nil_r. repeat split; try done; try lia.
    exists []. rewrite app_nil_r. cbn. repeat split; try done; lia.
  - destruct (hole_center (images w (taken w))) as [hc|]; cbn.
    2:{ rewrite app_nil_r. repeat split; try done; try lia.
        exists [GetImage]. cbn. repeat split; try done; lia. }
    match goal with |- context [close_enough ?t] =>
      destruct (close_enough t) eqn:Hclose; cbn end.
    { rewrite app_nil_r. repeat split; try done; try lia.
      exists [GetImage]. cbn. repeat split; try done; lia. }
    match goal with |- context [center_on_hole r et ?t ?w1] =>
      destruct (IH t w1) as (I1 & I2 & I3 & I4 & I5 & I6 & evs & I7 & I8
                             & I9 & I10 & I11);
      destruct (center_on_hole r et t w1) as [res w2] end.
    cbn in I1, I2, I3, I4, I5, I6, I7, I11. cbn.
    unfold cancelled_at_read in I5. cbn in I5.
    fold (cancelled_at_read w (reads w2 - 1)) in I5.
    split; [done|]. split; [done|]. split; [done|]. split; [lia|].
    split; [done|]. split; [done|].
    eexists. split.
    { rewrite I7, app_nil_r, <- !(assoc_L (++)). reflexivity. }
    rewrite !rel_moves_app, !images_got_app, !length_app. cbn.
    repeat split; lia.
Qed.

(** The loop over the holes. *)
Lemma detect_inv (holes hf : list nat) (et : Q) (tab : option (Q * Q)) w :
  cancel_at (detect_holes holes hf et tab w).2 = cancel_at w
  ∧ _hole_detection_state (detect_holes holes hf et tab w).2
    = _hole_detection_state w
  ∧ images (detect_holes holes hf et tab w).2 = images w
  ∧ (reads w ≤ reads (detect_holes holes hf et tab w).2)%nat
  ∧ ((detect_holes holes hf et tab w).1 = Exc Cancelled →
     (reads w < reads (detect_holes holes hf et tab w).2)%nat
     ∧ cancelled_at_read w (reads (detect_holes holes hf et tab w).2 - 1)
       = true)
  ∧ (holes ≠ [] → cancelled_at_read w (reads w) = true →
     (detect_holes holes hf et tab w).1 = Exc Cancelled
     ∧ trace (detect_holes holes hf et tab w).2 = trace w
     ∧ taken (detect_holes holes hf et tab w).2 = taken w
     ∧ sem_stage (detect_holes holes hf et tab w).2 = sem_stage w
     ∧ objects (detect_holes holes hf et tab w).2 = objects w)
  ∧ ∃ evs, trace (detect_holes holes hf et tab w).2 = trace w ++ evs
      ∧ (length (rel_moves evs) ≤ length holes * MAX_STEPS)%nat
      ∧ (length (images_got evs) ≤ length holes * MAX_STEPS)%nat
      ∧ (length (abs_moves evs) ≤ length holes)%nat
      ∧ (length (rel_moves evs) ≤ length (images_got evs))%nat
      ∧ taken (detect_holes holes hf et tab w).2
        = (taken w + length (images_got evs))%nat.
Proof.
  revert tab w. induction holes as [|hole rest IH]; intros tab w;
    cbn [detect_holes].
  { cbn [fst snd]. repeat split; try done.
    exists []. rewrite app_nil_r. cbn. repeat split; lia. }
  unfold is_cancelled. fold (cancelled_at_read w (reads w)).
  destruct (cancelled_at_read w (reads w)) eqn:Hc;
    cbn [fst snd cancel_at _hole_detection_state images reads trace taken
         sem_stage objects escan upd_world Nat.sub].
  { rewrite Nat.sub_0_r, app_nil_r. repeat split; try done; try lia.
    exists []. rewrite app_nil_r. cbn. repeat split; lia. }
  assert (Hexit : ∀ (e : err) (w' : @world S) (evs : list hd_event),
            cancel_at w' = cancel_at w →
            _hole_detection_state w' = _hole_detection_state w →
            images w' = images w → (reads w < reads w')%nat →
            (e = Cancelled → cancelled_at_read w (reads w' - 1) = true) →
            trace w' = trace w ++ evs →
            (length (rel_moves evs) ≤ MAX_STEPS)%nat →
            (length (images_got evs) ≤ MAX_STEPS)%nat →
            (length (abs_moves evs) ≤ 1)%nat →
            (length (rel_moves evs) ≤ length (images_got evs))%nat →
            taken w' = (taken w + length (images_got evs))%nat →
            cancel_at w' = cancel_at w
            ∧ _hole_detection_state w' = _hole_detection_state w
            ∧ images w' = images w
            ∧ (reads w ≤ reads w')%nat
            ∧ (@Exc unit e = Exc Cancelled →
               (reads w < reads w')%nat
               ∧ cancelled_at_read w (reads w' - 1) = true)
            ∧ (hole :: rest ≠ [] → false = true →
               @Exc unit e = Exc Cancelled ∧ trace w' = trace w
               ∧ taken w' = taken w ∧ sem_stage w' = sem_stage w
               ∧ objects w' = objects w)
            ∧ ∃ evs, trace w' = trace w ++ evs
                ∧ (length (rel_moves evs)
                   ≤ length (hole :: rest) * MAX_STEPS)%nat
                ∧ (length (images_got evs)
                   ≤ length (hole :: rest) * MAX_STEPS)%nat
                ∧ (length (abs_moves evs) ≤ length (hole :: rest))%nat
                ∧ (length (rel_moves evs) ≤ length (images_got evs))%nat
                ∧ taken w' = (taken w + length (images_got evs))%nat).
  { intros e w' evs E1 E2 E3 E4 E5 E6 E7 E8 E9 E10 E11.
    split; [done|]. split; [done|]. split; [done|]. split; [lia|].
    split; [intros [= ->]; by split; [|apply E5]|]. split; [done|].
    exists evs. cbn [length Nat.mul]. repeat split; try done; lia. }
  destruct (read_hole EXPECTED_HOLES hole "x" (objects w)) as [x|] eqn:Hx.
  2:{ cbn [fst snd]. apply (Hexit LookupError _ []); cbn; try done; try lia.
      by rewrite app_nil_r. }
  destruct (read_hole EXPECTED_HOLES hole "y" (objects w)) as [y|] eqn:Hy.
  2:{ cbn [fst snd]. apply (Hexit LookupError _ []); cbn; try done; try lia.
      by rewrite app_nil_r. }
  match goal with |- context [center_on_hole MAX_STEPS et tab ?wa] =>
    destruct (center_inv MAX_STEPS et tab wa)
      as (C1 & C2 & C3 & C4 & C5 & _ & cevs & C7 & C8 & C9 & C10 & C11);
    destruct (center_frame MAX_STEPS et tab wa) as (_ & cevs' & C7' & C12);
    destruct (center_on_hole MAX_STEPS et tab wa) as [res wb] end.
  cbn [fst snd cancel_at _hole_detection_state images reads trace taken
       sem_stage objects escan upd_world] in C1, C2, C3, C4, C5, C7, C7', C11.
  rewrite C7 in C7'. apply app_inv_head in C7'. subst cevs'.
  unfold cancelled_at_read in C5.
  cbn [cancel_at _hole_detection_state reads upd_world] in C5.
  fold (cancelled_at_read w (reads wb - 1)) in C5.
  rewrite !app_nil_r in C7.
  assert (Hcenter : ∀ e : err, (e = Cancelled → res = Exc Cancelled) →
            cancel_at wb = cancel_at w
            ∧ _hole_detection_state wb = _hole_detection_state w
            ∧ images wb = images w
            ∧ (reads w ≤ reads wb)%nat
            ∧ (@Exc unit e = Exc Cancelled →
               (reads w < reads wb)%nat
               ∧ cancelled_at_read w (reads wb - 1) = true)
            ∧ (hole :: rest ≠ [] → false = true →
               @Exc unit e = Exc Cancelled ∧ trace wb = trace w
               ∧ taken wb = taken w ∧ sem_stage wb = sem_stage w
               ∧ objects wb = objects w)
            ∧ ∃ evs, trace wb = trace w ++ evs
                ∧ (length (rel_moves evs)
                   ≤ length (hole :: rest) * MAX_STEPS)%nat
                ∧ (length (images_got evs)
                   ≤ length (hole :: rest) * MAX_STEPS)%nat
                ∧ (length (abs_moves evs) ≤ length (hole :: rest))%nat
                ∧ (length (rel_moves evs) ≤ length (images_got evs))%nat
                ∧ taken wb = (taken w + length (images_got evs))%nat).
  { intros e He.
    apply (Hexit e wb ([MoveAbs (x, y)] ++ cevs)); try done; try lia.
    - intros ->. apply C5. by apply He.
    - by rewrite C7, <- (assoc_L (++)).
    - rewrite abs_moves_app, C12. cbn. lia. }
  destruct res as [[tab'|]|e]; cbn [fst snd];
    [|by apply Hcenter|apply Hcenter; by intros ->].
  destruct (write_hole hf hole "x" _ (objects wb)) as [o1|];
    [|cbn [fst snd]; by apply Hcenter].
  destruct (write_hole hf hole "y" _ o1) as [o2|];
    [|cbn [fst snd]; by apply Hcenter].
  match goal with |- context [detect_holes rest hf et ?t ?wc] =>
    destruct (IH t wc) as (D1 & D2 & D3 & D4 & D5 & _ & evs & D7 & D8 & D9
                           & D10 & D11 & D12);
    destruct (detect_holes rest hf et t wc) as [res' wd] end.
  cbn [fst snd cancel_at _hole_detection_state images reads trace taken
       sem_stage objects escan upd_world] in D1, D2, D3, D4, D5, D7, D12.
  unfold cancelled_at_read in D5.
  cbn [cancel_at _hole_detection_state reads upd_world] in D5.
  rewrite C1, C2 in D5. fold (cancelled_at_read w (reads wd - 1)) in D5.
  rewrite app_nil_r in D7. cbn [fst snd].
  split; [congruence|]. split; [congruence|]. split; [congruence|].
  split; [lia|]. split.
  { intros Hr. destruct (D5 Hr) as [? ?]. split; [lia|done]. }
  split; [done|].
  exists (([MoveAbs (x, y)] ++ cevs) ++ evs).
  rewrite D7, C7, <- !(assoc_L (++)). split; [done|].
  rewrite !rel_moves_app, !images_got_app, !abs_moves_app, !length_app, C12.
  change (length (rel_moves [MoveAbs (x, y)])) with 0%nat.
  change (length (images_got [MoveAbs (x, y)])) with 0%nat.
  change (length (abs_moves [MoveAbs (x, y)])) with 1%nat.
  cbn [length Nat.mul]. repeat split; lia.
Qed.


Lemma finally_inv {A} (r : result A) w :
  (finally_ r w).1
  = (if cancelled_at_read w (reads w) then Exc Cancelled else r)
  ∧ _hole_detection_state (finally_ r w).2
    = (if cancelled_at_read w (reads w) then _hole_detection_state w
       else FINISHED)
  ∧ reads (finally_ r w).2 = Datatypes.S (reads w)
  ∧ trace (finally_ r w).2 = trace w
  ∧ taken (finally_ r w).2 = taken w
  ∧ sem_stage (finally_ r w).2 = sem_stage w
  ∧ objects (finally_ r w).2 = objects w.
Proof.
  unfold finally_, is_cancelled. fold (cancelled_at_read w (reads w)).
  destruct (cancelled_at_read w (reads w)); cbn; by rewrite ?app_nil_r.
Qed.

(** A run of hole detection, from the first line to the [finally]. *)
Lemma run_inv w :
  (reads w < reads (_DoHoleDetection w).2)%nat
  ∧ ((_DoHoleDetection w).1 = Exc Cancelled ↔
     cancelled_at_read w (reads (_DoHoleDetection w).2 - 1) = true)
  ∧ _hole_detection_state (_DoHoleDetection w).2
    = (if cancelled_at_read w (reads (_DoHoleDetection w).2 - 1)
       then _hole_detection_state w else FINISHED)
  ∧ (cancelled_at_read w (reads w) = true →
     trace (_DoHoleDetection w).2 = trace w
     ∧ taken (_DoHoleDetection w).2 = taken w
     ∧ sem_stage (_DoHoleDetection w).2 = sem_stage w
     ∧ objects (_DoHoleDetection w).2 = objects w)
  ∧ ∃ evs, trace (_DoHoleDetection w).2 = trace w ++ evs
      ∧ (length (images_got evs) ≤ NUMBER_OF_HOLES * MAX_STEPS)%nat
      ∧ (length (rel_moves evs) ≤ length (images_got evs))%nat
      ∧ (length (abs_moves evs) ≤ NUMBER_OF_HOLES)%nat
      ∧ taken (_DoHoleDetection w).2
        = (taken w + length (images_got evs))%nat.
Proof.
  unfold _DoHoleDetection. cbv zeta.
  match goal with |- context [detect_holes ?hs ?hf ?et ?t ?w0] =>
    destruct (detect_inv hs hf et t w0)
      as (D1 & D2 & D3 & D4 & D5 & D6 & evs & D7 & D8 & D9 & D10 & D11 & D12);
    destruct (detect_holes hs hf et t w0) as [res wd] end.
  cbn [fst snd cancel_at _hole_detection_state images reads trace taken
       sem_stage objects escan upd_world] in D1, D2, D3, D4, D5, D6, D7, D12.
  unfold cancelled_at_read in D5, D6.
  cbn [cancel_at _hole_detection_state reads upd_world] in D5, D6.
  fold (cancelled_at_read w (reads wd - 1)) in D5.
  fold (cancelled_at_read w (reads w)) in D6.
  rewrite app_nil_r in D6, D7.
  assert (Hsame : cancelled_at_read wd (reads wd) = cancelled_at_read w (reads wd)).
  { unfold cancelled_at_read. by rewrite D1, D2. }
  assert (Hfin : ∀ rr : result ((Q * Q) * (Q * Q)),
            (rr = Exc Cancelled → res = Exc Cancelled) →
            (reads w < reads (finally_ rr wd).2)%nat
            ∧ ((finally_ rr wd).1 = Exc Cancelled ↔
               cancelled_at_read w (reads (finally_ rr wd).2 - 1) = true)
            ∧ _hole_detection_state (finally_ rr wd).2
              = (if cancelled_at_read w (reads (finally_ rr wd).2 - 1)
                 then _hole_detection_state w else FINISHED)
            ∧ (cancelled_at_read w (reads w) = true →
               trace (finally_ rr wd).2 = trace w
               ∧ taken (finally_ rr wd).2 = taken w
               ∧ sem_stage (finally_ rr wd).2 = sem_stage w
               ∧ objects (finally_ rr wd).2 = objects w)
            ∧ ∃ evs, trace (finally_ rr wd).2 = trace w ++ evs
                ∧ (length (images_got evs) ≤ NUMBER_OF_HOLES * MAX_STEPS)%nat
                ∧ (length (rel_moves evs) ≤ length (images_got evs))%nat
                ∧ (length (abs_moves evs) ≤ NUMBER_OF_HOLES)%nat
                ∧ taken (finally_ rr wd).2
                  = (taken w + length (images_got evs))%nat).
  { intros rr Hrr.
    destruct (finally_inv rr wd) as (F1 & F2 & F3 & F4 & F5 & F6 & F7).
    rewrite F1, F2, F3, F4, F5, F6, F7, Hsame.
    cbn [Nat.sub]. rewrite Nat.sub_0_r.
    split; [lia|]. split; [|split; [|split]].
    - destruct (cancelled_at_read w (reads wd)) eqn:Hc; [done|].
      split; [|done]. intros Hr. destruct (D5 (Hrr Hr)) as [Hlt Hc'].
      rewrite <- Hc. apply (cancelled_at_read_mono w (reads wd - 1)); [lia|done].
    - by rewrite D2.
    - intros Hc. destruct (D6 ltac:(done) Hc) as (_ & ? & ? & ? & ?). done.
    - exists evs. change (length (seq 0 NUMBER_OF_HOLES)) with NUMBER_OF_HOLES
        in D8, D9, D10.
      by repeat split. }
  destruct res as [[]|e].
  - destruct (read_hole EXPECTED_HOLES 0 "x" (objects wd)); [|by apply Hfin].
    destruct (read_hole EXPECTED_HOLES 0 "y" (objects wd)); [|by apply Hfin].
    destruct (read_hole EXPECTED_HOLES 1 "x" (objects wd)); [|by apply Hfin].
    destruct (read_hole EXPECTED_HOLES 1 "y" (objects wd)); by apply Hfin.
  - apply Hfin. by intros [= ->].
Qed.

(** X22: whatever the images show, a run of hole detection takes at most
    [MAX_STEPS] images per hole, and makes at most one relative move per
    image and one absolute move per hole. *)
Theorem hole_detection_bounded w :
  ∃ evs, trace (_DoHoleDetection w).2 = trace w ++ evs
    ∧ (length (images_got evs) ≤ NUMBER_OF_HOLES * MAX_STEPS)%nat
    ∧ (length (rel_moves evs) ≤ length (images_got evs))%nat
    ∧ (length (abs_moves evs) ≤ NUMBER_OF_HOLES)%nat
    ∧ taken (_DoHoleDetection w).2 = (taken w + length (images_got evs))%nat.
Proof. by destruct (run_inv w) as (_ & _ & _ & _ & ?). Qed.

(** X23: A run of hole detection ends on [CancelledError] exactly when its
    last reading of the state, the one of the [finally] clause, finds
    the task cancelled, and then leaves the state alone; every other run,
    also one that raises, leaves the state FINISHED, so that the
    canceller answers False afterwards. A task that is already cancelled
    when the run starts takes no image and moves nothing. *)
Theorem hole_detection_cancellation w :
  ((_DoHoleDetection w).1 = Exc Cancelled ↔
   cancelled_at_read w (reads (_DoHoleDetection w).2 - 1) = true)
  ∧ _hole_detection_state (_DoHoleDetection w).2
    = (if cancelled_at_read w (reads (_DoHoleDetection w).2 - 1)
       then _hole_detection_state w else FINISHED)
  ∧ ((_DoHoleDetection w).1 ≠ Exc Cancelled →
     _CancelHoleDetection (_hole_detection_state (_DoHoleDetection w).2)
     = (false, FINISHED))
  ∧ (cancelled_at_read w (reads w) = true →
     (_DoHoleDetection w).1 = Exc Cancelled
     ∧ trace (_DoHoleDetection w).2 = trace w
     ∧ taken (_DoHoleDetection w).2 = taken w
     ∧ sem_stage (_DoHoleDetection w).2 = sem_stage w
     ∧ objects (_DoHoleDetection w).2 = objects w).
Proof.
  destruct (run_inv w) as (Hlt & Hiff & Hst & Hstart & _).
  split; [done|]. split; [done|]. split.
  - intros Hne. rewrite Hst.
    destruct (cancelled_at_read w (reads (_DoHoleDetection w).2 - 1));
      [|done].
    exfalso. apply Hne. by apply Hiff.
  - intros Hc. split; [|by apply Hstart].
    apply Hiff. apply (cancelled_at_read_mono w (reads w)); [lia|done].
Qed.


Lemma never_cancelled_read w (k : nat) :
  never_cancelled w → cancelled_at_read w k = false.
Proof.
  intros [Hc Hs]. unfold cancelled_at_read. rewrite Hc.
  by apply bool_decide_eq_false.
Qed.

(** Centring that never gets close enough: it stops after [remaining]
    images and as many moves, with the offset seen on the last image. *)
Lemma center_stuck (remaining : nat) (et : Q) (tab : option (Q * Q)) w :
  never_cancelled w → never_centred w →
  (center_on_hole remaining et tab w).1
  = Ret (match remaining with
         | O => tab
         | Datatypes.S r => hole_offset (images w (taken w + r))
         end)
  ∧ taken (center_on_hole remaining et tab w).2 = (taken w + remaining)%nat
  ∧ ∃ evs, trace (center_on_hole remaining et tab w).2 = trace w ++ evs
           ∧ length (rel_moves evs) = remaining.
Proof.
  revert tab w. induction remaining as [|r IH]; intros tab w Hnc Hst;
    cbn [center_on_hole]; unfold is_cancelled;
    fold (cancelled_at_read w (reads w));
    rewrite (never_cancelled_read w _ Hnc); cbn.
  - split; [done|]. split; [lia|]. exists []. by rewrite !app_nil_r.
  - destruct (Hst (taken w)) as (tab0 & Ho & Hclose).
    pose proof Ho as Ho'. unfold hole_offset in Ho.
    destruct (hole_center (images w (taken w))) as [hc|]; [|done].
    cbv zeta in Ho. injection Ho as Ho. cbn. rewrite Ho, Hclose. cbn.
    match goal with |- context [center_on_hole r et ?t ?w1] =>
      destruct (IH t w1) as (I1 & I2 & evs & I3 & I4); [done|done|];
      destruct (center_on_hole r et t w1) as [res w2] end.
    cbn in I1, I2, I3. cbn. rewrite I1.
    split.
    + destruct r as [|r']; [|by rewrite <- Nat.add_succ_comm].
      by rewrite Nat.add_0_r, Ho'.
    + split; [lia|]. eexists. split.
      { rewrite I3, app_nil_r, <- !(assoc_L (++)). reflexivity. }
      rewrite !rel_moves_app, !length_app, I4. done.
Qed.

Lemma write_keeps_entry (h h' : nat) (k : string) (v : Q) o o' :
  write_hole EXPECTED_HOLES h k v o = Some o' →
  has_entry o h' → has_entry o' h'.
Proof.
  unfold write_hole, has_entry, read_hole.
  destruct (EXPECTED_HOLES !! h) as [l|] eqn:Hl; [|done]. cbn.
  destruct (o !! l) as [d|] eqn:Hd; [|done]. cbn. intros [= <-].
  destruct (EXPECTED_HOLES !! h') as [l'|] eqn:Hl'; [|done]. cbn.
  destruct (decide (l = l')) as [<-|Hne].
  - rewrite Hd, lookup_insert, decide_True by done. cbn.
    intros [[x Hx] [y Hy]].
    split; rewrite lookup_insert; case_decide; eauto.
  - by rewrite lookup_insert_ne.
Qed.

Lemma write_entry (h : nat) (k : string) (v : Q) o :
  has_entry o h → is_Some (write_hole EXPECTED_HOLES h k v o).
Proof.
  unfold write_hole, has_entry, read_hole. intros [[x Hx] _]. revert Hx.
  destruct (EXPECTED_HOLES !! h) as [l|]; [|done]. cbn.
  destruct (o !! l) as [d|]; [|done]. cbn. by eexists.
Qed.

(** The loop over the holes when centring never gets close enough. *)
Lemma detect_stuck (holes : list nat) (et : Q) (tab : option (Q * Q)) w :
  never_cancelled w → never_centred w →
  (∀ h, h ∈ holes → has_entry (objects w) h) →
  (detect_holes holes EXPECTED_HOLES et tab w).1 = Ret tt
  ∧ never_cancelled (detect_holes holes EXPECTED_HOLES et tab w).2
  ∧ (∀ h, has_entry (objects w) h →
          has_entry (objects (detect_holes holes EXPECTED_HOLES et tab w).2) h)
  ∧ taken (detect_holes holes EXPECTED_HOLES et tab w).2
    = (taken w + length holes * MAX_STEPS)%nat
  ∧ ∃ evs, trace (detect_holes holes EXPECTED_HOLES et tab w).2
           = trace w ++ evs
           ∧ length (rel_moves evs) = (length holes * MAX_STEPS)%nat.
Proof.
  revert tab w. induction holes as [|hole rest IH]; intros tab w Hnc Hst Hent;
    cbn [detect_holes].
  { cbn [fst snd]. split; [done|]. split; [done|]. split; [done|].
    split; [cbn; lia|]. exists []. by rewrite app_nil_r. }
  unfold is_cancelled. fold (cancelled_at_read w (reads w)).
  rewrite (never_cancelled_read w _ Hnc).
  cbn [fst snd cancel_at _hole_detection_state images reads trace taken
       sem_stage objects escan upd_world].
  destruct (Hent hole ltac:(left)) as [[x Hx] [y Hy]]. rewrite Hx, Hy.
  match goal with |- context [center_on_hole MAX_STEPS et tab ?wa] =>
    destruct (center_stuck MAX_STEPS et tab wa)
      as (C1 & C2 & cevs & C3 & C4); [done|done|];
    destruct (center_inv MAX_STEPS et tab wa) as (C5 & C6 & C7 & _);
    destruct (center_frame MAX_STEPS et tab wa) as (C8 & _);
    destruct (center_on_hole MAX_STEPS et tab wa) as [res wb] end.
  cbn [fst snd cancel_at _hole_detection_state images reads trace taken
       sem_stage objects escan upd_world] in C1, C2, C3, C5, C6, C7, C8.
  rewrite !app_nil_r in C3.
  destruct (Hst (taken w + 9)%nat) as (tab9 & Ho & _).
  change (match MAX_STEPS with
          | O => tab
          | Datatypes.S r => hole_offset (images w (taken w + r))
          end) with (hole_offset (images w (taken w + 9))) in C1.
  rewrite Ho in C1. subst res. cbn [fst snd].
  assert (Hentb : ∀ h, has_entry (objects w) h → has_entry (objects wb) h).
  { intros h. by rewrite C8. }
  destruct (write_entry hole "x"
              ((position (sem_stage wb)).1 + tab9.1) (objects wb))
    as [o1 Hw1]; [apply Hentb, Hent; by left|].
  rewrite Hw1.
  destruct (write_entry hole "y"
              ((position (sem_stage wb)).2 + tab9.2) o1)
    as [o2 Hw2].
  { eapply write_keeps_entry; [exact Hw1|]. apply Hentb, Hent. by left. }
  rewrite Hw2.
  assert (Hent2 : ∀ h, has_entry (objects w) h → has_entry o2 h).
  { intros h Hh. eapply write_keeps_entry; [exact Hw2|].
    eapply write_keeps_entry; [exact Hw1|]. by apply Hentb. }
  match goal with |- context [detect_holes rest _ et ?t ?wc] =>
    destruct (IH t wc) as (D1 & D2 & D3 & D4 & evs & D5 & D6) end.
  { destruct Hnc as [? ?]. split; cbn; congruence. }
  { intros n. cbn. rewrite C7. apply Hst. }
  { intros h Hh. cbn. apply Hent2, Hent. by right. }
  cbn [fst snd cancel_at _hole_detection_state images reads trace taken
       sem_stage objects escan upd_world] in D3, D4, D5.
  split; [done|]. split; [done|]. split; [by intros h Hh; apply D3, Hent2|].
  split; [rewrite D4, C2; cbn [length Nat.mul]; lia|].
  eexists. split.
  { rewrite D5, app_nil_r, C3, <- !(assoc_L (++)). reflexivity. }
  rewrite !rel_moves_app, !length_app, C4, D6. cbn [length Nat.mul].
  change (length (rel_moves [MoveAbs (x, y)])) with 0%nat. lia.
Qed.

(** X24: hole detection does not fail when the centring does not converge:
    if every image shows the hole farther than [ERR_MARGIN] from the
    centre, the run still returns two positions, after [MAX_STEPS]
    images and [MAX_STEPS] moves for each hole, and the task is
    FINISHED. *)
Theorem hole_detection_without_convergence w :
  never_cancelled w → never_centred w →
  has_entry (objects w) 0 → has_entry (objects w) 1 →
  (∃ first_hole second_hole,
     (_DoHoleDetection w).1 = Ret (first_hole, second_hole))
  ∧ _hole_detection_state (_DoHoleDetection w).2 = FINISHED
  ∧ taken (_DoHoleDetection w).2
    = (taken w + NUMBER_OF_HOLES * MAX_STEPS)%nat
  ∧ length (rel_moves (new_events w (_DoHoleDetection w).2))
    = (NUMBER_OF_HOLES * MAX_STEPS)%nat.
Proof.
  intros Hnc Hst H0 H1. unfold _DoHoleDetection. cbv zeta.
  match goal with |- context [detect_holes ?hs ?hf ?et ?t ?w0] =>
    destruct (detect_stuck hs et t w0)
      as (D1 & D2 & D3 & D4 & evs & D5 & D6); [done|done| |];
    [|destruct (detect_holes hs hf et t w0) as [res wd]] end.
  { intros h Hh. cbn [objects upd_world].
    apply elem_of_cons in Hh as [->|Hh]; [done|].
    apply elem_of_cons in Hh as [->|Hh]; [done|].
    by apply elem_of_nil in Hh. }
  cbn [fst snd cancel_at _hole_detection_state images reads trace taken
       sem_stage objects escan upd_world] in D1, D3, D4, D5.
  rewrite app_nil_r in D5. subst res.
  destruct (D3 0%nat H0) as [[x0 Hx0] [y0 Hy0]].
  destruct (D3 1%nat H1) as [[x1 Hx1] [y1 Hy1]].
  rewrite Hx0, Hy0, Hx1, Hy1.
  destruct (finally_inv (Ret ((x0, y0), (x1, y1))) wd)
    as (F1 & F2 & _ & F4 & F5 & _).
  rewrite (never_cancelled_read wd _ D2) in F1, F2.
  split; [by exists (x0, y0), (x1, y1)|]. split; [done|].
  split; [by rewrite F5, D4|].
  rewrite (new_events_app w _ evs) by (by rewrite F4). done.
Qed.


End Runs.

Lemma hole_detection_without_convergence_witness :
  (∃ first_hole second_hole,
     (_DoHoleDetection stuck_world).1 = Ret (first_hole, second_hole))
  ∧ _hole_detection_state (_DoHoleDetection stuck_world).2 = FINISHED
  ∧ taken (_DoHoleDetection stuck_world).2
    = (taken stuck_world + NUMBER_OF_HOLES * MAX_STEPS)%nat
  ∧ length (rel_moves (new_events stuck_world (_DoHoleDetection stuck_world).2))
    = (NUMBER_OF_HOLES * MAX_STEPS)%nat.
Proof.
  apply (hole_detection_without_convergence stuck_world).
  - split; [reflexivity|discriminate].
  - intros n. eexists. split; vm_compute; reflexivity.
  - split; eexists; vm_compute; reflexivity.
  - split; eexists; vm_compute; reflexivity.
Defined.

(** On the ideal stage, with every image showing the hole 0.1 mm to the
    right: ten moves of 0.1 mm are made, and the position recorded for
    the first hole is eleven offsets from the expected one. *)
Example stuck_run_records :
  match (_DoHoleDetection stuck_world).1 with
  | Ret ((x0, y0), _) => (x0 == 11 * (1 # 10000) ∧ y0 == 11 # 1000)%Q
  | Exc _ => False
  end.
Proof. vm_compute. split; reflexivity. Qed.


(** ** The conversion update *)

Section Conversion.

Variables (env : conv_env) (first_insertion : bool).
Variables (known_first_hole known_second_hole known_offset : Q * Q).
Variables (known_rotation : Q) (known_scaling : Q * Q).
Local Open Scope Q_scope.

Lemma conv_cancelled_mono (st : conv_state) (k k' : nat) :
  (k ≤ k')%nat → conv_cancelled_at env st k = true →
  conv_cancelled_at env st k' = true.
Proof.
  unfold conv_cancelled_at. intros Hk. destruct (conv_cancel_at env); [|done].
  rewrite !bool_decide_eq_true. lia.
Qed.

Lemma fdiv_Done (a b c : Q) :
  fdiv a b = Done c → ¬ b == 0 ∧ c = a / b.
Proof.
  unfold fdiv. destruct (Qeq_bool b 0) eqn:E; [done|]. intros [= <-].
  split; [|done]. by apply Qeq_bool_neq.
Qed.

Lemma div_pair_Done (t s q : Q * Q) :
  div_pair t s = Done q →
  ¬ s.1 == 0 ∧ ¬ s.2 == 0 ∧ q = (t.1 / s.1, t.2 / s.2).
Proof.
  unfold div_pair. destruct (fdiv t.1 s.1) as [a|] eqn:Ea; [|done].
  destruct (fdiv t.2 s.2) as [b|] eqn:Eb; [|done]. intros [= <-].
  apply fdiv_Done in Ea as [? ->]. apply fdiv_Done in Eb as [? ->]. done.
Qed.

(** The [try] block: it keeps the state, reads it at least once, never
    sets [_done], and does nothing when its first reading finds the task
    cancelled. *)
Lemma body_inv (st : conv_state) :
  let r := conversion_body env first_insertion known_first_hole
             known_second_hole known_offset known_rotation known_scaling st in
  _conversion_update_state r.2 = _conversion_update_state st
  ∧ (conv_reads st < conv_reads r.2)%nat
  ∧ ∃ evs, conv_trace r.2 = conv_trace st ++ evs
      ∧ done_signals evs = []
      ∧ (conv_cancelled_at env st (conv_reads st) = true → evs = []).
Proof.
  unfold conversion_body, conv_is_cancelled. cbn [fst snd].
  cbv zeta.
  destruct (conv_cancelled_at env st (conv_reads st)) eqn:Hc0;
    [conv_exit|].
  assert (Hc : ∀ st' k, _conversion_update_state st'
                        = _conversion_update_state st →
            conv_cancelled_at env st' k = conv_cancelled_at env st k).
  { intros st' k E. unfold conv_cancelled_at. by rewrite E. }
  destruct (hole_detection_result env) as [[fh sh]|e]; [|conv_exit].
  destruct first_insertion.
  - rewrite Hc by done. cbn [conv_log conv_reads].
    destruct (conv_cancelled_at env st (Datatypes.S (conv_reads st)));
      [conv_exit|].
    destruct (align_offset_result env fh sh) as [offset|e]; [|conv_exit].
    rewrite Hc by done. cbn [conv_log conv_reads].
    destruct (conv_cancelled_at env st (Datatypes.S (Datatypes.S (conv_reads st))));
      [conv_exit|].
    destruct (rotation_scaling_result env offset) as [[rotation scaling]|e];
      [|conv_exit].
    destruct (div_pair offset scaling); conv_exit.
  - rewrite Hc by done. cbn [conv_log conv_reads].
    destruct (conv_cancelled_at env st (Datatypes.S (conv_reads st)));
      [conv_exit|].
    destruct (CalculateExtraOffset env fh sh known_first_hole
                known_second_hole known_offset known_rotation known_scaling)
      as [[uo ur]|e]; conv_exit.
Qed.

(** X25: whatever the sub-tasks do, a run of the conversion update sets
    [_done] exactly once, as the last thing it does; when the reading
    of the [finally] clause finds the task cancelled the run ends on
    [CancelledError] and leaves the state alone, and in any other case,
    also when the run raises, the state becomes FINISHED, after which
    the canceller answers False and cancels no sub-task. A task found
    cancelled at the first reading starts no sub-task at all. *)
Theorem conversion_signals_done (st : conv_state) (cenv : cancel_env) :
  let r := _DoUpdateConversion env first_insertion known_first_hole
             known_second_hole known_offset known_rotation known_scaling st in
  ∃ evs, conv_trace r.2 = conv_trace st ++ evs ++ [DoneSet]
    ∧ done_signals evs = []
    ∧ (conv_reads st < conv_reads r.2 - 1)%nat
    ∧ (if conv_cancelled_at env st (conv_reads r.2 - 1)
       then r.1 = Raises (Task Cancelled)
            ∧ _conversion_update_state r.2 = _conversion_update_state st
       else _conversion_update_state r.2 = FINISHED
            ∧ _CancelUpdateConversion (_conversion_update_state r.2) cenv
              = (false, FINISHED, []))
    ∧ (conv_cancelled_at env st (conv_reads st) = true →
       evs = [] ∧ r.1 = Raises (Task Cancelled)).
Proof.
  cbv zeta. unfold _DoUpdateConversion.
  destruct (body_inv st) as (B1 & B2 & evs & B3 & B4 & B5).
  destruct (conversion_body env first_insertion known_first_hole
              known_second_hole known_offset known_rotation known_scaling st)
    as [r st1].
  cbn [fst snd] in B1, B2, B3.
  unfold conv_is_cancelled. cbn [fst snd conv_log conv_reads conv_trace
                                  _conversion_update_state].
  assert (Hc : conv_cancelled_at env (conv_log [DoneSet] st1) (conv_reads st1)
               = conv_cancelled_at env st (conv_reads st1)).
  { unfold conv_cancelled_at. cbn. by rewrite B1. }
  rewrite Hc. exists evs.
  destruct (conv_cancelled_at env st (conv_reads st1)) eqn:Hfin;
    cbn [fst snd conv_reads conv_trace _conversion_update_state Nat.sub];
    rewrite Nat.sub_0_r, Hfin, B3, <- (assoc_L (++)).
  - repeat split; try done. by apply B5.
  - split; [done|]. split; [done|]. split; [lia|]. split; [done|].
    intros Hc0. exfalso.
    rewrite (conv_cancelled_mono st (conv_reads st) (conv_reads st1)) in Hfin;
      [done|lia|done].
Qed.

(** X26: what a run that returns has done. On a first insertion the three
    sub-tasks returned in turn, the offset returned is the one found
    divided by the scaling, which is not 0, and no metadata is touched.
    On a later insertion only hole detection ran, the offset and the
    rotation are the known ones corrected by the transform between the
    holes found and the known ones, the scaling is the known one, and
    exactly these three values are written to the metadata of the
    combined stage, rotation first. *)
Theorem conversion_result_sound (st : conv_state)
    (first_hole second_hole offset : Q * Q) (rotation : Q)
    (scaling : Q * Q) :
  let r := _DoUpdateConversion env first_insertion known_first_hole
             known_second_hole known_offset known_rotation known_scaling st in
  r.1 = Done (first_hole, second_hole, offset, rotation, scaling) →
  hole_detection_result env = Ret (first_hole, second_hole)
  ∧ _conversion_update_state r.2 = FINISHED
  ∧ if first_insertion then
      ∃ found,
        align_offset_result env first_hole second_hole = Ret found
        ∧ rotation_scaling_result env found = Ret (rotation, scaling)
        ∧ ¬ scaling.1 == 0 ∧ ¬ scaling.2 == 0
        ∧ offset = (found.1 / scaling.1, found.2 / scaling.2)
        ∧ metadata_updates (conv_new st r.2) = []
        ∧ starts (conv_new st r.2)
          = [StartHoleDetection;
             StartAlignAndOffset first_hole second_hole;
             StartRotationAndScaling found]
    else
      ∃ e_offset unused e_rotation,
        CalculateTransform env [first_hole; second_hole]
          [known_first_hole; known_second_hole]
        = (e_offset, unused, e_rotation)
        ∧ ¬ known_scaling.1 == 0 ∧ ¬ known_scaling.2 == 0
        ∧ offset = (known_offset.1 + e_offset.1 / known_scaling.1,
                    known_offset.2 + e_offset.2 / known_scaling.2)
        ∧ rotation = known_rotation + e_rotation
        ∧ scaling = known_scaling
        ∧ metadata_updates (conv_new st r.2)
          = [MD_ROTATION_COR rotation; MD_POS_COR offset;
             MD_PIXEL_SIZE_COR known_scaling]
        ∧ starts (conv_new st r.2) = [StartHoleDetection].
Proof.
  cbv zeta. unfold _DoUpdateConversion, conversion_body, conv_is_cancelled.
  cbn [fst snd]. cbv zeta.
  assert (Hc : ∀ st' k, _conversion_update_state st'
                        = _conversion_update_state st →
            conv_cancelled_at env st' k = conv_cancelled_at env st k).
  { intros st' k E. unfold conv_cancelled_at. by rewrite E. }
  assert (Hnew : ∀ evs, drop (length (conv_trace st)) (conv_trace st ++ evs)
                        = evs).
  { intros evs. apply drop_app_length. }
  unfold conv_new.
  destruct (conv_cancelled_at env st (conv_reads st));
    [cbn; rewrite ?Hc by done; by destruct (conv_cancelled_at env st _)|].
  destruct (hole_detection_result env) as [[fh sh]|e] eqn:Hh;
    [|cbn; rewrite ?Hc by done; by destruct (conv_cancelled_at env st _)].
  destruct first_insertion.
  - rewrite Hc by done. cbn [conv_log conv_reads].
    destruct (conv_cancelled_at env st (Datatypes.S (conv_reads st)));
      [cbn; rewrite ?Hc by done; by destruct (conv_cancelled_at env st _)|].
    destruct (align_offset_result env fh sh) as [found|e] eqn:Ha;
      [|cbn; rewrite ?Hc by done; by destruct (conv_cancelled_at env st _)].
    rewrite Hc by done. cbn [conv_log conv_reads].
    destruct (conv_cancelled_at env st
                (Datatypes.S (Datatypes.S (conv_reads st))));
      [cbn; rewrite ?Hc by done; by destruct (conv_cancelled_at env st _)|].
    destruct (rotation_scaling_result env found) as [[rot sc]|e] eqn:Hr;
      [|cbn; rewrite ?Hc by done; by destruct (conv_cancelled_at env st _)].
    destruct (div_pair found sc) as [off|e] eqn:Hdiv;
      [|cbn; rewrite ?Hc by done; by destruct (conv_cancelled_at env st _)].
    cbn. rewrite Hc by done.
    destruct (conv_cancelled_at env st _); [done|]. cbn.
    intros [= <- <- <- <- <-].
    apply div_pair_Done in Hdiv as (? & ? & ->).
    split; [done|]. split; [done|]. exists found.
    rewrite <- !(assoc_L (++)), Hnew. cbn. done.
  - rewrite Hc by done. cbn [conv_log conv_reads].
    destruct (conv_cancelled_at env st (Datatypes.S (conv_reads st)));
      [cbn; rewrite ?Hc by done; by destruct (conv_cancelled_at env st _)|].
    unfold CalculateExtraOffset.
    destruct (CalculateTransform env [fh; sh]
                [known_first_hole; known_second_hole])
      as [[e_offset unused] e_rotation] eqn:Ht.
    destruct (div_pair e_offset known_scaling) as [eo|e] eqn:Hdiv;
      [|cbn; rewrite ?Hc by done; by destruct (conv_cancelled_at env st _)].
    cbn. rewrite Hc by done.
    destruct (conv_cancelled_at env st _); [done|]. cbn.
    intros [= <- <- <- <- <-].
    apply div_pair_Done in Hdiv as (? & ? & ->).
    split; [done|]. split; [done|]. exists e_offset, unused, e_rotation.
    rewrite <- !(assoc_L (++)), Hnew. cbn. done.
Qed.

End Conversion.

Local Open Scope Q_scope.


Lemma conversion_result_sound_witness :
  hole_detection_result demo_conv_env
  = Ret ((0, 11 # 1000), (0, - (11 # 1000)))
  ∧ _conversion_update_state
      (_DoUpdateConversion demo_conv_env true (0, 0) (0, 0) (0, 0) 0 (1, 1)
         fresh_conv).2 = FINISHED.
Proof.
  pose proof (conversion_result_sound demo_conv_env true (0, 0) (0, 0) (0, 0)
                0 (1, 1) fresh_conv (0, 11 # 1000) (0, - (11 # 1000))
                ((2 # 1000) / 2, (4 # 1000) / 2) (1 # 100) (2, 2)) as H.
  destruct H as (H1 & H2 & _); [vm_compute; reflexivity|].
  split; [exact H1|exact H2].
Defined.

(** A later insertion of a holder whose holes are found 1 mm off: the
    known offset is corrected by 1 mm over the scaling, and the three
    corrections are written to the combined stage. *)
Example reinsertion_example :
  metadata_updates
    (conv_trace (_DoUpdateConversion demo_conv_env false (0, 11 # 1000)
                   (0, - (11 # 1000)) (5 # 1000, 0) 0 (2, 2) fresh_conv).2)
  = [MD_ROTATION_COR (0 + (1 # 100));
     MD_POS_COR ((5 # 1000) + (1 # 1000) / 2, 0 + 0 / 2);
     MD_PIXEL_SIZE_COR (2, 2)].
Proof. vm_compute. reflexivity. Qed.


End DelphiMoreFacts.
